(** * Smile-Tree: the procedural tree sketch

    A shallow embedding of the p5 sketch [createSketch] (skeleton
    generation, forest layout, signal smoothing, branch rendering and the
    falling-particle system) together with the properties its
    specification states about it.

    Number model.  A JavaScript [number] is modelled as an exact rational
    ([Q]): the arithmetic of the sketch is carried out without rounding, and
    the non-finite values (NaN, the infinities) have no counterpart.  Values
    that the sketch only ever uses as integers (depths, seeds, the scene
    mode, the state of the random generator) are modelled in [Z].

    The functions of the p5 library that the sketch calls ([lerp], [map],
    [constrain], [randomSeed], [random]) are written out in [Module P5] as
    the library defines them.  [noise], [millis], [frameCount] and the
    transcendental functions of [Math] are parameters of the development. *)

From Stdlib Require Import ZArith QArith Qabs List Bool Lia Lqa.
Import ListNotations.

Open Scope Q_scope.

(** ** Comparisons of numbers, as booleans *)

Definition Qltb (a b : Q) : bool := negb (Qle_bool b a).
Definition Qgtb (a b : Q) : bool := Qltb b a.
Definition Qgeb (a b : Q) : bool := Qle_bool b a.

(** [Math.min] and [Math.max]. *)
Definition Math_min (a b : Q) : Q := if Qle_bool a b then a else b.
Definition Math_max (a b : Q) : Q := if Qle_bool a b then b else a.

(** [Math.PI] is the double nearest to pi; its exact value is
    884279719003555 / 2^48. *)
Definition PI : Q := 884279719003555 # 281474976710656.
Definition TWO_PI : Q := 2 * PI.

(** ** The p5 functions used by the sketch *)

Module P5.

(** [lerp(start, stop, amt)] *)
Definition lerp (start stop amt : Q) : Q := amt * (stop - start) + start.

(** [constrain(n, low, high)] is [Math.max(Math.min(n, high), low)]. *)
Definition constrain (n low high : Q) : Q := Math_max (Math_min n high) low.

(** [map(n, start1, stop1, start2, stop2, withinBounds)] *)
Definition map (n start1 stop1 start2 stop2 : Q) (withinBounds : bool) : Q :=
  let newval := (n - start1) / (stop1 - start1) * (stop2 - start2) + start2 in
  if negb withinBounds then newval
  else if Qltb start2 stop2 then constrain newval start2 stop2
  else constrain newval stop2 start2.

(** The seeded generator behind [random]: a linear congruential
    generator on 32-bit states. *)
Definition m : Z := 4294967296.
Definition a : Z := 1664525.
Definition c : Z := 1013904223.

(** [randomSeed(seed)]: the seed is cast to an unsigned 32-bit integer
    ([seed >>> 0]). *)
Definition randomSeed (seed : Z) : Z := (seed mod m)%Z.

(** One step of the generator: the new state and the draw in [0, 1). *)
Definition lcg (st : Z) : Q * Z :=
  let st' := ((a * st + c) mod m)%Z in
  (inject_Z st' / inject_Z m, st').

(** [random(max)] *)
Definition random1 (max : Q) (st : Z) : Q * Z :=
  let '(rand, st') := lcg st in (rand * max, st').

(** [random(min, max)] *)
Definition random (min max : Q) (st : Z) : Q * Z :=
  let '(rand, st') := lcg st in
  if Qgtb min max then (rand * (min - max) + max, st')
  else (rand * (max - min) + min, st').

End P5.

(** ** Data model *)

(** A node of a baked tree skeleton (interface [Branch]).  The induction
    principle over the nested list of children is stated below. *)
#[local] Unset Elimination Schemes.
Inductive Branch : Type := mkBranch {
  len : Q;
  thick : Q;
  depth : Z;
  angleOffset : Q;
  children : list Branch;
  noiseThreshold : Q;
  hasFlower : bool;
  lenMult : Q
}.
#[local] Set Elimination Schemes.

(** A tree of the forest (interface [TreeInstance]). *)
Record TreeInstance : Type := mkTree {
  xRatio : Q;
  scale : Q;
  seed : Z;
  branch : Branch
}.

(** [p5.Vector], restricted to the two coordinates the sketch uses. *)
Record Vector : Type := createVector { vx : Q; vy : Q }.

Inductive Color : Type :=
  | COL_TRUNK_DORMANT | COL_TRUNK_THRIVE | COL_LEAF_TENDER | COL_FLOWER_PINK.

Inductive ParticleType : Type := leaf | flower.

Inductive FlowerStyle : Type := peach | sakura | delonix.

(** A falling leaf or flower (interface [Particle]). *)
Record Particle : Type := mkParticle {
  pos : Vector;
  vel : Vector;
  acc : Vector;
  color : Color;
  size : Q;
  life : Q;
  type : ParticleType;
  angle : Q;
  angleVel : Q;
  flip : Q;
  flipSpeed : Q;
  swayPhase : Q;
  swayFreq : Q;
  swayAmp : Q
}.

(** The raw signals ([TreeState]). *)
Record TreeState : Type := mkTreeState { mood : Q; windForce : Q }.

(** The mutable variables of the sketch closure, the canvas size and the
    state of p5's seeded generator.  ([setup] rebuilds the forest, which
    seeds the generator, before anything draws from it.) *)
Record World : Type := mkWorld {
  width : Q;
  height : Q;
  rng : Z;
  currentMood : Q;
  currentWind : Q;
  currentSceneMode : Z;
  particles : list Particle;
  forest : list TreeInstance
}.

Definition set_rng (w : World) (r : Z) : World :=
  mkWorld (width w) (height w) r (currentMood w) (currentWind w)
          (currentSceneMode w) (particles w) (forest w).

Definition set_particles (w : World) (ps : list Particle) : World :=
  mkWorld (width w) (height w) (rng w) (currentMood w) (currentWind w)
          (currentSceneMode w) ps (forest w).

Definition set_forest (w : World) (f : list TreeInstance) : World :=
  mkWorld (width w) (height w) (rng w) (currentMood w) (currentWind w)
          (currentSceneMode w) (particles w) f.

Definition set_currentSceneMode (w : World) (mode : Z) : World :=
  mkWorld (width w) (height w) (rng w) (currentMood w) (currentWind w)
          mode (particles w) (forest w).

Definition set_currentMood (w : World) (v : Q) : World :=
  mkWorld (width w) (height w) (rng w) v (currentWind w)
          (currentSceneMode w) (particles w) (forest w).

Definition set_currentWind (w : World) (v : Q) : World :=
  mkWorld (width w) (height w) (rng w) (currentMood w) v
          (currentSceneMode w) (particles w) (forest w).

Definition MAX_PARTICLES : nat := 400.

(** ** Skeleton generation: [buildTreeSkeleton] *)

Definition set_child_fields (child : Branch) (angle : Q) : Branch :=
  mkBranch (len child) 0 (depth child) angle (children child)
           (noiseThreshold child) (hasFlower child) (lenMult child).

Definition set_children (b : Branch) (cs : list Branch) : Branch :=
  mkBranch (len b) (thick b) (depth b) (angleOffset b) cs
           (noiseThreshold b) (hasFlower b) (lenMult b).

Definition set_root_fields (root : Branch) (trunkLen trunkThick : Q) : Branch :=
  mkBranch trunkLen trunkThick (depth root) (angleOffset root) (children root)
           (noiseThreshold root) (hasFlower root) (lenMult root).

(** The loop [for (let i = 0; i < numBranches; i++)] of [createBranch]:
    [todo] iterations are left, [i] is the loop index, [acc] the children
    pushed so far; [create] is the recursive call [createBranch(depth + 1)]. *)
Fixpoint childLoop (create : Z -> option (Branch * Z))
    (numBranches : Z) (baseAngle : Q)
    (todo : nat) (i : Z) (acc : list Branch) (st : Z)
    : option (list Branch * Z) :=
  match todo with
  | O => Some (acc, st)
  | S todo' =>
      match create st with
      | None => None
      | Some (child, st1) =>
          let angle :=
            P5.map (inject_Z i) 0 (inject_Z (numBranches - 1))
                   (- baseAngle) baseAngle false in
          let '(jitter, st2) := P5.random (-0.15) 0.15 st1 in
          let angle := angle + jitter in
          childLoop create numBranches baseAngle todo' (i + 1)
                    (acc ++ [set_child_fields child angle]) st2
      end
  end.

(** [createBranch(depth)].  The recursion of the source stops when
    [depth < maxDepth] fails; [fuel] bounds the number of nested calls and
    [None] is returned only when it is exhausted. *)
Fixpoint createBranch (fuel : nat) (maxDepth : Z) (depth : Z) (st : Z)
    : option (Branch * Z) :=
  match fuel with
  | O => None
  | S fuel' =>
      let '(nt, st1) := P5.random 0.05 0.95 st in
      let '(hf, st2) := P5.random1 1 st1 in
      let '(lm, st3) := P5.random (-0.08) 0.08 st2 in
      let branch := mkBranch 0 0 depth 0 [] nt (Qgtb hf 0.25) (0.72 + lm) in
      if (depth <? maxDepth)%Z then
        let numBranches := 2%Z in
        let baseAngle := PI / 5.0 in
        match childLoop (createBranch fuel' maxDepth (depth + 1))
                        numBranches baseAngle (Z.to_nat numBranches) 0 [] st3 with
        | None => None
        | Some (cs, st4) => Some (set_children branch cs, st4)
        end
      else Some (branch, st3)
  end.

(** [buildTreeSkeleton(maxDepth, seed)].  The fuel handed to
    [createBranch] is one more than the number of levels below the root. *)
Definition buildTreeSkeleton (maxDepth : Z) (seed : Z) (w : World)
    : option (Branch * World) :=
  let st := P5.randomSeed seed in
  let isMobile := Qltb (width w) 600 in
  let trunkLenRatio := if isMobile then 0.22 else 0.26 in
  let trunkLen := height w * trunkLenRatio in
  let trunkThick := if Qltb (width w) 600 then 18 else 28 in
  match createBranch (S (Z.to_nat maxDepth)) maxDepth 0 st with
  | None => None
  | Some (root, st') =>
      Some (set_root_fields root trunkLen trunkThick, set_rng w st')
  end.

(** Number of nodes of a skeleton. *)
Fixpoint nodeCount (b : Branch) : nat :=
  S ((fix sum (l : list Branch) : nat :=
        match l with
        | [] => O
        | c :: l' => (nodeCount c + sum l')%nat
        end) (children b)).

(** ** Forest layout: [rebuildForest] *)

(** The accessors the host hands to [createSketch], as the values they
    return during one frame. *)
Record Host : Type := mkHost {
  getTreeState : TreeState;
  getFlowerStyle : FlowerStyle;
  getSceneMode : Z
}.

Definition forest_push (w : World) (t : TreeInstance) : World :=
  set_forest w (forest w ++ [t]).

(** The loop [for (let i = 0; i < count; i++)] of the forest mode. *)
Fixpoint forestLoop (todo : nat) (i : Z) (count : Z) (depthLimit : Z)
    (w : World) : option World :=
  match todo with
  | O => Some w
  | S todo' =>
      let t := inject_Z i / inject_Z (count - 1) in
      let x := 0.05 + t * 0.9 in
      let seed := (5555 + i * 937)%Z in
      let st := P5.randomSeed seed in
      let '(sc, st') := P5.random 0.30 0.42 st in
      match buildTreeSkeleton depthLimit seed (set_rng w st') with
      | None => None
      | Some (b, w') =>
          forestLoop todo' (i + 1) count depthLimit
                     (forest_push w' (mkTree x sc seed b))
      end
  end.

Definition rebuildForest (host : Host) (w : World) : option World :=
  let mode := getSceneMode host in
  let w := set_currentSceneMode w mode in
  let w := set_forest w [] in
  if (mode =? 1)%Z then
    let depthLimit := 9%Z in
    match buildTreeSkeleton depthLimit 1234 w with
    | None => None
    | Some (b, w') => Some (forest_push w' (mkTree 0.5 1.0 1234 b))
    end
  else if (mode =? 2)%Z then
    let depthLimit := 8%Z in
    match buildTreeSkeleton depthLimit 2222 w with
    | None => None
    | Some (b1, w1) =>
        let w1 := forest_push w1 (mkTree 0.3 0.75 2222 b1) in
        match buildTreeSkeleton depthLimit 3333 w1 with
        | None => None
        | Some (b2, w2) => Some (forest_push w2 (mkTree 0.7 0.75 3333 b2))
        end
    end
  else
    let depthLimit := 7%Z in
    let count := 10%Z in
    forestLoop (Z.to_nat count) 0 count depthLimit w.

(** ** Drawing commands

    The calls the sketch makes on the canvas, in the order it makes them.
    [drawAttachedFoliage] and [drawFlowerShapeWithAlpha] only draw; a call
    of either is recorded as one command carrying its arguments. *)
Inductive Cmd : Type :=
  | Clear | Push | Pop | NoStroke
  | Fill (r g b alpha : Q)
  | FillColor (c : Color) (alpha : Q)
  | Rect (x y w h : Q)
  | Stroke (dormant thrive : Color) (amt : Q)
  | StrokeWeight (t : Q)
  | StrokeCapRound
  | Line (x1 y1 x2 y2 : Q)
  | Translate (x y : Q)
  | Rotate (a : Q)
  | Scale (sx sy : Q)
  | Ellipse (x y w h : Q)
  | DrawAttachedFoliage (windAngle : Q) (hasFlower : bool) (bloomFactor : Q)
                        (style : FlowerStyle) (scale : Q)
  | DrawFlowerShapeWithAlpha (style : FlowerStyle) (size alpha : Q).

(** The remainder [x % 1.0]: what is left of [x] after its integer part,
    truncated towards zero, is taken away. *)
Definition mod1 (x : Q) : Q := x - inject_Z (Z.quot (Qnum x) (Zpos (Qden x))).

Section Sketch.

(** [p.noise], [Math.sin], [Math.cos], [Math.pow], and the readings of
    [p.millis()] and [p.frameCount] during the frame. *)
Variable noise : Q -> Q -> Q -> Q.
Variable Math_sin Math_cos : Q -> Q.
Variable Math_pow : Q -> Q -> Q.
Variable millis : Q.
Variable frameCount : Q.

(** *** [spawnFallingParticle] *)
Definition spawnFallingParticle (x y scale : Q) (w : World) : World :=
  if Qltb x (-50) || Qgtb x (width w + 50) || Qgtb y (height w) then w
  else
    let '(r, st) := P5.random (-0.5) 0.5 (rng w) in
    let vx := r + currentWind w * 2.5 in
    let '(vy, st) := P5.random 1.5 3.5 st in
    let '(r, st) := P5.random1 1 st in
    let isFlower := Qgtb r 0.5 in
    let '(baseSize, st) := P5.random 7 12 st in
    let '(angle, st) := P5.random1 TWO_PI st in
    let '(angleVel, st) := P5.random (-0.15) 0.15 st in
    let '(flip, st) := P5.random1 TWO_PI st in
    let '(flipSpeed, st) := P5.random 0.05 0.2 st in
    let '(swayPhase, st) := P5.random1 TWO_PI st in
    let '(swayFreq, st) := P5.random 0.05 0.1 st in
    let '(swayAmp, st) := P5.random 0.02 0.05 st in
    let part :=
      mkParticle (createVector x y) (createVector vx vy) (createVector 0 0)
                 (if isFlower then COL_FLOWER_PINK else COL_LEAF_TENDER)
                 (baseSize * scale) 255
                 (if isFlower then flower else leaf)
                 angle angleVel flip flipSpeed swayPhase swayFreq swayAmp in
    set_particles (set_rng w st) (particles w ++ [part]).

(** *** [renderBranch] *)

(** [maxDepth] as [renderBranch] derives it from the scene mode. *)
Definition renderMaxDepth (mode : Z) : Z :=
  if (mode =? 3)%Z then 7%Z else if (mode =? 2)%Z then 8%Z else 9%Z.

(** The loop [for (const child of branch.children)]: [render] is the
    recursive call of [renderBranch] on a child under the rotation
    [nextAngle]. *)
Definition eachChild
    (render : Branch -> Q -> World -> list Cmd * World) (localWind : Q)
    : list Branch -> World -> list Cmd * World :=
  fix each (cs : list Branch) (w : World) : list Cmd * World :=
    match cs with
    | [] => ([], w)
    | child :: cs' =>
        let nextAngle := angleOffset child + localWind in
        let '(drawn, w') := render child nextAngle w in
        let '(rest, w'') := each cs' w' in
        ([Push; Rotate nextAngle] ++ drawn ++ [Pop] ++ rest, w'')
    end.

Fixpoint renderBranch (branch : Branch) (len thick windAngle x y cumAngle : Q)
    (flowerStyle : FlowerStyle) (scale : Q) (w : World) {struct branch}
    : list Cmd * World :=
  let bloomFactor := P5.map (currentMood w) 0 1 0 1 true in
  let segment :=
    [Stroke COL_TRUNK_DORMANT COL_TRUNK_THRIVE bloomFactor;
     StrokeWeight thick; StrokeCapRound; Line 0 0 0 (- len)] in
  let tipX := x + Math_sin cumAngle * len in
  let tipY := y - Math_cos cumAngle * len in
  let segment := segment ++ [Translate 0 (- len)] in
  let maxDepth := renderMaxDepth (currentSceneMode w) in
  let '(twig, w1) :=
    if (depth branch >? maxDepth - 4)%Z then
      let isAttached := Qgtb bloomFactor (noiseThreshold branch) in
      let foliage :=
        if isAttached
        then [DrawAttachedFoliage windAngle (hasFlower branch) bloomFactor
                                  flowerStyle scale]
        else [] in
      let time := millis in
      let spawnNoise := noise (tipX * 0.1) (tipY * 0.1) (time * 0.008) in
      let spawnChance :=
        if (currentSceneMode w =? 3)%Z then 0.002 else 0.02 in
      if Qgtb bloomFactor 0.3 && Qltb (mod1 (spawnNoise * 100)) spawnChance
      then (foliage, spawnFallingParticle tipX tipY scale w)
      else (foliage, w)
    else ([], w) in
  if (depth branch >=? maxDepth)%Z || Qltb len 4 then (segment ++ twig, w1)
  else
    let flexibility :=
      P5.map (inject_Z (depth branch)) 0 (inject_Z maxDepth) 0.05 1.3 false in
    let localWind := windAngle * flexibility in
    let '(sub, w2) :=
      eachChild
        (fun child nextAngle w =>
           renderBranch child (len * lenMult child) (thick * 0.7)
                        windAngle tipX tipY (cumAngle + nextAngle)
                        flowerStyle scale w)
        localWind (children branch) w1 in
    (segment ++ twig ++ sub, w2).

(** *** [updateParticles] *)

(** [particles.splice(start, deleteCount)] *)
Definition splice {A : Type} (l : list A) (start deleteCount : nat) : list A :=
  firstn start l ++ skipn (start + deleteCount) l.

(** Assignment to the element at index [i]. *)
Definition store {A : Type} (l : list A) (i : nat) (v : A) : list A :=
  firstn i l ++ v :: skipn (S i) l.

Definition Vector_add (u v : Vector) : Vector :=
  createVector (vx u + vx v) (vy u + vy v).

Definition Vector_mult (u : Vector) (k : Q) : Vector :=
  createVector (vx u * k) (vy u * k).

(** The updates of one particle in the body of the loop, up to and
    including [part.life -= 2]. *)
Definition advance (windForce : Q) (part : Particle) : Particle :=
  let acc := createVector 0 0.1 in
  let turbulence :=
    noise (vx (pos part) * 0.01) (vy (pos part) * 0.01) (frameCount * 0.02)
    - 0.5 in
  let windEffect := windForce * 0.25 in
  let acc := createVector (vx acc + (windEffect + turbulence * 0.15)) (vy acc) in
  let swayForce :=
    Math_sin (frameCount * swayFreq part + swayPhase part) * swayAmp part in
  let acc := createVector (vx acc + swayForce) (vy acc) in
  let vel := Vector_add (vel part) acc in
  let vel := Vector_mult vel 0.94 in
  let pos := Vector_add (pos part) vel in
  mkParticle pos vel acc (color part) (size part) (life part - 2) (type part)
             (angle part + angleVel part) (angleVel part)
             (flip part + flipSpeed part) (flipSpeed part)
             (swayPhase part) (swayFreq part) (swayAmp part).

(** The test [part.life <= 0 || part.pos.y > p.height + 100]. *)
Definition expired (h : Q) (part : Particle) : bool :=
  Qle_bool (life part) 0 || Qgtb (vy (pos part)) (h + 100).

(** Drawing of one surviving particle. *)
Definition drawParticle (currentStyle : FlowerStyle) (part : Particle)
    : list Cmd :=
  let tumbleScale := Math_cos (flip part) in
  let renderScale := Qabs tumbleScale in
  let alpha := life part in
  [Push; Translate (vx (pos part)) (vy (pos part)); Rotate (angle part);
   Scale 1 (Math_max 0.1 renderScale)]
  ++ match type part with
     | flower => [DrawFlowerShapeWithAlpha currentStyle (size part) alpha]
     | leaf => [FillColor (color part) alpha; NoStroke;
                Ellipse 0 0 (size part) (size part * 0.7)]
     end
  ++ [Pop].

(** The loop [for (let i = particles.length - 1; i >= 0; i--)]: [n] is
    [i + 1].  The index is always within the array; were it not,
    [particles[i]] would be undefined and the model leaves the array as
    it is. *)
Fixpoint particleLoop (windForce : Q) (currentStyle : FlowerStyle) (h : Q)
    (n : nat) (ps : list Particle) : list Cmd * list Particle :=
  match n with
  | O => ([], ps)
  | S i =>
      match nth_error ps i with
      | None => ([], ps)
      | Some part =>
          let part := advance windForce part in
          if expired h part
          then particleLoop windForce currentStyle h i (splice ps i 1)
          else
            let '(cmds, ps') :=
              particleLoop windForce currentStyle h i (store ps i part) in
            (drawParticle currentStyle part ++ cmds, ps')
      end
  end.

Definition updateParticles (windForce : Q) (currentStyle : FlowerStyle)
    (w : World) : list Cmd * World :=
  let ps := particles w in
  let ps :=
    if (MAX_PARTICLES <? length ps)%nat
    then splice ps 0 (length ps - MAX_PARTICLES)
    else ps in
  let '(cmds, ps) :=
    particleLoop windForce currentStyle (height w) (length ps) ps in
  (cmds, set_particles w ps).

(** *** [p.draw] *)

(** The loop [for (const tree of forest)]. *)
Fixpoint drawForest (trees : list TreeInstance) (totalWindAngle : Q)
    (flowerStyle : FlowerStyle) (w : World) : list Cmd * World :=
  match trees with
  | [] => ([], w)
  | tree :: trees' =>
      let startX := width w * xRatio tree in
      let startY := height w in
      let '(drawn, w1) :=
        renderBranch (branch tree)
                     (len (branch tree) * scale tree)
                     (thick (branch tree) * scale tree)
                     totalWindAngle startX startY 0 flowerStyle
                     (scale tree) w in
      let '(rest, w2) := drawForest trees' totalWindAngle flowerStyle w1 in
      ([Push; Translate startX startY] ++ drawn ++ [Pop] ++ rest, w2)
  end.

(** The two smoothing steps of [p.draw]. *)
Definition smoothMood (raw : Q) (w : World) : World :=
  if Qgeb raw (currentMood w)
  then set_currentMood w (P5.lerp (currentMood w) raw 0.1)
  else set_currentMood w (P5.lerp (currentMood w) raw 0.03).

Definition smoothWind (raw : Q) (w : World) : World :=
  let targetWind := raw in
  set_currentWind w (P5.lerp (currentWind w) targetWind 0.12).

Definition draw (host : Host) (w : World) : option (list Cmd * World) :=
  let mode := getSceneMode host in
  match (if negb (mode =? currentSceneMode w)%Z
         then rebuildForest host w else Some w) with
  | None => None
  | Some w =>
      let state := getTreeState host in
      let flowerStyle := getFlowerStyle host in
      let w := smoothMood (mood state) w in
      let w := smoothWind (windForce state) w in
      let background :=
        [Clear; Push; NoStroke]
        ++ (if Qgtb (currentMood w) 0
            then [Fill 255 230 200 (currentMood w * 20)]
            else [Fill 5 5 15 (Qabs (currentMood w) * 180)])
        ++ [Rect 0 0 (width w) (height w); Pop] in
      let time := millis * 0.001 in
      let noiseSway :=
        P5.map (noise (time * 0.6) 0 0) 0 1 (-0.04) 0.04 false in
      let windSign := if Qltb (currentWind w) 0 then -1 else 1 in
      let effectiveWind := windSign * Math_pow (Qabs (currentWind w)) 1.4 in
      let activeSway :=
        Math_sin (time * 2.5) * (effectiveWind * 0.1) + effectiveWind * 0.3 in
      let totalWindAngle := noiseSway + activeSway in
      let '(trees, w) :=
        drawForest (forest w) totalWindAngle flowerStyle w in
      let '(parts, w) := updateParticles (currentWind w) flowerStyle w in
      Some (background ++ trees ++ parts, w)
  end.

End Sketch.

(** ** Counting *)

Definition isFoliage (c : Cmd) : bool :=
  match c with
  | DrawAttachedFoliage _ _ _ _ _ => true
  | _ => false
  end.

(** Number of branches whose foliage was drawn in a list of commands. *)
Definition attachedCount (cmds : list Cmd) : nat :=
  length (filter isFoliage cmds).

(** The commands [renderBranch] issues for a branch itself: those before
    the first [Push], with which it turns to the children. *)
Fixpoint ownCommands (cmds : list Cmd) : list Cmd :=
  match cmds with
  | [] => []
  | Push :: _ => []
  | c :: rest => c :: ownCommands rest
  end.

(** Whether foliage is attached to the branch that issued [cmds]. *)
Definition isAttachedIn (cmds : list Cmd) : bool :=
  existsb isFoliage (ownCommands cmds).

(** * Properties *)

(** ** Comparisons *)

Lemma Qltb_lt (a b : Q) : Qltb a b = true <-> a < b.
Proof.
  unfold Qltb. rewrite negb_true_iff.
  split; intro H.
  - apply Qnot_le_lt. intro Hle. apply Qle_bool_iff in Hle. congruence.
  - destruct (Qle_bool b a) eqn:E; [|reflexivity].
    apply Qle_bool_iff in E. exfalso. apply (Qlt_not_le _ _ H E).
Qed.

Lemma Qltb_ge (a b : Q) : Qltb a b = false <-> b <= a.
Proof.
  unfold Qltb. rewrite negb_false_iff. apply Qle_bool_iff.
Qed.

Lemma Qgtb_gt (a b : Q) : Qgtb a b = true <-> b < a.
Proof. apply Qltb_lt. Qed.

Lemma Qgtb_le (a b : Q) : Qgtb a b = false <-> a <= b.
Proof. apply Qltb_ge. Qed.

Lemma Qle_bool_gt (a b : Q) : Qle_bool a b = false <-> b < a.
Proof.
  split; intro H.
  - apply Qnot_le_lt. intro Hle. apply Qle_bool_iff in Hle. congruence.
  - destruct (Qle_bool a b) eqn:E; [|reflexivity].
    apply Qle_bool_iff in E. exfalso. apply (Qlt_not_le _ _ H E).
Qed.

Lemma Math_min_spec (a b : Q) :
  (a <= b /\ Math_min a b = a) \/ (b < a /\ Math_min a b = b).
Proof.
  unfold Math_min. destruct (Qle_bool a b) eqn:E.
  - left. split; [now apply Qle_bool_iff | reflexivity].
  - right. split; [now apply Qle_bool_gt | reflexivity].
Qed.

Lemma Math_max_spec (a b : Q) :
  (a <= b /\ Math_max a b = b) \/ (b < a /\ Math_max a b = a).
Proof.
  unfold Math_max. destruct (Qle_bool a b) eqn:E.
  - left. split; [now apply Qle_bool_iff | reflexivity].
  - right. split; [now apply Qle_bool_gt | reflexivity].
Qed.

(** [constrain] keeps its result within the bounds. *)
Lemma constrain_range (n low high : Q) :
  low <= high -> low <= P5.constrain n low high <= high.
Proof.
  intro H. unfold P5.constrain.
  destruct (Math_min_spec n high) as [[H1 E1]|[H1 E1]];
    destruct (Math_max_spec (Math_min n high) low) as [[H2 E2]|[H2 E2]];
    rewrite E2; rewrite ?E1 in H2 |- *; split; lra.
Qed.

(** ** The generator *)

Lemma lcg_range (st : Z) : 0 <= fst (P5.lcg st) /\ fst (P5.lcg st) < 1.
Proof.
  unfold P5.lcg. cbn [fst].
  set (s := ((P5.a * st + P5.c) mod P5.m)%Z).
  assert (Hs : (0 <= s < P5.m)%Z) by (apply Z.mod_pos_bound; reflexivity).
  unfold P5.m in *.
  assert (E : inject_Z s / inject_Z 4294967296 == s # 4294967296).
  { unfold Qeq, Qdiv, Qmult, Qinv, inject_Z. cbn [Qnum Qden].
    rewrite Pos.mul_1_l. lia. }
  rewrite E. unfold Qle, Qlt. cbn [Qnum Qden]. lia.
Qed.

Lemma random_range (lo hi : Q) (st : Z) :
  lo <= hi -> lo <= fst (P5.random lo hi st) /\ fst (P5.random lo hi st) <= hi.
Proof.
  intro H. unfold P5.random.
  pose proof (lcg_range st) as Hr.
  destruct (P5.lcg st) as [rand st']. cbn [fst] in Hr.
  destruct (Qgtb lo hi) eqn:E.
  - apply Qgtb_gt in E. lra.
  - cbn [fst]. nra.
Qed.

(** ** Induction over skeletons *)

Section BranchInduction.

Variable P : Branch -> Prop.
Hypothesis step : forall b, Forall P (children b) -> P b.

Fixpoint Branch_ind (b : Branch) : P b :=
  match b as b0 return P b0 with
  | mkBranch l t d a cs n f m =>
      step (mkBranch l t d a cs n f m)
           ((fix all (l0 : list Branch) : Forall P l0 :=
               match l0 with
               | [] => Forall_nil P
               | c :: l1 => Forall_cons c (Branch_ind c) (all l1)
               end) cs)
  end.

End BranchInduction.

Lemma nodeCount_eq (b : Branch) :
  nodeCount b = S (list_sum (List.map nodeCount (children b))).
Proof.
  destruct b as [l t d a cs n f m]. cbn [nodeCount children]. f_equal.
  induction cs as [|c cs IH]; [reflexivity|].
  cbn [List.map list_sum fold_right]. now rewrite IH.
Qed.

Lemma nodeCount_set_child_fields (c : Branch) (angle : Q) :
  nodeCount (set_child_fields c angle) = nodeCount c.
Proof. now rewrite !nodeCount_eq. Qed.

Lemma nodeCount_set_root_fields (r : Branch) (l t : Q) :
  nodeCount (set_root_fields r l t) = nodeCount r.
Proof. now rewrite !nodeCount_eq. Qed.

(** ** Skeleton generation returns, and how many nodes it makes *)

Lemma childLoop_total (create : Z -> option (Branch * Z))
    (numBranches : Z) (baseAngle : Q) :
  (forall st, exists r, create st = Some r) ->
  forall todo i acc st,
    exists r, childLoop create numBranches baseAngle todo i acc st = Some r.
Proof.
  intros Hc todo. induction todo as [|todo IH]; intros i acc st.
  - eexists. reflexivity.
  - cbn [childLoop]. destruct (Hc st) as [[child st1] E]. rewrite E.
    destruct (P5.random (-0.15) 0.15 st1) as [jitter st2]. apply IH.
Qed.

Lemma childLoop_count (create : Z -> option (Branch * Z))
    (numBranches : Z) (baseAngle : Q) (k : nat) :
  (forall st c st', create st = Some (c, st') -> nodeCount c = k) ->
  forall todo i acc st cs st',
    childLoop create numBranches baseAngle todo i acc st = Some (cs, st') ->
    list_sum (List.map nodeCount cs)
    = (list_sum (List.map nodeCount acc) + todo * k)%nat.
Proof.
  intros Hc todo. induction todo as [|todo IH]; intros i acc st cs st' H.
  - cbn [childLoop] in H. injection H as <- <-. lia.
  - cbn [childLoop] in H.
    destruct (create st) as [[child st1]|] eqn:E; [|discriminate].
    destruct (P5.random (-0.15) 0.15 st1) as [jitter st2].
    apply IH in H. rewrite H, List.map_app, list_sum_app.
    cbn [List.map list_sum fold_right]. rewrite nodeCount_set_child_fields.
    rewrite (Hc _ _ _ E). cbn [Nat.mul list_sum fold_right]. lia.
Qed.

Lemma createBranch_total (fuel : nat) :
  forall maxDepth depth st,
    (Z.to_nat (maxDepth - depth) < fuel)%nat ->
    exists r, createBranch fuel maxDepth depth st = Some r.
Proof.
  induction fuel as [|fuel IH]; intros maxDepth depth st Hf; [lia|].
  cbn [createBranch].
  destruct (P5.random 0.05 0.95 st) as [nt st1].
  destruct (P5.random1 1 st1) as [hf st2].
  destruct (P5.random (-0.08) 0.08 st2) as [lm st3].
  destruct (depth <? maxDepth)%Z eqn:E; [|eexists; reflexivity].
  apply Z.ltb_lt in E.
  destruct (childLoop_total (createBranch fuel maxDepth (depth + 1)) 2
              (PI / 5.0)) with (todo := Z.to_nat 2) (i := 0%Z)
              (acc := @nil Branch) (st := st3) as [[cs st4] Hl].
  { intro s. apply IH. lia. }
  rewrite Hl. eexists. reflexivity.
Qed.

(** A skeleton with [levels] levels below its root has [2^(levels+1) - 1]
    nodes. *)
Lemma createBranch_count (fuel : nat) :
  forall maxDepth depth st b st',
    createBranch fuel maxDepth depth st = Some (b, st') ->
    nodeCount b = (2 ^ S (Z.to_nat (maxDepth - depth)) - 1)%nat.
Proof.
  induction fuel as [|fuel IH]; intros maxDepth depth st b st' H;
    [discriminate|].
  cbn [createBranch] in H.
  destruct (P5.random 0.05 0.95 st) as [nt st1].
  destruct (P5.random1 1 st1) as [hf st2].
  destruct (P5.random (-0.08) 0.08 st2) as [lm st3].
  destruct (depth <? maxDepth)%Z eqn:E.
  - apply Z.ltb_lt in E.
    destruct (childLoop _ _ _ _ _ _ _) as [[cs st4]|] eqn:Hl; [|discriminate].
    injection H as <- <-.
    apply (childLoop_count _ _ _
             (2 ^ S (Z.to_nat (maxDepth - (depth + 1))) - 1)) in Hl.
    2:{ intros s c s' Hc. exact (IH _ _ _ _ _ Hc). }
    rewrite nodeCount_eq. cbn [children set_children]. rewrite Hl.
    cbn [List.map list_sum fold_right].
    change (Z.to_nat 2) with 2%nat.
    replace (Z.to_nat (maxDepth - depth))
      with (S (Z.to_nat (maxDepth - (depth + 1)))) by lia.
    set (n := Z.to_nat (maxDepth - (depth + 1))).
    assert (Hp : (0 < 2 ^ n)%nat) by (apply Nat.neq_0_lt_0, Nat.pow_nonzero; lia).
    rewrite !Nat.pow_succ_r'. lia.
  - apply Z.ltb_ge in E. injection H as <- <-.
    replace (Z.to_nat (maxDepth - depth)) with 0%nat by lia.
    reflexivity.
Qed.

Lemma buildTreeSkeleton_total (maxDepth seed : Z) (w : World) :
  exists root st,
    createBranch (S (Z.to_nat maxDepth)) maxDepth 0 (P5.randomSeed seed)
      = Some (root, st) /\
    buildTreeSkeleton maxDepth seed w
      = Some (set_root_fields root
                (height w * (if Qltb (width w) 600 then 0.22 else 0.26))
                (if Qltb (width w) 600 then 18 else 28),
              set_rng w st).
Proof.
  destruct (createBranch_total (S (Z.to_nat maxDepth)) maxDepth 0
              (P5.randomSeed seed)) as [[root st] E].
  { rewrite Z.sub_0_r. lia. }
  exists root, st. split; [exact E|].
  unfold buildTreeSkeleton. now rewrite E.
Qed.

Lemma buildTreeSkeleton_count (maxDepth seed : Z) (w w' : World)
    (root : Branch) :
  (0 <= maxDepth)%Z ->
  buildTreeSkeleton maxDepth seed w = Some (root, w') ->
  Z.of_nat (nodeCount root) = (2 ^ (maxDepth + 1) - 1)%Z.
Proof.
  intros Hd H.
  destruct (buildTreeSkeleton_total maxDepth seed w) as (r & s & C & B).
  rewrite B in H. injection H as <- <-.
  rewrite nodeCount_set_root_fields.
  rewrite (createBranch_count _ _ _ _ _ _ C), Z.sub_0_r.
  assert (Hp : (0 < 2 ^ S (Z.to_nat maxDepth))%nat)
    by (apply Nat.neq_0_lt_0, Nat.pow_nonzero; lia).
  rewrite Nat2Z.inj_sub by lia.
  rewrite Nat2Z.inj_pow. f_equal. f_equal. lia.
Qed.

(** C3. Skeleton generation is deterministic: whatever the state of the
    random generator and of the rest of the sketch before the call, two
    calls of [buildTreeSkeleton] with the same seed, the same [maxDepth]
    and the same canvas size return the same tree, field for field at every
    node, and that tree has [2^(maxDepth+1) - 1] nodes. *)
Theorem buildTreeSkeleton_deterministic (maxDepth seed : Z) (w1 w2 : World) :
  (0 <= maxDepth)%Z ->
  width w1 = width w2 ->
  height w1 = height w2 ->
  exists root w1' w2',
    buildTreeSkeleton maxDepth seed w1 = Some (root, w1') /\
    buildTreeSkeleton maxDepth seed w2 = Some (root, w2') /\
    Z.of_nat (nodeCount root) = (2 ^ (maxDepth + 1) - 1)%Z.
Proof.
  intros Hd Hw Hh.
  destruct (buildTreeSkeleton_total maxDepth seed w1) as (r1 & s1 & C1 & B1).
  destruct (buildTreeSkeleton_total maxDepth seed w2) as (r2 & s2 & C2 & B2).
  rewrite C1 in C2. injection C2 as <- <-.
  rewrite <- Hw, <- Hh in B2.
  eexists _, _, _. split; [exact B1|]. split; [exact B2|].
  exact (buildTreeSkeleton_count _ _ _ _ _ Hd B1).
Qed.

Lemma buildTreeSkeleton_deterministic_witness :
  exists root w1' w2',
    buildTreeSkeleton 2 1234 (mkWorld 800 600 0 0 0 0 [] []) = Some (root, w1') /\
    buildTreeSkeleton 2 1234 (mkWorld 800 600 77 0.5 0.1 3 [] []) = Some (root, w2') /\
    Z.of_nat (nodeCount root) = (2 ^ (2 + 1) - 1)%Z.
Proof.
  apply (buildTreeSkeleton_deterministic 2 1234
           (mkWorld 800 600 0 0 0 0 [] [])
           (mkWorld 800 600 77 0.5 0.1 3 [] [])).
  - lia.
  - reflexivity.
  - reflexivity.
Defined.

(** ** Forest layout *)

(** What [rebuildForest] and the drawing code leave alone. *)
Definition sameView (w w' : World) : Prop :=
  width w' = width w /\ height w' = height w /\
  currentMood w' = currentMood w /\ currentWind w' = currentWind w.

Lemma sameView_refl (w : World) : sameView w w.
Proof. repeat split. Qed.

Lemma sameView_trans (w1 w2 w3 : World) :
  sameView w1 w2 -> sameView w2 w3 -> sameView w1 w3.
Proof.
  unfold sameView. intros (A1 & A2 & A3 & A4) (B1 & B2 & B3 & B4).
  repeat split; congruence.
Qed.

(** The [i]-th tree of the many-tree layout on a canvas of size
    [W] x [H]. *)
Definition isForestTree (W H : Q) (count depthLimit : Z) (i : Z)
    (t : TreeInstance) : Prop :=
  xRatio t = 0.05 + inject_Z i / inject_Z (count - 1) * 0.9 /\
  seed t = (5555 + i * 937)%Z /\
  scale t = fst (P5.random 0.30 0.42 (P5.randomSeed (seed t))) /\
  exists w w',
    width w = W /\ height w = H /\
    buildTreeSkeleton depthLimit (seed t) w = Some (branch t, w').

Lemma forestLoop_spec (count depthLimit : Z) (todo : nat) :
  forall i w,
    exists w' ts,
      forestLoop todo i count depthLimit w = Some w' /\
      sameView w w' /\
      currentSceneMode w' = currentSceneMode w /\
      particles w' = particles w /\
      forest w' = forest w ++ ts /\
      Forall2 (isForestTree (width w) (height w) count depthLimit)
              (List.map (fun k => (i + Z.of_nat k)%Z) (seq 0 todo)) ts.
Proof.
  induction todo as [|todo IH]; intros i w.
  - exists w, []. cbn. rewrite app_nil_r.
    repeat split; constructor.
  - cbn [forestLoop].
    destruct (P5.random 0.30 0.42 (P5.randomSeed (5555 + i * 937))) as [sc st']
      eqn:Er.
    destruct (buildTreeSkeleton_total depthLimit (5555 + i * 937)
                (set_rng w st')) as (root & st & Hc & Hb).
    rewrite Hb.
    match goal with
    | |- context [forestLoop todo (i + 1) count depthLimit ?w1] =>
        destruct (IH (i + 1)%Z w1) as (w' & ts & Hl & Hv & Hm & Hp & Hf & Hts)
    end.
    exists w'. eexists (_ :: ts). split; [exact Hl|].
    split; [exact Hv|]. split; [exact Hm|]. split; [exact Hp|].
    split.
    + rewrite Hf. cbn [forest forest_push set_forest set_rng].
      rewrite <- app_assoc. reflexivity.
    + cbn [seq List.map]. constructor.
      * unfold isForestTree. cbn [xRatio seed scale branch].
        rewrite Z.add_0_r, Er. repeat split.
        exists (set_rng w st'). eexists. repeat split. exact Hb.
      * rewrite <- seq_shift, List.map_map.
        erewrite List.map_ext; [exact Hts|].
        intro k. cbn. lia.
Qed.

(** The layout [rebuildForest] produces for a scene mode other than 1 and
    2: ten trees, each as [isForestTree] describes. *)
Lemma rebuildForest_many (host : Host) (w : World) :
  getSceneMode host <> 1%Z ->
  getSceneMode host <> 2%Z ->
  exists w',
    rebuildForest host w = Some w' /\
    sameView w w' /\
    currentSceneMode w' = getSceneMode host /\
    particles w' = particles w /\
    Forall2 (isForestTree (width w) (height w) 10 7)
            (List.map Z.of_nat (seq 0 10)) (forest w').
Proof.
  intros H1 H2. unfold rebuildForest.
  apply Z.eqb_neq in H1, H2. rewrite H1, H2.
  match goal with
  | |- context [forestLoop _ 0 10 7 ?w1] =>
      destruct (forestLoop_spec 10 7 (Z.to_nat 10) 0 w1)
        as (w' & ts & Hl & Hv & Hm & Hp & Hf & Hts)
  end.
  exists w'. split; [exact Hl|]. split; [exact Hv|].
  split; [exact Hm|]. split; [exact Hp|].
  rewrite Hf. exact Hts.
Qed.

(** The layout for scene mode 1. *)
Lemma rebuildForest_single (host : Host) (w : World) :
  getSceneMode host = 1%Z ->
  exists w' root w1 w2,
    rebuildForest host w = Some w' /\
    sameView w w' /\
    currentSceneMode w' = 1%Z /\
    particles w' = particles w /\
    forest w' = [mkTree 0.5 1.0 1234 root] /\
    width w1 = width w /\ height w1 = height w /\
    buildTreeSkeleton 9 1234 w1 = Some (root, w2).
Proof.
  intro H. unfold rebuildForest. rewrite H. cbn [Z.eqb Pos.eqb].
  match goal with
  | |- context [buildTreeSkeleton 9 1234 ?w1] =>
      destruct (buildTreeSkeleton_total 9 1234 w1) as (root & st & Hc & Hb);
      rewrite Hb; exists (forest_push (set_rng w1 st)
                            (mkTree 0.5 1.0 1234 (set_root_fields root
                               (height w1 * (if Qltb (width w1) 600 then 0.22 else 0.26))
                               (if Qltb (width w1) 600 then 18 else 28))));
      eexists; exists w1; eexists
  end.
  split; [reflexivity|]. split; [repeat split|].
  split; [reflexivity|]. split; [reflexivity|].
  split; [reflexivity|]. split; [reflexivity|]. split; [reflexivity|].
  exact Hb.
Qed.

(** The layout for scene mode 2. *)
Lemma rebuildForest_double (host : Host) (w : World) :
  getSceneMode host = 2%Z ->
  exists w' b1 b2,
    rebuildForest host w = Some w' /\
    sameView w w' /\
    currentSceneMode w' = 2%Z /\
    particles w' = particles w /\
    forest w' = [mkTree 0.3 0.75 2222 b1; mkTree 0.7 0.75 3333 b2].
Proof.
  intro H. unfold rebuildForest. rewrite H. cbn [Z.eqb Pos.eqb].
  match goal with
  | |- context [buildTreeSkeleton 8 2222 ?w1] =>
      destruct (buildTreeSkeleton_total 8 2222 w1) as (r1 & s1 & Hc1 & Hb1);
      rewrite Hb1
  end.
  match goal with
  | |- context [buildTreeSkeleton 8 3333 ?w1] =>
      destruct (buildTreeSkeleton_total 8 3333 w1) as (r2 & s2 & Hc2 & Hb2);
      rewrite Hb2
  end.
  eexists _, _, _. split; [reflexivity|].
  repeat split.
Qed.

(** [rebuildForest] always returns, and keeps the canvas size, the smoothed
    signals and the particles. *)
Lemma rebuildForest_total (host : Host) (w : World) :
  exists w',
    rebuildForest host w = Some w' /\ sameView w w' /\
    currentSceneMode w' = getSceneMode host /\
    particles w' = particles w.
Proof.
  destruct (Z.eq_dec (getSceneMode host) 1) as [E1|N1].
  - destruct (rebuildForest_single host w E1)
      as (w' & r & w1 & w2 & H & Hv & Hm & Hp & _).
    exists w'. rewrite E1. auto.
  - destruct (Z.eq_dec (getSceneMode host) 2) as [E2|N2].
    + destruct (rebuildForest_double host w E2)
        as (w' & b1 & b2 & H & Hv & Hm & Hp & _).
      exists w'. rewrite E2. auto.
    + destruct (rebuildForest_many host w N1 N2)
        as (w' & H & Hv & Hm & Hp & _).
      exists w'. auto.
Qed.

(** The single-tree configuration: one centred tree at full scale with
    the full depth limit, 9. *)
Definition singleTreeConfiguration (f : list TreeInstance) : Prop :=
  exists t,
    f = [t] /\ xRatio t == 0.5 /\ scale t == 1.0 /\
    Z.of_nat (nodeCount (branch t)) = (2 ^ (9 + 1) - 1)%Z.

(** The many-tree configuration: ten trees with the depth limit 7, the
    [i]-th at [0.05 + 0.9 * i / 9]. *)
Definition manyTreeConfiguration (f : list TreeInstance) : Prop :=
  length f = 10%nat /\
  forall i t,
    nth_error f i = Some t ->
    xRatio t == 0.05 + 0.9 * inject_Z (Z.of_nat i) / 9 /\
    Z.of_nat (nodeCount (branch t)) = (2 ^ (7 + 1) - 1)%Z.

Lemma Forall2_nth_error {A B : Type} (R : A -> B -> Prop)
    (la : list A) (lb : list B) :
  Forall2 R la lb ->
  forall i b, nth_error lb i = Some b ->
    exists a, nth_error la i = Some a /\ R a b.
Proof.
  induction 1 as [|a b la lb Hab Hrest IH]; intros i y Hy.
  - destruct i; discriminate.
  - destruct i as [|i]; cbn in *.
    + injection Hy as <-. eauto.
    + eauto.
Qed.

Lemma nth_error_map_seq (i n : nat) (a : Z) :
  nth_error (List.map Z.of_nat (seq 0 n)) i = Some a ->
  a = Z.of_nat i /\ (i < n)%nat.
Proof.
  intro H. rewrite nth_error_map in H.
  rewrite nth_error_seq in H.
  destruct (Nat.ltb_spec i n) as [Hi|Hi]; [|discriminate].
  cbn in H. injection H as <-. now split.
Qed.

Lemma isForestTree_xRatio (W H : Q) (depthLimit i : Z) (t : TreeInstance) :
  isForestTree W H 10 depthLimit i t ->
  xRatio t == 0.05 + 0.9 * inject_Z i / 9.
Proof.
  intros (Hx & _). rewrite Hx.
  change (inject_Z (10 - 1)) with 9. field.
Qed.

Lemma rebuildForest_many_configuration (host : Host) (w : World) :
  getSceneMode host <> 1%Z ->
  getSceneMode host <> 2%Z ->
  exists w',
    rebuildForest host w = Some w' /\ manyTreeConfiguration (forest w').
Proof.
  intros H1 H2.
  destruct (rebuildForest_many host w H1 H2) as (w' & Hr & _ & _ & _ & Hf).
  exists w'. split; [exact Hr|]. split.
  - apply Forall2_length in Hf. rewrite <- Hf. reflexivity.
  - intros i t Ht.
    destruct (Forall2_nth_error _ _ _ Hf i t Ht) as (a & Ha & Hspec).
    apply nth_error_map_seq in Ha. destruct Ha as [-> _].
    split; [exact (isForestTree_xRatio _ _ _ _ _ Hspec)|].
    destruct Hspec as (_ & _ & _ & wa & wb & _ & _ & Hb).
    apply (buildTreeSkeleton_count 7 _ _ _ _ ltac:(lia) Hb).
Qed.

(** C1, as the code has it.  For every scene mode other than 1 and 2 (0,
    -1 and every other value below 1 among them) [rebuildForest] produces
    the many-tree configuration: ten trees with the depth limit 7, evenly
    spaced between 0.05 and 0.95. *)
Theorem rebuildForest_other_modes (host : Host) (w : World) :
  getSceneMode host <> 1%Z ->
  getSceneMode host <> 2%Z ->
  exists w',
    rebuildForest host w = Some w' /\
    currentSceneMode w' = getSceneMode host /\
    manyTreeConfiguration (forest w').
Proof.
  intros H1 H2.
  destruct (rebuildForest_many_configuration host w H1 H2) as (w' & Hr & Hm).
  destruct (rebuildForest_total host w) as (w2 & Hr2 & _ & Hs & _).
  rewrite Hr in Hr2. injection Hr2 as <-.
  exists w'. auto.
Qed.

Lemma rebuildForest_other_modes_witness :
  exists w',
    rebuildForest (mkHost (mkTreeState 0 0) peach (-1))
                  (mkWorld 800 600 0 0 0 0 [] []) = Some w' /\
    currentSceneMode w' = (-1)%Z /\
    manyTreeConfiguration (forest w').
Proof.
  apply (rebuildForest_other_modes (mkHost (mkTreeState 0 0) peach (-1))
           (mkWorld 800 600 0 0 0 0 [] [])).
  - cbn. lia.
  - cbn. lia.
Defined.

(** C1, as stated, fails for scene mode 0: the rebuild returns ten trees,
    not the single-tree configuration. *)
Lemma rebuildForest_mode0_not_single :
  exists w',
    rebuildForest (mkHost (mkTreeState 0 0) peach 0)
                  (mkWorld 800 600 0 0 0 0 [] []) = Some w' /\
    length (forest w') = 10%nat /\
    ~ singleTreeConfiguration (forest w').
Proof.
  destruct (rebuildForest_many_configuration
              (mkHost (mkTreeState 0 0) peach 0)
              (mkWorld 800 600 0 0 0 0 [] []))
    as (w' & Hr & Hlen & _); [cbn; lia | cbn; lia |].
  exists w'. split; [exact Hr|]. split; [exact Hlen|].
  intros (t & Hf & _). rewrite Hf in Hlen. discriminate.
Qed.

Lemma Forall2_nth_error_l {A B : Type} (R : A -> B -> Prop)
    (la : list A) (lb : list B) :
  Forall2 R la lb ->
  forall i a, nth_error la i = Some a ->
    exists b, nth_error lb i = Some b /\ R a b.
Proof.
  induction 1 as [|a b la lb Hab Hrest IH]; intros i x Hx.
  - destruct i; discriminate.
  - destruct i as [|i]; cbn in *.
    + injection Hx as <-. eauto.
    + eauto.
Qed.

Lemma isForestTree_scale (W H : Q) (count depthLimit i : Z)
    (t : TreeInstance) :
  isForestTree W H count depthLimit i t ->
  seed t = (5555 + i * 937)%Z /\
  scale t = fst (P5.random 0.30 0.42 (P5.randomSeed (5555 + i * 937))) /\
  0.30 <= scale t /\ scale t <= 0.42.
Proof.
  intros (_ & Hs & Hsc & _). rewrite Hs in Hsc.
  split; [exact Hs|]. split; [exact Hsc|].
  rewrite Hsc. apply random_range. lra.
Qed.

(** C6. In scene mode 3, whatever the canvas size and the state of the
    sketch before, [rebuildForest] produces exactly ten trees; the [i]-th
    stands at [0.05 + 0.9 * i / 9], within [0.05, 0.95], has the seed
    [5555 + i * 937], and its scale is the draw [random(0.30, 0.42)] made
    right after reseeding with that seed, a value within [0.30, 0.42]. *)
Theorem rebuildForest_mode3 (host : Host) (w : World) :
  getSceneMode host = 3%Z ->
  exists w',
    rebuildForest host w = Some w' /\
    length (forest w') = 10%nat /\
    forall i, (i < 10)%nat ->
      exists t,
        nth_error (forest w') i = Some t /\
        xRatio t == 0.05 + 0.9 * inject_Z (Z.of_nat i) / 9 /\
        (0.05 <= xRatio t /\ xRatio t <= 0.95) /\
        seed t = (5555 + Z.of_nat i * 937)%Z /\
        scale t
        = fst (P5.random 0.30 0.42
                 (P5.randomSeed (5555 + Z.of_nat i * 937))) /\
        (0.30 <= scale t /\ scale t <= 0.42).
Proof.
  intro Hm.
  destruct (rebuildForest_many host w) as (w' & Hr & _ & _ & _ & Hf);
    [rewrite Hm; discriminate | rewrite Hm; discriminate |].
  exists w'. split; [exact Hr|]. split.
  - apply Forall2_length in Hf. rewrite <- Hf. reflexivity.
  - intros i Hi.
    assert (Hn : nth_error (List.map Z.of_nat (seq 0 10)) i
                 = Some (Z.of_nat i)).
    { rewrite nth_error_map, nth_error_seq.
      destruct (Nat.ltb_spec i 10); [reflexivity | lia]. }
    destruct (Forall2_nth_error_l _ _ _ Hf i _ Hn) as (t & Ht & Hspec).
    exists t. split; [exact Ht|].
    pose proof (isForestTree_xRatio _ _ _ _ _ Hspec) as Hx.
    destruct (isForestTree_scale _ _ _ _ _ _ Hspec) as (Hs & Hsc & Hlo & Hhi).
    split; [exact Hx|]. split.
    + rewrite Hx.
      assert (E : 0.05 + 0.9 * inject_Z (Z.of_nat i) / 9
                  == 0.05 + 0.1 * inject_Z (Z.of_nat i)) by field.
      rewrite E.
      assert (0 <= inject_Z (Z.of_nat i) <= 9).
      { split.
        - change 0 with (inject_Z 0). rewrite <- Zle_Qle. lia.
        - change 9 with (inject_Z 9). rewrite <- Zle_Qle. lia. }
      split; lra.
    + repeat split; assumption.
Qed.

Lemma rebuildForest_mode3_witness :
  exists w',
    rebuildForest (mkHost (mkTreeState 0 0) peach 3)
                  (mkWorld 800 600 0 0 0 0 [] []) = Some w' /\
    length (forest w') = 10%nat /\
    forall i, (i < 10)%nat ->
      exists t,
        nth_error (forest w') i = Some t /\
        xRatio t == 0.05 + 0.9 * inject_Z (Z.of_nat i) / 9 /\
        (0.05 <= xRatio t /\ xRatio t <= 0.95) /\
        seed t = (5555 + Z.of_nat i * 937)%Z /\
        scale t
        = fst (P5.random 0.30 0.42
                 (P5.randomSeed (5555 + Z.of_nat i * 937))) /\
        (0.30 <= scale t /\ scale t <= 0.42).
Proof.
  apply (rebuildForest_mode3 (mkHost (mkTreeState 0 0) peach 3)
           (mkWorld 800 600 0 0 0 0 [] [])).
  reflexivity.
Defined.

(** ** Rendering *)

(** What the drawing code leaves alone: it only adds particles and
    advances the generator. *)
Definition sameScene (w w' : World) : Prop :=
  sameView w w' /\
  currentSceneMode w' = currentSceneMode w /\ forest w' = forest w.

Lemma sameScene_refl (w : World) : sameScene w w.
Proof. repeat split. Qed.

Lemma sameScene_trans (w1 w2 w3 : World) :
  sameScene w1 w2 -> sameScene w2 w3 -> sameScene w1 w3.
Proof.
  intros (A & A1 & A2) (B & B1 & B2).
  split; [exact (sameView_trans _ _ _ A B)|]. split; congruence.
Qed.

Lemma spawnFallingParticle_sameScene (x y scale : Q) (w : World) :
  sameScene w (spawnFallingParticle x y scale w).
Proof.
  unfold spawnFallingParticle.
  destruct (_ || _); [apply sameScene_refl|].
  repeat match goal with
         | |- context [let '(_, _) := ?r in _] => destruct r
         end.
  repeat split.
Qed.

(** The bloom factor of a frame: the smoothed mood clamped to [0, 1]. *)
Definition bloomFactorOf (w : World) : Q := P5.map (currentMood w) 0 1 0 1 true.

Lemma constrain_proper (n n' low high : Q) :
  n == n' -> P5.constrain n low high == P5.constrain n' low high.
Proof.
  intro E. unfold P5.constrain.
  destruct (Math_min_spec n high) as [[H1 E1]|[H1 E1]];
    destruct (Math_min_spec n' high) as [[H2 E2]|[H2 E2]];
    rewrite E1, E2;
    destruct (Math_max_spec n low) as [[H3 E3]|[H3 E3]];
    destruct (Math_max_spec n' low) as [[H4 E4]|[H4 E4]];
    destruct (Math_max_spec high low) as [[H5 E5]|[H5 E5]];
    rewrite ?E3, ?E4, ?E5; lra.
Qed.


Lemma bloomFactorOf_clamp (w : World) :
  bloomFactorOf w == P5.constrain (currentMood w) 0 1.
Proof.
  unfold bloomFactorOf, P5.map.
  change (negb true) with false. change (Qltb 0 1) with true. cbv iota.
  apply constrain_proper. field.
Qed.

Lemma bloomFactorOf_range (w : World) : 0 <= bloomFactorOf w <= 1.
Proof.
  rewrite bloomFactorOf_clamp. apply constrain_range. lra.
Qed.


Lemma attachedCount_app (a b : list Cmd) :
  attachedCount (a ++ b) = (attachedCount a + attachedCount b)%nat.
Proof. unfold attachedCount. now rewrite filter_app, length_app. Qed.

Section Rendering.

Variable noise : Q -> Q -> Q -> Q.
Variable Math_sin Math_cos : Q -> Q.
Variable millis : Q.

Local Abbreviation render := (renderBranch noise Math_sin Math_cos millis).

(** The commands of the straight segment of a branch. *)
Definition segmentOf (bloomFactor thick len : Q) : list Cmd :=
  [Stroke COL_TRUNK_DORMANT COL_TRUNK_THRIVE bloomFactor;
   StrokeWeight thick; StrokeCapRound; Line 0 0 0 (- len);
   Translate 0 (- len)].

(** A near-terminal branch: one within the last four depth levels. *)
Definition nearTerminal (mode : Z) (b : Branch) : bool :=
  (depth b >? renderMaxDepth mode - 4)%Z.

(** The foliage drawn at the tip of a branch. *)
Definition foliageOf (b : Branch) (windAngle : Q) (style : FlowerStyle)
    (scale : Q) (w : World) : list Cmd :=
  if nearTerminal (currentSceneMode w) b
     && Qgtb (bloomFactorOf w) (noiseThreshold b)
  then [DrawAttachedFoliage windAngle (hasFlower b) (bloomFactorOf w)
                            style scale]
  else [].

(** The state after the spawn request, if any, at the tip. *)
Definition afterSpawn (b : Branch) (tipX tipY scale : Q) (w : World)
    : World :=
  if nearTerminal (currentSceneMode w) b
     && (Qgtb (bloomFactorOf w) 0.3
         && Qltb (mod1 (noise (tipX * 0.1) (tipY * 0.1) (millis * 0.008)
                        * 100))
                 (if (currentSceneMode w =? 3)%Z then 0.002 else 0.02))
  then spawnFallingParticle tipX tipY scale w
  else w.

(** Where [renderBranch] stops descending. *)
Definition stops (mode : Z) (b : Branch) (len : Q) : bool :=
  (depth b >=? renderMaxDepth mode)%Z || Qltb len 4.

(** [flexibility] of a branch at [depth]. *)
Definition flexibility (maxDepth depth : Z) : Q :=
  P5.map (inject_Z depth) 0 (inject_Z maxDepth) 0.05 1.3 false.

(** The recursive call on a child under the rotation [nextAngle]. *)
Definition renderChild (len thick windAngle tipX tipY cumAngle : Q)
    (style : FlowerStyle) (scale : Q)
    (child : Branch) (nextAngle : Q) (w : World) : list Cmd * World :=
  render child (len * lenMult child) (thick * 0.7) windAngle tipX tipY
         (cumAngle + nextAngle) style scale w.

(** [renderBranch], one call unfolded. *)
Lemma renderBranch_eq (b : Branch) (len thick windAngle x y cumAngle : Q)
    (style : FlowerStyle) (scale : Q) (w : World) :
  let tipX := x + Math_sin cumAngle * len in
  let tipY := y - Math_cos cumAngle * len in
  let mode := currentSceneMode w in
  let own :=
    segmentOf (bloomFactorOf w) thick len
    ++ foliageOf b windAngle style scale w in
  let w1 := afterSpawn b tipX tipY scale w in
  render b len thick windAngle x y cumAngle style scale w
  = if stops mode b len then (own, w1)
    else
      let sub :=
        eachChild
          (renderChild len thick windAngle tipX tipY cumAngle style scale)
          (windAngle * flexibility (renderMaxDepth mode) (depth b))
          (children b) w1 in
      (own ++ fst sub, snd sub).
Proof.
  destruct b as [l t d a cs n f m].
  cbn [renderBranch depth children noiseThreshold hasFlower].
  unfold foliageOf, afterSpawn, stops, nearTerminal, bloomFactorOf,
    segmentOf, renderChild, flexibility.
  cbn [depth children noiseThreshold hasFlower app].
  destruct (d >? renderMaxDepth (currentSceneMode w) - 4)%Z;
    cbn [andb];
    destruct ((d >=? renderMaxDepth (currentSceneMode w))%Z || Qltb len 4).
  - destruct (Qgtb _ 0.3 && _); reflexivity.
  - destruct (Qgtb _ 0.3 && _);
      destruct (eachChild _ _ _ _) as [sub w2];
      destruct (Qgtb _ n); reflexivity.
  - reflexivity.
  - destruct (eachChild _ _ _ _) as [sub w2]. reflexivity.
Qed.

Lemma afterSpawn_sameScene (b : Branch) (tipX tipY scale : Q) (w : World) :
  sameScene w (afterSpawn b tipX tipY scale w).
Proof.
  unfold afterSpawn.
  destruct (_ && _);
    [apply spawnFallingParticle_sameScene | apply sameScene_refl].
Qed.

Lemma eachChild_sameScene
    (r : Branch -> Q -> World -> list Cmd * World) (localWind : Q)
    (cs : list Branch) :
  Forall (fun c => forall a w, sameScene w (snd (r c a w))) cs ->
  forall w, sameScene w (snd (eachChild r localWind cs w)).
Proof.
  induction 1 as [|c cs Hc Hcs IH]; intro w; cbn [eachChild].
  - apply sameScene_refl.
  - specialize (Hc (angleOffset c + localWind) w).
    destruct (r c (angleOffset c + localWind) w) as [drawn w'].
    specialize (IH w').
    destruct (eachChild r localWind cs w') as [rest w''].
    exact (sameScene_trans _ _ _ Hc IH).
Qed.

(** Rendering a tree changes neither the canvas size, nor the smoothed
    signals, nor the scene mode, nor the forest. *)
Lemma renderBranch_sameScene (b : Branch) :
  forall len thick windAngle x y cumAngle style scale w,
    sameScene w
      (snd (render b len thick windAngle x y cumAngle style scale w)).
Proof.
  induction b as [b IH] using Branch_ind.
  intros len thick windAngle x y cumAngle style scale w.
  rewrite renderBranch_eq. cbv zeta.
  destruct (stops _ _ _); cbn [snd].
  - apply afterSpawn_sameScene.
  - eapply sameScene_trans; [apply afterSpawn_sameScene|].
    apply eachChild_sameScene.
    eapply Forall_impl; [|exact IH].
    intros c Hc a w'. apply Hc.
Qed.



Lemma foliageOf_count (b : Branch) (windAngle : Q) (style : FlowerStyle)
    (scale : Q) (w : World) :
  attachedCount (foliageOf b windAngle style scale w)
  = if nearTerminal (currentSceneMode w) b
       && Qgtb (bloomFactorOf w) (noiseThreshold b)
    then 1%nat else 0%nat.
Proof. unfold foliageOf. now destruct (_ && _). Qed.




Lemma eachChild_head
    (r : Branch -> Q -> World -> list Cmd * World) (localWind : Q)
    (cs : list Branch) (w : World) :
  fst (eachChild r localWind cs w) = []
  \/ exists rest, fst (eachChild r localWind cs w) = Push :: rest.
Proof.
  destruct cs as [|c cs]; cbn [eachChild]; [now left|].
  destruct (r c _ w) as [drawn w'].
  destruct (eachChild r localWind cs w') as [rest w''].
  right. eexists. reflexivity.
Qed.

Lemma ownCommands_own (bloom thick len : Q) (foliage sub : list Cmd) :
  (foliage = [] \/ exists a f c s k, foliage = [DrawAttachedFoliage a f c s k]) ->
  (sub = [] \/ exists rest, sub = Push :: rest) ->
  ownCommands (segmentOf bloom thick len ++ foliage ++ sub)
  = segmentOf bloom thick len ++ foliage.
Proof.
  intros [->|(a & f & c & s & k & ->)] [->|(rest & ->)]; reflexivity.
Qed.

Lemma foliageOf_shape (b : Branch) (windAngle : Q) (style : FlowerStyle)
    (scale : Q) (w : World) :
  foliageOf b windAngle style scale w = []
  \/ exists a f c s k,
       foliageOf b windAngle style scale w = [DrawAttachedFoliage a f c s k].
Proof.
  unfold foliageOf. destruct (_ && _); [right|left; reflexivity].
  do 5 eexists. reflexivity.
Qed.

(** The commands of a branch itself are its segment and its foliage. *)
Lemma renderBranch_ownCommands (b : Branch)
    (len thick windAngle x y cumAngle : Q) (style : FlowerStyle)
    (scale : Q) (w : World) :
  ownCommands (fst (render b len thick windAngle x y cumAngle style scale w))
  = segmentOf (bloomFactorOf w) thick len
    ++ foliageOf b windAngle style scale w.
Proof.
  rewrite renderBranch_eq. cbv zeta.
  destruct (stops _ _ _); cbn [fst].
  - rewrite <- (app_nil_r (foliageOf b windAngle style scale w)) at 1.
    apply ownCommands_own; [apply foliageOf_shape | now left].
  - rewrite <- app_assoc.
    apply ownCommands_own; [apply foliageOf_shape | apply eachChild_head].
Qed.

Lemma renderBranch_isAttachedIn (b : Branch)
    (len thick windAngle x y cumAngle : Q) (style : FlowerStyle)
    (scale : Q) (w : World) :
  isAttachedIn
    (fst (render b len thick windAngle x y cumAngle style scale w))
  = nearTerminal (currentSceneMode w) b
    && Qgtb (bloomFactorOf w) (noiseThreshold b).
Proof.
  unfold isAttachedIn. rewrite renderBranch_ownCommands.
  unfold foliageOf. destruct (_ && _); reflexivity.
Qed.


(** *** Wind on the children *)

(** The block of commands for one child: the rotation, then the child. *)
Definition childBlock
    (r : Branch -> Q -> World -> list Cmd * World) (localWind : Q)
    (child : Branch) (block : list Cmd) : Prop :=
  exists w,
    block
    = [Push; Rotate (angleOffset child + localWind)]
      ++ fst (r child (angleOffset child + localWind) w) ++ [Pop].

Lemma eachChild_blocks
    (r : Branch -> Q -> World -> list Cmd * World) (localWind : Q)
    (cs : list Branch) :
  forall w,
    exists blocks,
      fst (eachChild r localWind cs w) = concat blocks /\
      Forall2 (childBlock r localWind) cs blocks.
Proof.
  induction cs as [|c cs IH]; intro w; cbn [eachChild].
  - exists []. split; [reflexivity | constructor].
  - destruct (r c (angleOffset c + localWind) w) as [drawn w'] eqn:E.
    destruct (IH w') as (blocks & Hc & Hb).
    destruct (eachChild r localWind cs w') as [rest w''].
    cbn [fst] in *.
    exists (([Push; Rotate (angleOffset c + localWind)] ++ drawn ++ [Pop])
            :: blocks).
    split.
    + cbn [concat]. rewrite Hc, <- !app_assoc. reflexivity.
    + constructor; [|exact Hb]. exists w. now rewrite E.
Qed.

Lemma renderMaxDepth_pos (mode : Z) : (0 < renderMaxDepth mode)%Z.
Proof.
  unfold renderMaxDepth.
  destruct (mode =? 3)%Z; [lia|]. destruct (mode =? 2)%Z; lia.
Qed.

(** [flexibility] is the straight line through 0.05 at depth 0 and 1.3
    at [maxDepth]. *)
Lemma flexibility_linear (maxDepth depth : Z) :
  (0 < maxDepth)%Z ->
  flexibility maxDepth depth
  == 0.05 + (1.3 - 0.05) * (inject_Z depth / inject_Z maxDepth).
Proof.
  intro H. unfold flexibility, P5.map. cbn [negb].
  field. intro E.
  assert (0 < inject_Z maxDepth)
    by (change 0 with (inject_Z 0); rewrite <- Zlt_Qlt; lia).
  lra.
Qed.

Lemma flexibility_increasing (maxDepth d1 d2 : Z) :
  (0 < maxDepth)%Z -> (d1 < d2)%Z ->
  flexibility maxDepth d1 < flexibility maxDepth d2.
Proof.
  intros Hm Hd. rewrite !flexibility_linear by exact Hm.
  assert (Hp : 0 < inject_Z maxDepth)
    by (change 0 with (inject_Z 0); rewrite <- Zlt_Qlt; lia).
  assert (Hi : 0 < / inject_Z maxDepth) by now apply Qinv_lt_0_compat.
  assert (Hx : inject_Z d1 < inject_Z d2) by now rewrite <- Zlt_Qlt.
  unfold Qdiv.
  assert (inject_Z d1 * / inject_Z maxDepth
          < inject_Z d2 * / inject_Z maxDepth)
    by (apply Qmult_lt_compat_r; assumption).
  lra.
Qed.

(** C9. When [renderBranch] descends from a branch, what it draws after
    the branch itself is one block per child, in order: the rotation by
    [child.angleOffset + windAngle * flexibility], then the child rendered
    under that rotation.  [flexibility] is the linear interpolation of the
    depth of the branch between 0.05 at depth 0 and 1.3 at [maxDepth], and
    it is strictly increasing in the depth. *)
Theorem child_rotation_follows_flexibility (b : Branch)
    (len thick windAngle x y cumAngle : Q) (style : FlowerStyle)
    (scale : Q) (w : World) :
  stops (currentSceneMode w) b len = false ->
  let maxDepth := renderMaxDepth (currentSceneMode w) in
  let tipX := x + Math_sin cumAngle * len in
  let tipY := y - Math_cos cumAngle * len in
  (exists blocks,
     fst (render b len thick windAngle x y cumAngle style scale w)
     = ownCommands
         (fst (render b len thick windAngle x y cumAngle style scale w))
       ++ concat blocks /\
     Forall2
       (childBlock
          (renderChild len thick windAngle tipX tipY cumAngle style scale)
          (windAngle * flexibility maxDepth (depth b)))
       (children b) blocks) /\
  flexibility maxDepth (depth b)
  == 0.05 + (1.3 - 0.05) * (inject_Z (depth b) / inject_Z maxDepth) /\
  flexibility maxDepth 0 == 0.05 /\
  flexibility maxDepth maxDepth == 1.3 /\
  (forall d1 d2, (d1 < d2)%Z ->
     flexibility maxDepth d1 < flexibility maxDepth d2).
Proof.
  intros Hs maxDepth tipX tipY.
  pose proof (renderMaxDepth_pos (currentSceneMode w)) as Hpos.
  fold maxDepth in Hpos.
  assert (Hq : 0 < inject_Z maxDepth)
    by (change 0 with (inject_Z 0); rewrite <- Zlt_Qlt; lia).
  split; [|split; [|split; [|split]]].
  - rewrite renderBranch_ownCommands.
    rewrite renderBranch_eq. cbv zeta. rewrite Hs. cbn [fst].
    destruct (eachChild_blocks
                (renderChild len thick windAngle tipX tipY cumAngle style
                             scale)
                (windAngle * flexibility maxDepth (depth b)) (children b)
                (afterSpawn b tipX tipY scale w)) as (blocks & Hc & Hb).
    exists blocks. split; [|exact Hb].
    fold maxDepth tipX tipY. now rewrite Hc.
  - now apply flexibility_linear.
  - rewrite flexibility_linear by exact Hpos.
    change (inject_Z 0) with 0. field. lra.
  - rewrite flexibility_linear by exact Hpos. field. lra.
  - intros d1 d2. now apply flexibility_increasing.
Qed.

End Rendering.

(** A small tree and two frames of the single-tree scene, for checking
    the statements above on concrete data: still air, a flat noise field,
    and a clock at zero. *)
Definition flatNoise (_ _ _ : Q) : Q := 0.
Definition zeroSin (_ : Q) : Q := 0.
Definition oneCos (_ : Q) : Q := 1.

Definition sampleTwig (t : Q) : Branch := mkBranch 0 0 9 0.3 [] t true 0.7.

Definition sampleTree : Branch :=
  mkBranch 100 10 8 0 [sampleTwig 0.2; sampleTwig 0.8] 0.5 true 0.7.

Definition frameAt (m : Q) : World := mkWorld 800 600 0 m 0 1 [] [].


Lemma child_rotation_follows_flexibility_witness :
  (exists blocks,
     fst (renderBranch flatNoise zeroSin oneCos 0 sampleTree
            100 10 0.1 400 600 0 peach 1 (frameAt 0.6))
     = ownCommands
         (fst (renderBranch flatNoise zeroSin oneCos 0 sampleTree
                 100 10 0.1 400 600 0 peach 1 (frameAt 0.6)))
       ++ concat blocks /\
     Forall2
       (childBlock
          (renderChild flatNoise zeroSin oneCos 0 100 10 0.1
             (400 + zeroSin 0 * 100) (600 - oneCos 0 * 100) 0 peach 1)
          (0.1 * flexibility 9 8))
       (children sampleTree) blocks) /\
  flexibility 9 8 == 0.05 + (1.3 - 0.05) * (inject_Z 8 / inject_Z 9) /\
  flexibility 9 0 == 0.05 /\
  flexibility 9 9 == 1.3 /\
  (forall d1 d2, (d1 < d2)%Z -> flexibility 9 d1 < flexibility 9 d2).
Proof.
  apply (child_rotation_follows_flexibility flatNoise zeroSin oneCos 0
           sampleTree 100 10 0.1 400 600 0 peach 1 (frameAt 0.6)).
  reflexivity.
Defined.

(** ** Spawning *)

(** C10. A spawn request at a position left of -50, right of the canvas
    width plus 50, or below the bottom of the canvas is ignored:
    [spawnFallingParticle] returns the state it was given, so no particle
    is added and no random number is drawn. *)
Theorem spawnFallingParticle_out_of_view (x y scale : Q) (w : World) :
  x < -50 \/ width w + 50 < x \/ height w < y ->
  spawnFallingParticle x y scale w = w /\
  particles (spawnFallingParticle x y scale w) = particles w.
Proof.
  intro H. unfold spawnFallingParticle.
  assert (E : Qltb x (-50) || Qgtb x (width w + 50) || Qgtb y (height w)
              = true).
  { destruct H as [H|[H|H]].
    - apply Qltb_lt in H. rewrite H. reflexivity.
    - apply Qgtb_gt in H. rewrite H. now rewrite orb_true_r.
    - apply Qgtb_gt in H. rewrite H. now rewrite orb_true_r. }
  rewrite E. split; reflexivity.
Qed.

Lemma spawnFallingParticle_out_of_view_witness :
  spawnFallingParticle 900 100 1 (frameAt 0.6) = frameAt 0.6 /\
  particles (spawnFallingParticle 900 100 1 (frameAt 0.6))
  = particles (frameAt 0.6).
Proof.
  apply (spawnFallingParticle_out_of_view 900 100 1 (frameAt 0.6)).
  right. left. cbn. lra.
Defined.

(** Within the canvas and its margins a particle is added. *)
Lemma spawnFallingParticle_in_view (x y scale : Q) (w : World) :
  -50 <= x -> x <= width w + 50 -> y <= height w ->
  exists part,
    particles (spawnFallingParticle x y scale w) = particles w ++ [part] /\
    life part = 255 /\ pos part = createVector x y.
Proof.
  intros H1 H2 H3. unfold spawnFallingParticle.
  apply Qltb_ge in H1. apply Qgtb_le in H2, H3.
  rewrite H1, H2, H3. cbn [orb].
  repeat match goal with
         | |- context [let '(_, _) := ?r in _] => destruct r
         end.
  eexists. cbn [particles set_particles]. repeat split.
Qed.

(** ** The particle system *)

(** The collection once [updateParticles] has cut it down to
    [MAX_PARTICLES]: its newest entries. *)
Definition trimmed (ps : list Particle) : list Particle :=
  if (MAX_PARTICLES <? length ps)%nat
  then skipn (length ps - MAX_PARTICLES) ps
  else ps.

Lemma trimmed_length (ps : list Particle) :
  (length (trimmed ps) <= MAX_PARTICLES)%nat.
Proof.
  unfold trimmed. destruct (Nat.ltb_spec MAX_PARTICLES (length ps)).
  - rewrite length_skipn. lia.
  - lia.
Qed.

(** The trimmed collection is the tail of the collection: what is cut is
    a prefix, the oldest entries. *)
Lemma trimmed_suffix (ps : list Particle) :
  ps = firstn (length ps - length (trimmed ps)) ps ++ trimmed ps.
Proof.
  unfold trimmed. destruct (Nat.ltb_spec MAX_PARTICLES (length ps)).
  - rewrite length_skipn.
    replace (length ps - (length ps - (length ps - MAX_PARTICLES)))%nat
      with (length ps - MAX_PARTICLES)%nat by lia.
    symmetry. apply firstn_skipn.
  - rewrite Nat.sub_diag. reflexivity.
Qed.

Lemma firstn_prefix {A : Type} (i : nat) (a b : list A) :
  length a = i -> firstn i (a ++ b) = a.
Proof.
  intros <-. rewrite firstn_app, Nat.sub_diag, firstn_all. cbn.
  apply app_nil_r.
Qed.

Lemma skipn_prefix {A : Type} (i : nat) (a b : list A) :
  length a = i -> skipn i (a ++ b) = b.
Proof.
  intros <-. rewrite skipn_app, Nat.sub_diag, skipn_all. reflexivity.
Qed.

Lemma nth_error_split_at {A : Type} (l : list A) (i : nat) (x : A) :
  nth_error l i = Some x ->
  l = firstn i l ++ x :: skipn (S i) l /\ length (firstn i l) = i.
Proof.
  intro H. split.
  - rewrite <- (firstn_skipn i l) at 1. f_equal.
    revert i H. induction l as [|y l IH]; intros [|i] H; try discriminate.
    + injection H as ->. reflexivity.
    + cbn in H. apply IH in H. exact H.
  - apply firstn_length_le. apply Nat.lt_le_incl, nth_error_Some. congruence.
Qed.

Section Particles.

Variable noise : Q -> Q -> Q -> Q.
Variable Math_sin Math_cos : Q -> Q.
Variable frameCount : Q.

Local Abbreviation adv := (advance noise Math_sin frameCount).
Local Abbreviation loop := (particleLoop noise Math_sin Math_cos frameCount).

(** A particle stays when the test of the loop fails for it. *)
Definition stays (h : Q) (part : Particle) : bool := negb (expired h part).

(** The loop advances every particle it visits and keeps, in order, those
    for which the removal test fails. *)
Lemma particleLoop_spec (windForce : Q) (style : FlowerStyle) (h : Q)
    (n : nat) :
  forall ps,
    (n <= length ps)%nat ->
    snd (loop windForce style h n ps)
    = filter (stays h) (List.map (adv windForce) (firstn n ps)) ++ skipn n ps.
Proof.
  induction n as [|i IH]; intros ps Hn.
  - reflexivity.
  - cbn [particleLoop].
    destruct (nth_error ps i) as [part|] eqn:E.
    2:{ apply nth_error_None in E. lia. }
    destruct (nth_error_split_at _ _ _ E) as [Hsplit Hlen].
    assert (Hfirst : firstn (S i) ps = firstn i ps ++ [part]).
    { rewrite Hsplit at 1.
      replace (S i) with (length (firstn i ps) + 1)%nat by lia.
      rewrite firstn_app_2. reflexivity. }
    rewrite Hfirst, List.map_app, filter_app. cbn [List.map filter].
    unfold stays at 2.
    destruct (expired h (adv windForce part)) eqn:Ex; cbn [negb].
    + rewrite IH.
      * unfold splice. rewrite Nat.add_1_r.
        rewrite (firstn_prefix i) by exact Hlen.
        rewrite (skipn_prefix i) by exact Hlen.
        now rewrite app_nil_r.
      * unfold splice. rewrite length_app. lia.
    + specialize (IH (store ps i (adv windForce part))).
      destruct (loop windForce style h i (store ps i (adv windForce part)))
        as [cmds ps'].
      cbn [snd] in *. rewrite IH.
      * unfold store.
        rewrite (firstn_prefix i) by exact Hlen.
        rewrite (skipn_prefix i) by exact Hlen.
        now rewrite <- app_assoc.
      * unfold store. rewrite length_app. lia.
Qed.

(** What [updateParticles] leaves in the collection. *)
Lemma updateParticles_particles (windForce : Q) (style : FlowerStyle)
    (w : World) :
  particles
    (snd (updateParticles noise Math_sin Math_cos frameCount windForce style w))
  = filter (stays (height w))
           (List.map (adv windForce) (trimmed (particles w))).
Proof.
  unfold updateParticles.
  assert (E : (if (MAX_PARTICLES <? length (particles w))%nat
               then splice (particles w) 0
                      (length (particles w) - MAX_PARTICLES)
               else particles w) = trimmed (particles w)).
  { unfold trimmed, splice. now destruct (_ <? _)%nat. }
  rewrite E.
  pose proof (particleLoop_spec windForce style (height w)
                (length (trimmed (particles w))) (trimmed (particles w))
                (Nat.le_refl _)) as H.
  destruct (loop windForce style (height w) _ _) as [cmds ps].
  cbn [snd particles set_particles] in *.
  now rewrite H, firstn_all, skipn_all, app_nil_r.
Qed.

Lemma updateParticles_sameScene (windForce : Q) (style : FlowerStyle)
    (w : World) :
  sameScene w
    (snd (updateParticles noise Math_sin Math_cos frameCount windForce style w))
  /\ rng (snd (updateParticles noise Math_sin Math_cos frameCount windForce
                 style w)) = rng w.
Proof.
  unfold updateParticles.
  destruct (loop windForce style (height w) _ _) as [cmds ps].
  repeat split.
Qed.

Lemma updateParticles_length (windForce : Q) (style : FlowerStyle)
    (w : World) :
  (length
     (particles
        (snd (updateParticles noise Math_sin Math_cos frameCount windForce
                style w)))
   <= MAX_PARTICLES)%nat.
Proof.
  rewrite updateParticles_particles.
  eapply Nat.le_trans; [apply filter_length_le|].
  rewrite length_map. apply trimmed_length.
Qed.

Lemma advance_life (windForce : Q) (part : Particle) :
  life (adv windForce part) = life part - 2.
Proof. reflexivity. Qed.

Lemma expired_spec (h : Q) (part : Particle) :
  expired h part = true <-> life part <= 0 \/ h + 100 < vy (pos part).
Proof.
  unfold expired. rewrite orb_true_iff, Qle_bool_iff, Qgtb_gt. reflexivity.
Qed.

Lemma stays_spec (h : Q) (part : Particle) :
  stays h part = true <-> ~ (life part <= 0 \/ h + 100 < vy (pos part)).
Proof.
  unfold stays. rewrite negb_true_iff, <- expired_spec.
  destruct (expired h part); split; intro H; congruence.
Qed.

(** C7, as the code has it.  Every particle that is in the collection once
    the tick has cut it down to the maximum has its life lowered by exactly
    2, and it leaves the collection in that tick exactly when, after the
    update, its life is at most 0 or its vertical position is beyond the
    canvas height plus 100.  What remains is those that stay, updated, in
    their order. *)
Theorem particle_lifecycle (windForce : Q) (style : FlowerStyle) (w : World)
    (part : Particle) :
  In part (trimmed (particles w)) ->
  let remaining :=
    particles
      (snd (updateParticles noise Math_sin Math_cos frameCount windForce
              style w)) in
  life (adv windForce part) == life part - 2 /\
  life (adv windForce part) < life part /\
  (In (adv windForce part) remaining
   <-> ~ (life (adv windForce part) <= 0
          \/ height w + 100 < vy (pos (adv windForce part)))) /\
  remaining
  = filter (stays (height w))
           (List.map (adv windForce) (trimmed (particles w))).
Proof.
  intros Hin remaining. subst remaining.
  rewrite updateParticles_particles, filter_In, stays_spec.
  split; [rewrite advance_life; reflexivity|].
  split; [rewrite advance_life; lra|].
  split; [|reflexivity].
  split; [intros [_ H]; exact H|].
  intro H. split; [|exact H]. now apply in_map.
Qed.

End Particles.

(** A crowd of 401 fresh particles, the [k]-th of size [k], none of which
    is about to expire. *)
Definition freshParticle (k : nat) : Particle :=
  mkParticle (createVector 100 0) (createVector 0 2) (createVector 0 0)
             COL_LEAF_TENDER (inject_Z (Z.of_nat k)) 255 leaf
             0 0 0 0.1 0 0.05 0.02.

Definition crowd : list Particle := List.map freshParticle (seq 0 401).

Definition crowded : World := mkWorld 800 600 0 0.6 0 1 crowd [].

Lemma particle_lifecycle_witness :
  let remaining :=
    particles
      (snd (updateParticles flatNoise zeroSin oneCos 0 0 peach crowded)) in
  life (advance flatNoise zeroSin 0 0 (freshParticle 400))
  == life (freshParticle 400) - 2 /\
  life (advance flatNoise zeroSin 0 0 (freshParticle 400))
  < life (freshParticle 400) /\
  (In (advance flatNoise zeroSin 0 0 (freshParticle 400)) remaining
   <-> ~ (life (advance flatNoise zeroSin 0 0 (freshParticle 400)) <= 0
          \/ height crowded + 100
             < vy (pos (advance flatNoise zeroSin 0 0 (freshParticle 400))))) /\
  remaining
  = filter (stays (height crowded))
           (List.map (advance flatNoise zeroSin 0 0)
                     (trimmed (particles crowded))).
Proof.
  apply (particle_lifecycle flatNoise zeroSin oneCos 0 0 peach crowded
           (freshParticle 400)).
  change (trimmed (particles crowded))
    with (List.map freshParticle (seq 1 400)).
  apply in_map, in_seq. lia.
Defined.

(** C7, as stated, fails for the oldest particle of the crowd: it is in
    the collection, after its update it would neither have run out of life
    nor be below the canvas, and yet it is gone after the tick. *)
Lemma particle_removed_by_cap :
  In (freshParticle 0) (particles crowded) /\
  ~ (life (advance flatNoise zeroSin 0 0 (freshParticle 0)) <= 0
     \/ height crowded + 100
        < vy (pos (advance flatNoise zeroSin 0 0 (freshParticle 0)))) /\
  ~ In (advance flatNoise zeroSin 0 0 (freshParticle 0))
       (particles
          (snd (updateParticles flatNoise zeroSin oneCos 0 0 peach crowded))).
Proof.
  split; [left; reflexivity|]. split.
  - apply stays_spec. reflexivity.
  - rewrite updateParticles_particles. intro H.
    apply filter_In in H. destruct H as [H _].
    apply in_map_iff in H. destruct H as (p & Hp & Hin).
    change (trimmed (particles crowded))
      with (List.map freshParticle (seq 1 400)) in Hin.
    apply in_map_iff in Hin. destruct Hin as (k & <- & Hk).
    apply in_seq in Hk.
    apply (f_equal size) in Hp. cbn in Hp.
    injection Hp as Hp. lia.
Qed.

(** ** One frame: [p.draw] *)

Lemma smoothMood_currentMood (raw : Q) (w : World) :
  currentMood (smoothMood raw w)
  = if Qgeb raw (currentMood w)
    then P5.lerp (currentMood w) raw 0.1
    else P5.lerp (currentMood w) raw 0.03.
Proof. unfold smoothMood. now destruct (Qgeb raw (currentMood w)). Qed.

Lemma smoothMood_sameView (raw : Q) (w : World) :
  width (smoothMood raw w) = width w /\
  height (smoothMood raw w) = height w /\
  currentWind (smoothMood raw w) = currentWind w /\
  particles (smoothMood raw w) = particles w.
Proof. unfold smoothMood. now destruct (Qgeb raw (currentMood w)). Qed.

(** [lerp] with a fraction in [0, 1] stays between its two ends. *)
Lemma lerp_between (lo hi start stop amt : Q) :
  0 <= amt -> amt <= 1 ->
  lo <= start -> start <= hi -> lo <= stop -> stop <= hi ->
  lo <= P5.lerp start stop amt /\ P5.lerp start stop amt <= hi.
Proof.
  intros. unfold P5.lerp. split; nra.
Qed.

Section Frame.

Variable noise : Q -> Q -> Q -> Q.
Variable Math_sin Math_cos : Q -> Q.
Variable Math_pow : Q -> Q -> Q.
Variable millis : Q.
Variable frameCount : Q.

Local Abbreviation frame :=
  (draw noise Math_sin Math_cos Math_pow millis frameCount).

Lemma drawForest_sameScene (trees : list TreeInstance) (angle : Q)
    (style : FlowerStyle) :
  forall w,
    sameScene w
      (snd (drawForest noise Math_sin Math_cos millis trees angle style w)).
Proof.
  induction trees as [|tree trees IH]; intro w; cbn [drawForest].
  - apply sameScene_refl.
  - pose proof (renderBranch_sameScene noise Math_sin Math_cos millis
                  (branch tree) (len (branch tree) * scale tree)
                  (thick (branch tree) * scale tree) angle
                  (width w * xRatio tree) (height w) 0 style (scale tree) w)
      as H1.
    destruct (renderBranch _ _ _ _ _ _ _ _ _ _ _ _ _ _) as [drawn w1].
    specialize (IH w1).
    destruct (drawForest _ _ _ _ _ _ _ _) as [rest w2].
    exact (sameScene_trans _ _ _ H1 IH).
Qed.

(** The forest the frame is drawn from: rebuilt when the scene mode has
    changed. *)
Definition sceneFor (host : Host) (w : World) : option World :=
  if negb (getSceneMode host =? currentSceneMode w)%Z
  then rebuildForest host w
  else Some w.

Lemma sceneFor_total (host : Host) (w : World) :
  exists w0,
    sceneFor host w = Some w0 /\ sameView w w0 /\
    currentSceneMode w0 = getSceneMode host.
Proof.
  unfold sceneFor.
  destruct (getSceneMode host =? currentSceneMode w)%Z eqn:E; cbn [negb].
  - apply Z.eqb_eq in E. exists w. repeat split. now symmetry.
  - destruct (rebuildForest_total host w) as (w0 & H & Hv & Hm & _).
    exists w0. auto.
Qed.

(** [p.draw] always returns.  Afterwards the smoothed mood and wind are
    those of the two smoothing steps, the scene mode is the one the host
    reports, and at most [MAX_PARTICLES] particles are left. *)
Lemma draw_spec (host : Host) (w : World) :
  exists cmds w',
    frame host w = Some (cmds, w') /\
    currentMood w' = currentMood (smoothMood (mood (getTreeState host)) w) /\
    currentWind w'
    = P5.lerp (currentWind w) (windForce (getTreeState host)) 0.12 /\
    width w' = width w /\ height w' = height w /\
    currentSceneMode w' = getSceneMode host /\
    (length (particles w') <= MAX_PARTICLES)%nat.
Proof.
  destruct (sceneFor_total host w) as (w0 & H0 & (V1 & V2 & V3 & V4) & M0).
  unfold draw. unfold sceneFor in H0. rewrite H0.
  set (w2 := smoothWind (windForce (getTreeState host))
               (smoothMood (mood (getTreeState host)) w0)).
  set (angle := _ + _).
  pose proof (drawForest_sameScene (forest w2) angle (getFlowerStyle host) w2)
    as H3.
  destruct (drawForest _ _ _ _ _ _ _ _) as [trees w3].
  pose proof (updateParticles_sameScene noise Math_sin Math_cos frameCount
                (currentWind w3) (getFlowerStyle host) w3) as [H4 _].
  pose proof (updateParticles_length noise Math_sin Math_cos frameCount
                (currentWind w3) (getFlowerStyle host) w3) as H5.
  destruct (updateParticles _ _ _ _ _ _ _) as [parts w4].
  cbn [snd] in *.
  exists (([Clear; Push; NoStroke]
            ++ (if Qgtb (currentMood w2) 0
                then [Fill 255 230 200 (currentMood w2 * 20)]
                else [Fill 5 5 15 (Qabs (currentMood w2) * 180)])
            ++ [Rect 0 0 (width w2) (height w2); Pop])
           ++ trees ++ parts), w4.
  split; [reflexivity|].
  destruct (sameScene_trans _ _ _ H3 H4) as ((S1 & S2 & S3 & S4) & S5 & _).
  destruct (smoothMood_sameView (mood (getTreeState host)) w0)
    as (A1 & A2 & A3 & _).
  assert (Em : currentMood w2
               = currentMood (smoothMood (mood (getTreeState host)) w)).
  { subst w2. cbn [smoothWind currentMood set_currentWind].
    rewrite !smoothMood_currentMood, V3. reflexivity. }
  assert (Ew : currentWind w2
               = P5.lerp (currentWind w) (windForce (getTreeState host)) 0.12).
  { subst w2. cbn [smoothWind currentWind set_currentWind].
    rewrite A3, V4. reflexivity. }
  repeat split.
  - now rewrite S3.
  - now rewrite S4.
  - rewrite S1. subst w2. cbn [smoothWind width set_currentWind]. congruence.
  - rewrite S2. subst w2. cbn [smoothWind height set_currentWind]. congruence.
  - rewrite S5. subst w2. cbn [smoothWind currentSceneMode set_currentWind].
    unfold smoothMood. now destruct (Qgeb _ _).
  - exact H5.
Qed.

(** C8. After a tick at most [MAX_PARTICLES] = 400 particles are left,
    both after [updateParticles] itself and after the whole of [p.draw],
    which ends with it.  When there are more at the start of
    [updateParticles], the collection is first cut down to its 400 newest
    entries (what is cut is the prefix holding the oldest), and only these
    are then updated. *)
Theorem particle_cap (host : Host) (windForce : Q) (style : FlowerStyle)
    (w : World) :
  let remaining :=
    particles
      (snd (updateParticles noise Math_sin Math_cos frameCount windForce
              style w)) in
  (length remaining <= MAX_PARTICLES)%nat /\
  MAX_PARTICLES = 400%nat /\
  length (trimmed (particles w)) = Nat.min (length (particles w)) 400 /\
  particles w
  = firstn (length (particles w) - length (trimmed (particles w)))
           (particles w)
    ++ trimmed (particles w) /\
  remaining
  = filter (stays (height w))
           (List.map (advance noise Math_sin frameCount windForce)
                     (trimmed (particles w))) /\
  exists cmds w',
    frame host w = Some (cmds, w') /\
    (length (particles w') <= MAX_PARTICLES)%nat.
Proof.
  intro remaining. subst remaining.
  split; [apply updateParticles_length|].
  rewrite updateParticles_particles.
  split; [reflexivity|split; [|split; [|split; [reflexivity|]]]].
  - unfold trimmed, MAX_PARTICLES.
    destruct (Nat.ltb_spec 400 (length (particles w)));
      [rewrite length_skipn|]; lia.
  - apply trimmed_suffix.
  - destruct (draw_spec host w) as (cmds & w' & Hf & _ & _ & _ & _ & _ & Hp).
    exists cmds, w'. split; assumption.
Qed.

(** C5. In one frame the smoothed mood moves from its value towards the
    raw mood by the fraction 0.1 when the raw mood is at least the smoothed
    one and by 0.03 otherwise, and the smoothed wind moves towards the raw
    wind by 0.12 in either direction.  Hence from a smoothed mood of 0 one
    frame towards 1 moves it further (by 0.1) than one frame towards -1
    does (by 0.03). *)
Theorem smoothing_is_asymmetric (host up down : Host) (w w0 : World) :
  currentMood w0 = 0 ->
  mood (getTreeState up) = 1 ->
  mood (getTreeState down) = -1 ->
  (exists cmds w',
     frame host w = Some (cmds, w') /\
     (currentMood w <= mood (getTreeState host) ->
      currentMood w'
      = P5.lerp (currentMood w) (mood (getTreeState host)) 0.1) /\
     (mood (getTreeState host) < currentMood w ->
      currentMood w'
      = P5.lerp (currentMood w) (mood (getTreeState host)) 0.03) /\
     currentWind w'
     = P5.lerp (currentWind w) (windForce (getTreeState host)) 0.12) /\
  (exists cu wu cd wd,
     frame up w0 = Some (cu, wu) /\
     frame down w0 = Some (cd, wd) /\
     currentMood wu - currentMood w0 == 0.1 /\
     currentMood wd - currentMood w0 == -0.03 /\
     Qabs (currentMood wd - currentMood w0)
     < Qabs (currentMood wu - currentMood w0)).
Proof.
  intros H0 Hu Hd. split.
  - destruct (draw_spec host w) as (cmds & w' & Hf & Hm & Hw & _).
    exists cmds, w'. split; [exact Hf|].
    rewrite smoothMood_currentMood in Hm.
    split; [|split; [|exact Hw]]; intro Hc.
    + apply Qle_bool_iff in Hc. unfold Qgeb in Hm. now rewrite Hc in Hm.
    + apply Qle_bool_gt in Hc. unfold Qgeb in Hm. now rewrite Hc in Hm.
  - destruct (draw_spec up w0) as (cu & wu & Hfu & Hmu & _).
    destruct (draw_spec down w0) as (cd & wd & Hfd & Hmd & _).
    exists cu, wu, cd, wd.
    rewrite smoothMood_currentMood, H0, Hu in Hmu.
    rewrite smoothMood_currentMood, H0, Hd in Hmd.
    cbn in Hmu, Hmd.
    split; [exact Hfu|]. split; [exact Hfd|].
    rewrite Hmu, Hmd, H0. unfold P5.lerp.
    split; [reflexivity|]. split; [reflexivity|]. reflexivity.
Qed.

(** C2, as the code has it, for finite values: the raw mood and wind and
    the smoothed values before the frame are rationals here, so the
    statement says nothing of NaN or of the infinities.  On such values a
    frame does not fail, and it uses the raw mood and wind as they are
    read, without clamping them: the smoothed values stay within any
    interval that holds both the raw and the smoothed value before the
    frame (so within [-1, 1] when the raw mood is), and the bloom factor
    used for rendering is within [0, 1]. *)
Theorem smoothed_signals_follow_raw (host : Host) (w : World) (lo hi : Q) :
  lo <= mood (getTreeState host) <= hi ->
  lo <= currentMood w <= hi ->
  exists cmds w',
    frame host w = Some (cmds, w') /\
    currentMood w'
    = P5.lerp (currentMood w) (mood (getTreeState host))
        (if Qgeb (mood (getTreeState host)) (currentMood w)
         then 0.1 else 0.03) /\
    currentWind w'
    = P5.lerp (currentWind w) (windForce (getTreeState host)) 0.12 /\
    lo <= currentMood w' <= hi /\
    0 <= bloomFactorOf w' <= 1 /\
    (forall l h,
       l <= windForce (getTreeState host) <= h ->
       l <= currentWind w <= h ->
       l <= currentWind w' <= h).
Proof.
  intros [Hr1 Hr2] [Hc1 Hc2].
  destruct (draw_spec host w) as (cmds & w' & Hf & Hm & Hw & _).
  exists cmds, w'. split; [exact Hf|].
  split; [rewrite Hm, smoothMood_currentMood; now destruct (Qgeb _ _)|].
  split; [exact Hw|].
  split; [|split; [apply bloomFactorOf_range|]].
  - rewrite Hm, smoothMood_currentMood.
    destruct (Qgeb _ _); apply lerp_between; (assumption || lra).
  - intros l h [Hl1 Hl2] [Hl3 Hl4]. rewrite Hw.
    apply lerp_between; (assumption || lra).
Qed.

End Frame.

(** The variables of the sketch as the closure initialises them, on a
    canvas of 800 by 600. *)
Definition initialWorld : World := mkWorld 800 600 0 0 0 0 [] [].

Lemma smoothing_is_asymmetric_witness :
  (exists cmds w',
     draw flatNoise zeroSin oneCos (fun x _ => x) 0 0
          (mkHost (mkTreeState 0.5 0.2) peach 1) initialWorld
     = Some (cmds, w') /\
     (currentMood initialWorld <= 0.5 ->
      currentMood w' = P5.lerp (currentMood initialWorld) 0.5 0.1) /\
     (0.5 < currentMood initialWorld ->
      currentMood w' = P5.lerp (currentMood initialWorld) 0.5 0.03) /\
     currentWind w' = P5.lerp (currentWind initialWorld) 0.2 0.12) /\
  (exists cu wu cd wd,
     draw flatNoise zeroSin oneCos (fun x _ => x) 0 0
          (mkHost (mkTreeState 1 0) peach 1) initialWorld = Some (cu, wu) /\
     draw flatNoise zeroSin oneCos (fun x _ => x) 0 0
          (mkHost (mkTreeState (-1) 0) peach 1) initialWorld = Some (cd, wd) /\
     currentMood wu - currentMood initialWorld == 0.1 /\
     currentMood wd - currentMood initialWorld == -0.03 /\
     Qabs (currentMood wd - currentMood initialWorld)
     < Qabs (currentMood wu - currentMood initialWorld)).
Proof.
  apply (smoothing_is_asymmetric flatNoise zeroSin oneCos (fun x _ => x) 0 0
           (mkHost (mkTreeState 0.5 0.2) peach 1)
           (mkHost (mkTreeState 1 0) peach 1)
           (mkHost (mkTreeState (-1) 0) peach 1)
           initialWorld initialWorld).
  - reflexivity.
  - reflexivity.
  - reflexivity.
Defined.

Lemma smoothed_signals_follow_raw_witness :
  exists cmds w',
    draw flatNoise zeroSin oneCos (fun x _ => x) 0 0
         (mkHost (mkTreeState 0.5 0.2) peach 1) initialWorld
    = Some (cmds, w') /\
    currentMood w'
    = P5.lerp (currentMood initialWorld) 0.5
        (if Qgeb 0.5 (currentMood initialWorld) then 0.1 else 0.03) /\
    currentWind w' = P5.lerp (currentWind initialWorld) 0.2 0.12 /\
    -1 <= currentMood w' <= 1 /\
    0 <= bloomFactorOf w' <= 1 /\
    (forall l h,
       l <= 0.2 <= h ->
       l <= currentWind initialWorld <= h ->
       l <= currentWind w' <= h).
Proof.
  apply (smoothed_signals_follow_raw flatNoise zeroSin oneCos (fun x _ => x)
           0 0 (mkHost (mkTreeState 0.5 0.2) peach 1) initialWorld (-1) 1).
  - cbn. lra.
  - cbn. lra.
Defined.

(** C2, as stated, fails for a raw mood of 20: nothing clamps it, and
    after one frame from the initial state the smoothed mood is 2. *)
Lemma smoothed_mood_leaves_range :
  exists cmds w',
    draw flatNoise zeroSin oneCos (fun x _ => x) 0 0
         (mkHost (mkTreeState 20 0) peach 1) initialWorld
    = Some (cmds, w') /\
    currentMood w' == 2 /\
    ~ (-1 <= currentMood w' <= 1).
Proof.
  destruct (draw_spec flatNoise zeroSin oneCos (fun x _ => x) 0 0
              (mkHost (mkTreeState 20 0) peach 1) initialWorld)
    as (cmds & w' & Hf & Hm & _).
  exists cmds, w'. split; [exact Hf|].
  rewrite Hm. cbn. split; [reflexivity|].
  intros [_ H]. revert H. apply Qlt_not_le. reflexivity.
Qed.

(** ** Checks on concrete data *)

Example crowd_is_cut :
  length
    (particles
       (snd (updateParticles flatNoise zeroSin oneCos 0 0 peach crowded)))
  = 400%nat.
Proof. vm_compute. reflexivity. Qed.

Example skeleton_of_depth_3 :
  option_map (fun r => nodeCount (fst r))
             (buildTreeSkeleton 3 1234 initialWorld)
  = Some 15%nat.
Proof. vm_compute. reflexivity. Qed.

Example forest_for_mode_0 :
  option_map (fun w => List.map seed (forest w))
             (rebuildForest (mkHost (mkTreeState 0 0) peach 0) initialWorld)
  = Some [5555; 6492; 7429; 8366; 9303; 10240; 11177; 12114; 13051; 13988]%Z.
Proof. vm_compute. reflexivity. Qed.

Example sample_tree_attached :
  attachedCount
    (fst (renderBranch flatNoise zeroSin oneCos 0 sampleTree
            100 10 0.1 400 600 0 peach 1 (frameAt 0.1))) = 0%nat /\
  attachedCount
    (fst (renderBranch flatNoise zeroSin oneCos 0 sampleTree
            100 10 0.1 400 600 0 peach 1 (frameAt 0.6))) = 2%nat /\
  attachedCount
    (fst (renderBranch flatNoise zeroSin oneCos 0 sampleTree
            100 10 0.1 400 600 0 peach 1 (frameAt 1))) = 3%nat.
Proof. vm_compute. repeat split. Qed.

(** * Further properties of the sketch and of its host *)

(** ** The nodes of a skeleton *)

(** All the nodes of a tree, the root first. *)
Fixpoint nodes (b : Branch) : list Branch :=
  b :: (fix each (l : list Branch) : list Branch :=
          match l with
          | [] => []
          | c :: l' => nodes c ++ each l'
          end) (children b).

Lemma nodes_eq (b : Branch) : nodes b = b :: flat_map nodes (children b).
Proof.
  destruct b as [l t d a cs n f m]. reflexivity.
Qed.

Lemma nodes_self (b : Branch) : In b (nodes b).
Proof. rewrite nodes_eq. now left. Qed.

Lemma nodes_child (b c : Branch) :
  In c (children b) -> incl (nodes c) (nodes b).
Proof.
  intros Hc x Hx. rewrite nodes_eq. right.
  apply in_flat_map. exists c. now split.
Qed.

(** What [createBranch] guarantees of every node it makes, the children
    of the node included. *)
Definition nodeInvariant (maxDepth : Z) (b : Branch) : Prop :=
  (0.05 <= noiseThreshold b /\ noiseThreshold b < 0.95) /\
  (0.64 <= lenMult b /\ lenMult b <= 0.80) /\
  ((depth b < maxDepth)%Z ->
   exists l r,
     children b = [l; r] /\
     depth l = (depth b + 1)%Z /\ depth r = (depth b + 1)%Z /\
     (- (PI / 5.0) - 0.15 <= angleOffset l /\
      angleOffset l <= - (PI / 5.0) + 0.15) /\
     (PI / 5.0 - 0.15 <= angleOffset r /\
      angleOffset r <= PI / 5.0 + 0.15) /\
     len l = 0 /\ thick l = 0 /\ len r = 0 /\ thick r = 0) /\
  ((maxDepth <= depth b)%Z -> children b = []).

Lemma nodeInvariant_set_child_fields (maxDepth : Z) (c : Branch) (a : Q) :
  nodeInvariant maxDepth c -> nodeInvariant maxDepth (set_child_fields c a).
Proof. intro H. exact H. Qed.

Lemma nodeInvariant_set_root_fields (maxDepth : Z) (c : Branch) (l t : Q) :
  nodeInvariant maxDepth c -> nodeInvariant maxDepth (set_root_fields c l t).
Proof. intro H. exact H. Qed.

Lemma Forall_nodes_set_child_fields (P : Branch -> Prop) (c : Branch) (a : Q) :
  (P c -> P (set_child_fields c a)) ->
  Forall P (nodes c) -> Forall P (nodes (set_child_fields c a)).
Proof.
  intros HP H. rewrite nodes_eq in *. cbn [children set_child_fields].
  inversion H; subst. constructor; auto.
Qed.

Lemma Forall_nodes_set_root_fields (P : Branch -> Prop) (c : Branch)
    (l t : Q) :
  (P c -> P (set_root_fields c l t)) ->
  Forall P (nodes c) -> Forall P (nodes (set_root_fields c l t)).
Proof.
  intros HP H. rewrite nodes_eq in *. cbn [children set_root_fields].
  inversion H; subst. constructor; auto.
Qed.

Lemma random_range_strict (lo hi : Q) (st : Z) :
  lo < hi -> fst (P5.random lo hi st) < hi.
Proof.
  intro H. unfold P5.random.
  pose proof (lcg_range st) as Hr.
  destruct (P5.lcg st) as [rand st']. cbn [fst] in Hr.
  destruct (Qgtb lo hi) eqn:E.
  - apply Qgtb_gt in E. lra.
  - cbn [fst]. nra.
Qed.

Lemma map_first_child (baseAngle : Q) :
  P5.map (inject_Z 0) 0 (inject_Z 1) (- baseAngle) baseAngle false
  == - baseAngle.
Proof. unfold P5.map. cbn [negb]. change (inject_Z 0) with 0.
  change (inject_Z 1) with 1. field. Qed.

Lemma map_second_child (baseAngle : Q) :
  P5.map (inject_Z 1) 0 (inject_Z 1) (- baseAngle) baseAngle false
  == baseAngle.
Proof. unfold P5.map. cbn [negb]. change (inject_Z 1) with 1. field. Qed.

(** Every node [createBranch] makes satisfies the invariant; the node it
    returns is at the depth asked for, with no length or thickness yet. *)
Lemma createBranch_nodes (fuel : nat) :
  forall maxDepth d st b st',
    createBranch fuel maxDepth d st = Some (b, st') ->
    depth b = d /\ len b = 0 /\ thick b = 0 /\ angleOffset b = 0 /\
    Forall (nodeInvariant maxDepth) (nodes b) /\
    Forall (fun n => (d <= depth n)%Z /\ (depth n <= Z.max d maxDepth)%Z)
           (nodes b) /\
    Forall (fun n => len n = 0 /\ thick n = 0) (nodes b).
Proof.
  induction fuel as [|fuel IH]; intros maxDepth d st b st' H;
    [discriminate|].
  cbn [createBranch] in H.
  pose proof (random_range 0.05 0.95 st ltac:(lra)) as [Hn1 _].
  pose proof (random_range_strict 0.05 0.95 st ltac:(lra)) as Hn2.
  destruct (P5.random 0.05 0.95 st) as [nt st1]. cbn [fst] in Hn1, Hn2.
  destruct (P5.random1 1 st1) as [hf st2].
  pose proof (random_range (-0.08) 0.08 st2 ltac:(lra)) as [Hl1 Hl2].
  destruct (P5.random (-0.08) 0.08 st2) as [lm st3]. cbn [fst] in Hl1, Hl2.
  destruct (d <? maxDepth)%Z eqn:E.
  - apply Z.ltb_lt in E.
    change (Z.to_nat 2) with 2%nat in H. cbn [childLoop] in H.
    destruct (createBranch fuel maxDepth (d + 1) st3) as [[c0 s0]|] eqn:E0;
      [|discriminate].
    pose proof (random_range (-0.15) 0.15 s0 ltac:(lra)) as [Hj1 Hj2].
    destruct (P5.random (-0.15) 0.15 s0) as [j0 s1]. cbn [fst] in Hj1, Hj2.
    destruct (createBranch fuel maxDepth (d + 1) s1) as [[c1 s2]|] eqn:E1;
      [|discriminate].
    pose proof (random_range (-0.15) 0.15 s2 ltac:(lra)) as [Hk1 Hk2].
    destruct (P5.random (-0.15) 0.15 s2) as [j1 s3]. cbn [fst] in Hk1, Hk2.
    injection H as <- <-.
    destruct (IH _ _ _ _ _ E0) as (D0 & L0 & T0 & A0 & I0 & R0 & Z0).
    destruct (IH _ _ _ _ _ E1) as (D1 & L1 & T1 & A1 & I1 & R1 & Z1).
    cbn [app set_children depth len thick angleOffset].
    repeat split.
    + rewrite nodes_eq.
      cbn [children set_children flat_map noiseThreshold lenMult depth].
      constructor.
      * unfold nodeInvariant.
        cbn [noiseThreshold lenMult depth children set_children].
        split; [split; assumption|]. split; [split; lra|]. split.
        -- intros _. eexists _, _. split; [reflexivity|].
           cbn [depth set_child_fields angleOffset len thick].
           set (baseAngle := PI / 5.0).
           rewrite map_first_child, map_second_child.
           repeat split; try assumption; lra.
        -- intro Hc. exfalso. lia.
      * rewrite app_nil_r. apply Forall_app. split;
          apply Forall_nodes_set_child_fields; auto.
    + rewrite nodes_eq. cbn [children set_children flat_map]. constructor.
      * cbn [depth set_children]. lia.
      * rewrite app_nil_r. apply Forall_app.
        split; (apply Forall_nodes_set_child_fields; [auto|]);
          [eapply Forall_impl; [|exact R0] | eapply Forall_impl; [|exact R1]];
          cbn beta; intros n Hn; lia.
    + rewrite nodes_eq. cbn [children set_children flat_map]. constructor.
      * split; reflexivity.
      * rewrite app_nil_r. apply Forall_app. split;
          (apply Forall_nodes_set_child_fields; [|assumption]);
          cbn [set_child_fields len thick]; intros [Hl _]; now split.
  - apply Z.ltb_ge in E. injection H as <- <-.
    cbn [depth len thick angleOffset]. repeat split.
    + rewrite nodes_eq. cbn [children flat_map]. constructor; [|constructor].
      unfold nodeInvariant. cbn [noiseThreshold lenMult depth children].
      split; [split; assumption|]. split; [split; lra|]. split.
      * intro Hc. exfalso. lia.
      * reflexivity.
    + rewrite nodes_eq. cbn [children flat_map]. constructor; [|constructor].
      cbn [depth]. lia.
    + rewrite nodes_eq. cbn [children flat_map]. constructor; [|constructor].
      split; reflexivity.
Qed.

(** The invariants of the tree [buildTreeSkeleton] returns. *)
Lemma buildTreeSkeleton_nodes (maxDepth seed : Z) (w : World) :
  exists root w',
    buildTreeSkeleton maxDepth seed w = Some (root, w') /\
    depth root = 0%Z /\ angleOffset root = 0 /\
    Forall (nodeInvariant maxDepth) (nodes root) /\
    Forall (fun n => (0 <= depth n)%Z /\ (depth n <= Z.max 0 maxDepth)%Z)
           (nodes root) /\
    Forall (fun n => len n = 0 /\ thick n = 0)
           (flat_map nodes (children root)).
Proof.
  destruct (buildTreeSkeleton_total maxDepth seed w) as (r & st & C & B).
  destruct (createBranch_nodes _ _ _ _ _ _ C) as (D & _ & _ & A & I & R & Z0).
  eexists _, _. split; [exact B|].
  split; [exact D|]. split; [exact A|].
  split; [|split].
  - apply Forall_nodes_set_root_fields; [|exact I].
    apply nodeInvariant_set_root_fields.
  - apply Forall_nodes_set_root_fields; [|exact R]. auto.
  - cbn [children set_root_fields]. rewrite nodes_eq in Z0.
    now inversion Z0.
Qed.

(** X1. The tree [buildTreeSkeleton] returns for a depth limit
    [maxDepth >= 0] is a full binary tree: its root is at depth 0, every
    node is at a depth between 0 and [maxDepth], a node above [maxDepth]
    has exactly two children, both one level deeper, and a node at
    [maxDepth] has none. *)
Theorem skeleton_is_full_binary_tree (maxDepth seed : Z) (w : World) :
  (0 <= maxDepth)%Z ->
  exists root w',
    buildTreeSkeleton maxDepth seed w = Some (root, w') /\
    depth root = 0%Z /\
    Forall (fun b =>
              (0 <= depth b <= maxDepth)%Z /\
              ((depth b < maxDepth)%Z ->
               exists l r,
                 children b = [l; r] /\
                 depth l = (depth b + 1)%Z /\ depth r = (depth b + 1)%Z) /\
              (depth b = maxDepth -> children b = []))
           (nodes root).
Proof.
  intro Hd.
  destruct (buildTreeSkeleton_nodes maxDepth seed w)
    as (root & w' & B & D & _ & I & R & _).
  exists root, w'. split; [exact B|]. split; [exact D|].
  rewrite Forall_forall in *. intros b Hb.
  specialize (I b Hb). specialize (R b Hb).
  destruct I as (_ & _ & Hnode & Hleaf).
  split; [lia|]. split.
  - intro Hlt. destruct (Hnode Hlt) as (l & r & Hc & Dl & Dr & _).
    exists l, r. auto.
  - intro He. apply Hleaf. lia.
Qed.

Lemma skeleton_is_full_binary_tree_witness :
  exists root w',
    buildTreeSkeleton 2 1234 initialWorld = Some (root, w') /\
    depth root = 0%Z /\
    Forall (fun b =>
              (0 <= depth b <= 2)%Z /\
              ((depth b < 2)%Z ->
               exists l r,
                 children b = [l; r] /\
                 depth l = (depth b + 1)%Z /\ depth r = (depth b + 1)%Z) /\
              (depth b = 2%Z -> children b = []))
           (nodes root).
Proof.
  apply (skeleton_is_full_binary_tree 2 1234 initialWorld). lia.
Defined.

(** X2. In the tree [buildTreeSkeleton] returns, every node has a noise
    threshold in [0.05, 0.95) and a length multiplier in [0.64, 0.80], and
    every node but the root has length 0 and thickness 0: only the trunk
    carries a length, the others get theirs from the multipliers when the
    tree is drawn. *)
Theorem skeleton_field_ranges (maxDepth seed : Z) (w : World) :
  exists root w',
    buildTreeSkeleton maxDepth seed w = Some (root, w') /\
    Forall (fun b =>
              0.05 <= noiseThreshold b /\ noiseThreshold b < 0.95 /\
              0.64 <= lenMult b /\ lenMult b <= 0.80)
           (nodes root) /\
    Forall (fun b => len b = 0 /\ thick b = 0)
           (flat_map nodes (children root)).
Proof.
  destruct (buildTreeSkeleton_nodes maxDepth seed w)
    as (root & w' & B & _ & _ & I & _ & Z0).
  exists root, w'. split; [exact B|]. split; [|exact Z0].
  eapply Forall_impl; [|exact I].
  intros b ((H1 & H2) & (H3 & H4) & _). auto.
Qed.

Lemma baseAngle_above_jitter : 0.15 < PI / 5.0.
Proof. reflexivity. Qed.

(** X3. In the tree [buildTreeSkeleton] returns, the two children of a
    node lean apart: the first is turned by an angle within 0.15 of
    [-PI/5], the second within 0.15 of [PI/5], so the first always leans
    left (negative angle) and the second right. *)
Theorem skeleton_children_lean_apart (maxDepth seed : Z) (w : World) :
  exists root w',
    buildTreeSkeleton maxDepth seed w = Some (root, w') /\
    angleOffset root = 0 /\
    Forall (fun b =>
              forall l r,
                children b = [l; r] ->
                (- (PI / 5.0) - 0.15 <= angleOffset l /\
                 angleOffset l <= - (PI / 5.0) + 0.15) /\
                (PI / 5.0 - 0.15 <= angleOffset r /\
                 angleOffset r <= PI / 5.0 + 0.15) /\
                angleOffset l < 0 /\ 0 < angleOffset r)
           (nodes root).
Proof.
  destruct (buildTreeSkeleton_nodes maxDepth seed w)
    as (root & w' & B & _ & A & I & _ & _).
  exists root, w'. split; [exact B|]. split; [exact A|].
  eapply Forall_impl; [|exact I].
  intros b (_ & _ & Hnode & Hleaf) l r Hc.
  destruct (Z_lt_le_dec (depth b) maxDepth) as [Hlt|Hge].
  - destruct (Hnode Hlt) as (l0 & r0 & Hc0 & _ & _ & Hl & Hr & _).
    rewrite Hc in Hc0. injection Hc0 as <- <-.
    pose proof baseAngle_above_jitter as Hb.
    set (baseAngle := PI / 5.0) in *.
    repeat split; lra.
  - rewrite (Hleaf Hge) in Hc. discriminate.
Qed.

(** X4. With a depth limit of 0 or less [buildTreeSkeleton] returns a
    lone trunk: one node, no children. *)
Theorem skeleton_without_levels (maxDepth seed : Z) (w : World) :
  (maxDepth <= 0)%Z ->
  exists root w',
    buildTreeSkeleton maxDepth seed w = Some (root, w') /\
    children root = [] /\ nodeCount root = 1%nat.
Proof.
  intro Hd.
  destruct (buildTreeSkeleton_nodes maxDepth seed w)
    as (root & w' & B & D & _ & I & _ & _).
  exists root, w'. split; [exact B|].
  rewrite nodes_eq in I. inversion I as [|? ? (_ & _ & _ & Hleaf) _]; subst.
  assert (Hc : children root = []) by (apply Hleaf; lia).
  split; [exact Hc|]. rewrite nodeCount_eq, Hc. reflexivity.
Qed.

Lemma skeleton_without_levels_witness :
  exists root w',
    buildTreeSkeleton (-3) 1234 initialWorld = Some (root, w') /\
    children root = [] /\ nodeCount root = 1%nat.
Proof.
  apply (skeleton_without_levels (-3) 1234 initialWorld). lia.
Defined.

(** ** The forest [rebuildForest] lays out *)

(** [b] is the skeleton [buildTreeSkeleton(maxDepth, seed)] returns on a
    canvas of size [W] x [H]. *)
Definition builtFor (W H : Q) (maxDepth seed : Z) (b : Branch) : Prop :=
  exists w w',
    width w = W /\ height w = H /\
    buildTreeSkeleton maxDepth seed w = Some (b, w').

(** The depth limit [rebuildForest] uses for a scene mode. *)
Definition depthLimitFor (mode : Z) : Z :=
  if (mode =? 1)%Z then 9%Z else if (mode =? 2)%Z then 8%Z else 7%Z.

(** Placement, scale and seed of the trees, by scene mode. *)
Definition layoutFor (mode : Z) : list (Q * Q * Z) :=
  if (mode =? 1)%Z then [(0.5, 1.0, 1234%Z)]
  else if (mode =? 2)%Z then [(0.3, 0.75, 2222%Z); (0.7, 0.75, 3333%Z)]
  else
    List.map
      (fun i : Z =>
         (0.05 + inject_Z i / inject_Z (10 - 1) * 0.9,
          fst (P5.random 0.30 0.42 (P5.randomSeed (5555 + i * 937))),
          (5555 + i * 937)%Z))
      (List.map Z.of_nat (seq 0 10)).

Definition placement (t : TreeInstance) : Q * Q * Z :=
  (xRatio t, scale t, seed t).




Lemma builtFor_unique (W H : Q) (maxDepth seed : Z) (b1 b2 : Branch) :
  builtFor W H maxDepth seed b1 -> builtFor W H maxDepth seed b2 -> b1 = b2.
Proof.
  intros (w1 & w1' & W1 & H1 & B1) (w2 & w2' & W2 & H2 & B2).
  destruct (buildTreeSkeleton_total maxDepth seed w1) as (r1 & s1 & C1 & E1).
  destruct (buildTreeSkeleton_total maxDepth seed w2) as (r2 & s2 & C2 & E2).
  rewrite C1 in C2. injection C2 as <- <-.
  rewrite E1 in B1. rewrite E2 in B2.
  injection B1 as <- _. injection B2 as <- _.
  now rewrite W1, W2, H1, H2.
Qed.


Lemma builtFor_count (W H : Q) (maxDepth seed : Z) (b : Branch) :
  (0 <= maxDepth)%Z ->
  builtFor W H maxDepth seed b ->
  Z.of_nat (nodeCount b) = (2 ^ (maxDepth + 1) - 1)%Z.
Proof.
  intros Hd (w & w' & _ & _ & B).
  exact (buildTreeSkeleton_count _ _ _ _ _ Hd B).
Qed.

(** What [rebuildForest] produces, for every scene mode. *)
Lemma rebuildForest_layout (host : Host) (w : World) :
  exists w',
    rebuildForest host w = Some w' /\
    sameView w w' /\
    particles w' = particles w /\
    currentSceneMode w' = getSceneMode host /\
    List.map placement (forest w') = layoutFor (getSceneMode host) /\
    Forall (fun t =>
              builtFor (width w) (height w)
                       (depthLimitFor (getSceneMode host)) (seed t)
                       (branch t))
           (forest w').
Proof.
  unfold layoutFor, depthLimitFor.
  destruct (Z.eq_dec (getSceneMode host) 1) as [E1|N1].
  - destruct (rebuildForest_single host w E1)
      as (w' & r & w1 & w2 & H & Hv & Hm & Hp & Hf & Hw & Hh & Hb).
    exists w'. rewrite E1, Hf. cbn [Z.eqb Pos.eqb].
    repeat split; try assumption; try apply Hv.
    constructor; [|constructor]. cbn [seed branch].
    exists w1, w2. split; [exact Hw|]. split; [exact Hh | exact Hb].
  - destruct (Z.eq_dec (getSceneMode host) 2) as [E2|N2].
    + rewrite E2. cbn [Z.eqb Pos.eqb].
      unfold rebuildForest. rewrite E2. cbn [Z.eqb Pos.eqb].
      match goal with
      | |- context [buildTreeSkeleton 8 2222 ?w1] =>
          destruct (buildTreeSkeleton_total 8 2222 w1)
            as (r1 & s1 & Hc1 & Hb1);
          rewrite Hb1; set (wa := w1) in *
      end.
      match goal with
      | |- context [buildTreeSkeleton 8 3333 ?w1] =>
          destruct (buildTreeSkeleton_total 8 3333 w1)
            as (r2 & s2 & Hc2 & Hb2);
          rewrite Hb2; set (wb := w1) in *
      end.
      eexists. split; [reflexivity|].
      repeat split.
      constructor; [|constructor; [|constructor]]; cbn [seed branch].
      * exists wa. eexists.
        split; [reflexivity|]. split; [reflexivity | exact Hb1].
      * exists wb. eexists.
        split; [reflexivity|]. split; [reflexivity | exact Hb2].
    + destruct (rebuildForest_many host w N1 N2)
        as (w' & H & Hv & Hm & Hp & Hf).
      apply Z.eqb_neq in N1, N2. rewrite N1, N2.
      exists w'. repeat split; try assumption; try apply Hv.
      * clear H. revert Hf.
        generalize (List.map Z.of_nat (seq 0 10)) (forest w').
        induction 1 as [|i t idx ts (Hx & Hs & Hsc & _) _ IH];
          [reflexivity|].
        cbn [List.map]. rewrite IH. f_equal.
        unfold placement. rewrite Hx, Hsc, Hs. reflexivity.
      * clear H. revert Hf.
        generalize (List.map Z.of_nat (seq 0 10)) (forest w').
        induction 1 as [|i t idx ts (_ & _ & _ & Hb) _ IH]; constructor;
          [exact Hb | exact IH].
Qed.

Lemma forest_determined (W H : Q) (d : Z) (f1 f2 : list TreeInstance) :
  List.map placement f1 = List.map placement f2 ->
  Forall (fun t => builtFor W H d (seed t) (branch t)) f1 ->
  Forall (fun t => builtFor W H d (seed t) (branch t)) f2 ->
  f1 = f2.
Proof.
  revert f2. induction f1 as [|t1 f1 IH]; intros [|t2 f2] Hm H1 H2;
    try discriminate; [reflexivity|].
  cbn [List.map] in Hm. unfold placement at 1 2 in Hm.
  injection Hm as Hx Hs Hd Hm.
  inversion H1 as [|? ? B1 R1]; inversion H2 as [|? ? B2 R2]; subst.
  rewrite (IH f2 Hm R1 R2). f_equal.
  destruct t1 as [x1 sc1 sd1 b1], t2 as [x2 sc2 sd2 b2].
  cbn [xRatio scale seed branch] in *. subst.
  now rewrite (builtFor_unique _ _ _ _ _ _ B1 B2).
Qed.

(** X5. In scene mode 1 [rebuildForest] produces one tree: centred
    ([xRatio] 0.5), at full scale, seeded with 1234 and grown to the depth
    limit 9, hence with 1023 nodes. *)
Theorem rebuildForest_mode1 (host : Host) (w : World) :
  getSceneMode host = 1%Z ->
  exists w' t,
    rebuildForest host w = Some w' /\
    forest w' = [t] /\
    xRatio t = 0.5 /\ scale t = 1.0 /\ seed t = 1234%Z /\
    nodeCount (branch t) = 1023%nat.
Proof.
  intro Hm.
  destruct (rebuildForest_layout host w) as (w' & H & _ & _ & _ & Hl & Hb).
  rewrite Hm in Hl, Hb. cbn in Hl.
  destruct (forest w') as [|t [|t' f]] eqn:Ef; try discriminate.
  injection Hl as Hx Hs Hd.
  exists w', t. split; [exact H|]. split; [exact Ef|].
  repeat split; try assumption.
  inversion Hb as [|? ? B _]; subst.
  apply (builtFor_count _ _ 9) in B; [|lia].
  change (2 ^ (9 + 1) - 1)%Z with 1023%Z in B. lia.
Qed.

Lemma rebuildForest_mode1_witness :
  exists w' t,
    rebuildForest (mkHost (mkTreeState 0 0) peach 1) initialWorld = Some w' /\
    forest w' = [t] /\
    xRatio t = 0.5 /\ scale t = 1.0 /\ seed t = 1234%Z /\
    nodeCount (branch t) = 1023%nat.
Proof.
  apply (rebuildForest_mode1 (mkHost (mkTreeState 0 0) peach 1) initialWorld).
  reflexivity.
Defined.

(** X6. In scene mode 2 [rebuildForest] produces two trees, at 0.3 and
    0.7 of the width (mirror images about the centre), both at scale 0.75,
    seeded 2222 and 3333, and both grown to the depth limit 8 (511
    nodes). *)
Theorem rebuildForest_mode2 (host : Host) (w : World) :
  getSceneMode host = 2%Z ->
  exists w' t1 t2,
    rebuildForest host w = Some w' /\
    forest w' = [t1; t2] /\
    xRatio t1 = 0.3 /\ xRatio t2 = 0.7 /\
    xRatio t1 + xRatio t2 == 1 /\
    scale t1 = 0.75 /\ scale t2 = 0.75 /\
    seed t1 = 2222%Z /\ seed t2 = 3333%Z /\
    nodeCount (branch t1) = 511%nat /\ nodeCount (branch t2) = 511%nat.
Proof.
  intro Hm.
  destruct (rebuildForest_layout host w) as (w' & H & _ & _ & _ & Hl & Hb).
  rewrite Hm in Hl, Hb. cbn in Hl.
  destruct (forest w') as [|t1 [|t2 [|t3 f]]] eqn:Ef; try discriminate.
  injection Hl as Hx1 Hs1 Hd1 Hx2 Hs2 Hd2.
  exists w', t1, t2. split; [exact H|]. split; [exact Ef|].
  inversion Hb as [|? ? B1 Hb']; subst.
  inversion Hb' as [|? ? B2 _]; subst.
  apply (builtFor_count _ _ 8) in B1, B2; try lia.
  change (2 ^ (8 + 1) - 1)%Z with 511%Z in B1, B2.
  repeat split; try assumption; try lia.
  rewrite Hx1, Hx2. reflexivity.
Qed.

Lemma rebuildForest_mode2_witness :
  exists w' t1 t2,
    rebuildForest (mkHost (mkTreeState 0 0) peach 2) initialWorld = Some w' /\
    forest w' = [t1; t2] /\
    xRatio t1 = 0.3 /\ xRatio t2 = 0.7 /\
    xRatio t1 + xRatio t2 == 1 /\
    scale t1 = 0.75 /\ scale t2 = 0.75 /\
    seed t1 = 2222%Z /\ seed t2 = 3333%Z /\
    nodeCount (branch t1) = 511%nat /\ nodeCount (branch t2) = 511%nat.
Proof.
  apply (rebuildForest_mode2 (mkHost (mkTreeState 0 0) peach 2) initialWorld).
  reflexivity.
Defined.

(** X7. [rebuildForest] replaces the forest wholesale: what it produces
    depends on the scene mode and the canvas size only, not on the forest,
    the particles, the smoothed signals or the state of the random
    generator before the call.  In particular rebuilding twice in a row
    gives the same forest as rebuilding once. *)
Theorem rebuildForest_forgets_the_past (host : Host) (w1 w2 : World) :
  width w1 = width w2 ->
  height w1 = height w2 ->
  exists w1' w2' w1'',
    rebuildForest host w1 = Some w1' /\
    rebuildForest host w2 = Some w2' /\
    forest w1' = forest w2' /\
    rebuildForest host w1' = Some w1'' /\
    forest w1'' = forest w1'.
Proof.
  intros Hw Hh.
  destruct (rebuildForest_layout host w1)
    as (w1' & R1 & (V1 & V2 & _) & _ & _ & L1 & B1).
  destruct (rebuildForest_layout host w2)
    as (w2' & R2 & _ & _ & _ & L2 & B2).
  destruct (rebuildForest_layout host w1')
    as (w1'' & R3 & _ & _ & _ & L3 & B3).
  exists w1', w2', w1''.
  split; [exact R1|]. split; [exact R2|].
  rewrite <- Hw, <- Hh in B2. rewrite V1, V2 in B3.
  split; [|split; [exact R3|]].
  - apply (forest_determined _ _ _ _ _ (eq_trans L1 (eq_sym L2)) B1 B2).
  - apply (forest_determined _ _ _ _ _ (eq_trans L3 (eq_sym L1)) B3 B1).
Qed.

Lemma rebuildForest_forgets_the_past_witness :
  exists w1' w2' w1'',
    rebuildForest (mkHost (mkTreeState 0 0) peach 2) initialWorld
    = Some w1' /\
    rebuildForest (mkHost (mkTreeState 0 0) peach 2)
                  (mkWorld 800 600 77 0.5 0.1 3 crowd []) = Some w2' /\
    forest w1' = forest w2' /\
    rebuildForest (mkHost (mkTreeState 0 0) peach 2) w1' = Some w1'' /\
    forest w1'' = forest w1'.
Proof.
  apply (rebuildForest_forgets_the_past (mkHost (mkTreeState 0 0) peach 2)
           initialWorld (mkWorld 800 600 77 0.5 0.1 3 crowd [])).
  - reflexivity.
  - reflexivity.
Defined.


(** X9. For the scene modes 1, 2 and 3 the forest [rebuildForest]
    produces matches the depth [renderBranch] assumes for the mode: every
    tree has [2^(maxDepth+1) - 1] nodes for the renderer's [maxDepth] (9, 8
    or 7). *)
Theorem forest_depth_matches_renderer (host : Host) (w : World) :
  getSceneMode host = 1%Z \/ getSceneMode host = 2%Z
  \/ getSceneMode host = 3%Z ->
  exists w',
    rebuildForest host w = Some w' /\
    Forall (fun t =>
              Z.of_nat (nodeCount (branch t))
              = (2 ^ (renderMaxDepth (currentSceneMode w') + 1) - 1)%Z)
           (forest w').
Proof.
  intro Hm.
  destruct (rebuildForest_layout host w) as (w' & R & _ & _ & M & _ & B).
  exists w'. split; [exact R|]. rewrite M.
  eapply Forall_impl; [|exact B].
  intros t Ht.
  assert (E : depthLimitFor (getSceneMode host)
              = renderMaxDepth (getSceneMode host)).
  { destruct Hm as [->|[->| ->]]; reflexivity. }
  rewrite <- E. cbv beta in Ht.
  apply (builtFor_count _ _ _ _ _) with (2 := Ht).
  unfold depthLimitFor.
  destruct (_ =? 1)%Z; [lia|]. destruct (_ =? 2)%Z; lia.
Qed.

Lemma forest_depth_matches_renderer_witness :
  exists w',
    rebuildForest (mkHost (mkTreeState 0 0) peach 3) initialWorld
    = Some w' /\
    Forall (fun t =>
              Z.of_nat (nodeCount (branch t))
              = (2 ^ (renderMaxDepth (currentSceneMode w') + 1) - 1)%Z)
           (forest w').
Proof.
  apply (forest_depth_matches_renderer (mkHost (mkTreeState 0 0) peach 3)
           initialWorld).
  right. right. reflexivity.
Defined.

(** ** The transform stack while drawing *)

(** Depth of the stack of saved transforms after [cmds], starting at depth
    [d]; [None] when a [Pop] finds the stack empty. *)
Fixpoint stackAfter (cmds : list Cmd) (d : nat) : option nat :=
  match cmds with
  | [] => Some d
  | Push :: rest => stackAfter rest (S d)
  | Pop :: rest =>
      match d with
      | O => None
      | S d' => stackAfter rest d'
      end
  | _ :: rest => stackAfter rest d
  end.

(** Commands that leave the stack as they found it, whatever its depth. *)
Definition balanced (cmds : list Cmd) : Prop :=
  forall d, stackAfter cmds d = Some d.

Lemma stackAfter_app (a b : list Cmd) (d : nat) :
  stackAfter (a ++ b) d
  = match stackAfter a d with
    | Some d' => stackAfter b d'
    | None => None
    end.
Proof.
  revert d. induction a as [|c a IH]; intro d; [reflexivity|].
  destruct c; cbn [app stackAfter]; try apply IH.
  destruct d; [reflexivity | apply IH].
Qed.

Lemma balanced_nil : balanced [].
Proof. intro d. reflexivity. Qed.

Lemma balanced_app (a b : list Cmd) :
  balanced a -> balanced b -> balanced (a ++ b).
Proof. intros Ha Hb d. now rewrite stackAfter_app, Ha, Hb. Qed.

Lemma balanced_block (a : list Cmd) :
  balanced a -> balanced (Push :: a ++ [Pop]).
Proof.
  intros Ha d. cbn [stackAfter]. now rewrite stackAfter_app, Ha.
Qed.

Lemma balanced_cons (c : Cmd) (a : list Cmd) :
  c <> Push -> c <> Pop -> balanced a -> balanced (c :: a).
Proof.
  intros H1 H2 Ha d. destruct c; try congruence; cbn [stackAfter]; apply Ha.
Qed.

Lemma random1_range (mx : Q) (st : Z) :
  0 <= mx -> 0 <= fst (P5.random1 mx st) /\ fst (P5.random1 mx st) <= mx.
Proof.
  intro H. unfold P5.random1.
  pose proof (lcg_range st) as Hr.
  destruct (P5.lcg st) as [rand st']. cbn [fst] in *. split; nra.
Qed.

(** Particles added at the end of the collection: at most [k] of them,
    each with a full life. *)
Definition spawned (k : nat) (w w' : World) : Prop :=
  exists added,
    particles w' = particles w ++ added /\
    (length added <= k)%nat /\
    Forall (fun part => life part = 255) added.

Lemma spawned_refl (k : nat) (w : World) : spawned k w w.
Proof.
  exists []. rewrite app_nil_r. repeat split; [cbn; lia | constructor].
Qed.

Lemma spawned_trans (j k : nat) (w1 w2 w3 : World) :
  spawned j w1 w2 -> spawned k w2 w3 -> spawned (j + k) w1 w3.
Proof.
  intros (a & Ha & La & Fa) (b & Hb & Lb & Fb).
  exists (a ++ b). rewrite Hb, Ha, <- app_assoc.
  split; [reflexivity|]. split; [rewrite length_app; lia|].
  apply Forall_app. now split.
Qed.

Lemma spawned_weaken (j k : nat) (w w' : World) :
  (j <= k)%nat -> spawned j w w' -> spawned k w w'.
Proof.
  intros Hjk (a & Ha & La & Fa). exists a. repeat split; auto. lia.
Qed.

Lemma spawnFallingParticle_spawned (x y scale : Q) (w : World) :
  spawned 1 w (spawnFallingParticle x y scale w).
Proof.
  unfold spawnFallingParticle.
  destruct (_ || _); [apply spawned_refl|].
  repeat match goal with
         | |- context [let '(_, _) := ?r in _] => destruct r
         end.
  eexists [_]. cbn [particles set_particles].
  split; [reflexivity|]. split; [cbn; lia|].
  constructor; [reflexivity | constructor].
Qed.

(** X10. A particle [spawnFallingParticle] creates within the canvas and
    its margins is appended to the collection with a full life of 255, at
    the position asked for and at rest in acceleration; it starts falling
    (vertical speed between 1.5 and 3.5), drifts sideways by the wind times
    2.5 give or take 0.5, has a size between 7 and 12 times the scale of
    its tree, and is pink exactly when it is a flower. *)
Theorem spawnFallingParticle_fresh (x y scale : Q) (w : World) :
  -50 <= x -> x <= width w + 50 -> y <= height w -> 0 <= scale ->
  exists part,
    particles (spawnFallingParticle x y scale w) = particles w ++ [part] /\
    life part = 255 /\
    pos part = createVector x y /\ acc part = createVector 0 0 /\
    (1.5 <= vy (vel part) /\ vy (vel part) <= 3.5) /\
    (currentWind w * 2.5 - 0.5 <= vx (vel part) /\
     vx (vel part) <= currentWind w * 2.5 + 0.5) /\
    (7 * scale <= size part /\ size part <= 12 * scale) /\
    (type part = flower <-> color part = COL_FLOWER_PINK) /\
    (type part = leaf <-> color part = COL_LEAF_TENDER).
Proof.
  intros H1 H2 H3 Hs. unfold spawnFallingParticle.
  apply Qltb_ge in H1. apply Qgtb_le in H2, H3.
  rewrite H1, H2, H3. cbn [orb].
  pose proof (random_range (-0.5) 0.5 (rng w) ltac:(lra)) as [Ha1 Ha2].
  destruct (P5.random (-0.5) 0.5 (rng w)) as [r1 s1]. cbn [fst] in Ha1, Ha2.
  pose proof (random_range 1.5 3.5 s1 ltac:(lra)) as [Hb1 Hb2].
  destruct (P5.random 1.5 3.5 s1) as [r2 s2]. cbn [fst] in Hb1, Hb2.
  destruct (P5.random1 1 s2) as [r3 s3].
  pose proof (random_range 7 12 s3 ltac:(lra)) as [Hc1 Hc2].
  destruct (P5.random 7 12 s3) as [r4 s4]. cbn [fst] in Hc1, Hc2.
  repeat match goal with
         | |- context [let '(_, _) := ?r in _] => destruct r
         end.
  eexists. cbn [particles set_particles].
  split; [reflexivity|].
  cbn [life pos acc vel vx vy size type color].
  split; [reflexivity|]. split; [reflexivity|]. split; [reflexivity|].
  split; [split; assumption|]. split; [split; lra|].
  split; [split; nra|].
  destruct (Qgtb r3 0.5); split; split; intro E; (reflexivity || discriminate).
Qed.

Lemma spawnFallingParticle_fresh_witness :
  exists part,
    particles (spawnFallingParticle 400 300 1 (frameAt 0.6))
    = particles (frameAt 0.6) ++ [part] /\
    life part = 255 /\
    pos part = createVector 400 300 /\ acc part = createVector 0 0 /\
    (1.5 <= vy (vel part) /\ vy (vel part) <= 3.5) /\
    (currentWind (frameAt 0.6) * 2.5 - 0.5 <= vx (vel part) /\
     vx (vel part) <= currentWind (frameAt 0.6) * 2.5 + 0.5) /\
    (7 * 1 <= size part /\ size part <= 12 * 1) /\
    (type part = flower <-> color part = COL_FLOWER_PINK) /\
    (type part = leaf <-> color part = COL_LEAF_TENDER).
Proof.
  apply (spawnFallingParticle_fresh 400 300 1 (frameAt 0.6)).
  - cbn. lra.
  - cbn. lra.
  - cbn. lra.
  - lra.
Defined.

Lemma bloomFactorOf_low (w : World) (t : Q) :
  0 <= t -> currentMood w <= t -> bloomFactorOf w <= t.
Proof.
  intros Ht H. rewrite bloomFactorOf_clamp. unfold P5.constrain.
  destruct (Math_min_spec (currentMood w) 1) as [[H1 E1]|[H1 E1]];
    destruct (Math_max_spec (Math_min (currentMood w) 1) 0)
      as [[H2 E2]|[H2 E2]];
    rewrite E2; try rewrite E1 in H2; try rewrite E1; lra.
Qed.

Lemma bloomFactorOf_high (w : World) (t : Q) :
  t <= 1 -> t <= currentMood w -> t <= bloomFactorOf w.
Proof.
  intros Ht H. rewrite bloomFactorOf_clamp. unfold P5.constrain.
  destruct (Math_min_spec (currentMood w) 1) as [[H1 E1]|[H1 E1]];
    destruct (Math_max_spec (Math_min (currentMood w) 1) 0)
      as [[H2 E2]|[H2 E2]];
    rewrite E2; try rewrite E1 in H2; try rewrite E1; lra.
Qed.

Lemma bloomFactorOf_same (w w' : World) :
  currentMood w' = currentMood w -> bloomFactorOf w' = bloomFactorOf w.
Proof. unfold bloomFactorOf. now intros ->. Qed.

Section Walk.

Variable noise : Q -> Q -> Q -> Q.
Variable Math_sin Math_cos : Q -> Q.
Variable millis : Q.

Local Abbreviation walk := (renderBranch noise Math_sin Math_cos millis).

Lemma eachChild_balanced
    (r : Branch -> Q -> World -> list Cmd * World) (localWind : Q)
    (cs : list Branch) :
  Forall (fun c => forall a w, balanced (fst (r c a w))) cs ->
  forall w, balanced (fst (eachChild r localWind cs w)).
Proof.
  induction 1 as [|c cs Hc Hcs IH]; intro w; cbn [eachChild].
  - apply balanced_nil.
  - specialize (Hc (angleOffset c + localWind) w).
    destruct (r c (angleOffset c + localWind) w) as [drawn w'].
    specialize (IH w').
    destruct (eachChild r localWind cs w') as [rest w''].
    cbn [fst] in *.
    change ([Push; Rotate (angleOffset c + localWind)] ++ drawn ++ [Pop]
            ++ rest)
      with (Push :: (Rotate (angleOffset c + localWind) :: drawn)
                    ++ [Pop] ++ rest).
    intro d. cbn [stackAfter]. rewrite stackAfter_app.
    cbn [stackAfter]. rewrite Hc. cbn [app stackAfter]. apply IH.
Qed.

Lemma own_balanced (b : Branch) (thick len windAngle : Q)
    (style : FlowerStyle) (scale : Q) (w : World) :
  balanced (segmentOf (bloomFactorOf w) thick len
            ++ foliageOf b windAngle style scale w).
Proof.
  apply balanced_app.
  - intro d. reflexivity.
  - unfold foliageOf. destruct (_ && _); intro d; reflexivity.
Qed.

(** X11. Drawing a tree leaves the stack of saved transforms as it found
    it: in the commands of [renderBranch] every [Pop] has its [Push] before
    it and every [Push] is closed, on every tree and in every state. *)
Theorem renderBranch_balanced (b : Branch) :
  forall len thick windAngle x y cumAngle style scale w d,
    stackAfter
      (fst (walk b len thick windAngle x y cumAngle style scale w)) d
    = Some d.
Proof.
  induction b as [b IH] using Branch_ind.
  intros len thick windAngle x y cumAngle style scale w.
  change (balanced
            (fst (walk b len thick windAngle x y cumAngle style scale w))).
  rewrite renderBranch_eq. cbv zeta.
  destruct (stops _ _ _); cbn [fst].
  - apply own_balanced.
  - apply balanced_app; [apply own_balanced|].
    apply eachChild_balanced.
    eapply Forall_impl; [|exact IH].
    intros c Hc a w' d. apply Hc.
Qed.

(** *** Spawning while drawing *)

Lemma afterSpawn_calm (b : Branch) (tipX tipY scale : Q) (w : World) :
  currentMood w <= 0.3 ->
  afterSpawn noise millis b tipX tipY scale w = w.
Proof.
  intro H. unfold afterSpawn.
  assert (E : Qgtb (bloomFactorOf w) 0.3 = false).
  { apply Qgtb_le. apply bloomFactorOf_low; [lra | exact H]. }
  rewrite E. cbn [andb]. now rewrite andb_false_r.
Qed.

Lemma eachChild_calm
    (r : Branch -> Q -> World -> list Cmd * World) (localWind : Q)
    (cs : list Branch) (w : World) :
  Forall (fun c => forall a, snd (r c a w) = w) cs ->
  snd (eachChild r localWind cs w) = w.
Proof.
  induction 1 as [|c cs Hc Hcs IH]; cbn [eachChild]; [reflexivity|].
  specialize (Hc (angleOffset c + localWind)).
  destruct (r c (angleOffset c + localWind) w) as [drawn w'].
  cbn [snd] in Hc. subst w'.
  destruct (eachChild r localWind cs w) as [rest w''].
  exact IH.
Qed.

(** X12. While the smoothed mood is at most 0.3 drawing a tree changes
    nothing in the state of the sketch: no particle is spawned and no
    random number is drawn. *)
Theorem renderBranch_calm (b : Branch)
    (len thick windAngle x y cumAngle : Q) (style : FlowerStyle)
    (scale : Q) (w : World) :
  currentMood w <= 0.3 ->
  snd (walk b len thick windAngle x y cumAngle style scale w) = w.
Proof.
  intro Hm. revert len thick windAngle x y cumAngle style scale.
  induction b as [b IH] using Branch_ind.
  intros len thick windAngle x y cumAngle style scale.
  rewrite renderBranch_eq. cbv zeta.
  rewrite afterSpawn_calm by exact Hm.
  destruct (stops _ _ _); cbn [snd]; [reflexivity|].
  apply eachChild_calm.
  eapply Forall_impl; [|exact IH].
  intros c Hc a. unfold renderChild. apply Hc.
Qed.

Lemma afterSpawn_spawned (b : Branch) (tipX tipY scale : Q) (w : World) :
  spawned 1 w (afterSpawn noise millis b tipX tipY scale w).
Proof.
  unfold afterSpawn.
  destruct (_ && _);
    [apply spawnFallingParticle_spawned | apply spawned_refl].
Qed.

Lemma eachChild_spawned
    (r : Branch -> Q -> World -> list Cmd * World) (localWind : Q)
    (cs : list Branch) :
  Forall (fun c => forall a w, spawned (nodeCount c) w (snd (r c a w))) cs ->
  forall w,
    spawned (list_sum (List.map nodeCount cs)) w
            (snd (eachChild r localWind cs w)).
Proof.
  induction 1 as [|c cs Hc Hcs IH]; intro w; cbn [eachChild].
  - apply spawned_refl.
  - specialize (Hc (angleOffset c + localWind) w).
    destruct (r c (angleOffset c + localWind) w) as [drawn w'].
    specialize (IH w').
    destruct (eachChild r localWind cs w') as [rest w''].
    cbn [snd List.map list_sum fold_right] in *.
    exact (spawned_trans _ _ _ _ _ Hc IH).
Qed.

(** X13. Drawing a tree never removes or alters a particle: the
    collection afterwards is the one before followed by the particles just
    spawned, each with a full life of 255, and at most one per node of the
    tree. *)
Theorem renderBranch_only_spawns (b : Branch) :
  forall len thick windAngle x y cumAngle style scale w,
    exists added,
      particles
        (snd (walk b len thick windAngle x y cumAngle style scale w))
      = particles w ++ added /\
      (length added <= nodeCount b)%nat /\
      Forall (fun part => life part = 255) added.
Proof.
  induction b as [b IH] using Branch_ind.
  intros len thick windAngle x y cumAngle style scale w.
  change (spawned (nodeCount b) w
            (snd (walk b len thick windAngle x y cumAngle style scale w))).
  rewrite renderBranch_eq. cbv zeta. rewrite nodeCount_eq.
  destruct (stops _ _ _); cbn [snd].
  - eapply spawned_weaken; [|apply afterSpawn_spawned]. lia.
  - change (S (list_sum (List.map nodeCount (children b))))
      with (1 + list_sum (List.map nodeCount (children b)))%nat.
    eapply spawned_trans; [apply afterSpawn_spawned|].
    apply eachChild_spawned.
    eapply Forall_impl; [|exact IH].
    intros c Hc a w'. apply Hc.
Qed.

(** *** Bare and in full bloom *)

Lemma eachChild_bare
    (r : Branch -> Q -> World -> list Cmd * World) (localWind : Q)
    (cs : list Branch) (m : Q) :
  Forall (fun c => forall a w,
            currentMood w = m ->
            attachedCount (fst (r c a w)) = 0%nat /\
            currentMood (snd (r c a w)) = m) cs ->
  forall w,
    currentMood w = m ->
    attachedCount (fst (eachChild r localWind cs w)) = 0%nat.
Proof.
  induction 1 as [|c cs Hc Hcs IH]; intros w Hw; cbn [eachChild].
  - reflexivity.
  - destruct (Hc (angleOffset c + localWind) w Hw) as [H0 Hm].
    destruct (r c (angleOffset c + localWind) w) as [drawn w'].
    cbn [fst snd] in *. specialize (IH w' Hm).
    destruct (eachChild r localWind cs w') as [rest w''].
    cbn [fst] in *. rewrite !attachedCount_app, H0, IH. reflexivity.
Qed.

(** No foliage is drawn on a tree all of whose thresholds are at or above
    the bloom factor. *)
Lemma renderBranch_bare (b : Branch) (m : Q) :
  Forall (fun n => P5.constrain m 0 1 <= noiseThreshold n) (nodes b) ->
  forall len thick windAngle x y cumAngle style scale w,
    currentMood w = m ->
    attachedCount
      (fst (walk b len thick windAngle x y cumAngle style scale w))
    = 0%nat.
Proof.
  induction b as [b IH] using Branch_ind.
  intros Hn len thick windAngle x y cumAngle style scale w Hw.
  rewrite renderBranch_eq. cbv zeta.
  assert (Hown : attachedCount
                   (segmentOf (bloomFactorOf w) thick len
                    ++ foliageOf b windAngle style scale w) = 0%nat).
  { rewrite attachedCount_app, foliageOf_count.
    assert (E : Qgtb (bloomFactorOf w) (noiseThreshold b) = false).
    { apply Qgtb_le. rewrite bloomFactorOf_clamp, Hw.
      rewrite Forall_forall in Hn. apply Hn, nodes_self. }
    rewrite E, andb_false_r. reflexivity. }
  destruct (stops _ _ _); cbn [fst]; [exact Hown|].
  rewrite attachedCount_app, Hown. cbn [Nat.add].
  apply (eachChild_bare _ _ _ m).
  - rewrite Forall_forall in IH |- *. intros c Hc a w' Hw'. split.
    + unfold renderChild. apply IH; [exact Hc| |exact Hw'].
      rewrite Forall_forall in Hn |- *. intros n Hin.
      apply Hn. exact (nodes_child b c Hc n Hin).
    + unfold renderChild.
      destruct (renderBranch_sameScene noise Math_sin Math_cos millis c
                  (len * lenMult c) (thick * 0.7) windAngle
                  (x + Math_sin cumAngle * len) (y - Math_cos cumAngle * len)
                  (cumAngle + a) style scale w')
        as ((_ & _ & Hmood & _) & _).
      congruence.
  - destruct (afterSpawn_sameScene noise millis b
                (x + Math_sin cumAngle * len) (y - Math_cos cumAngle * len)
                scale w) as ((_ & _ & Hmood & _) & _).
    congruence.
Qed.

(** X14. A tree grown by [buildTreeSkeleton] is drawn bare while the
    smoothed mood is at most 0.05: no branch gets foliage, whatever the
    wind, the position and the scale it is drawn with. *)
Theorem built_tree_bare_when_low (maxDepth seed : Z) (w0 : World) :
  exists root w0',
    buildTreeSkeleton maxDepth seed w0 = Some (root, w0') /\
    forall len thick windAngle x y cumAngle style scale w,
      currentMood w <= 0.05 ->
      attachedCount
        (fst (walk root len thick windAngle x y cumAngle style scale w))
      = 0%nat.
Proof.
  destruct (buildTreeSkeleton_nodes maxDepth seed w0)
    as (root & w0' & B & _ & _ & I & _ & _).
  exists root, w0'. split; [exact B|].
  intros len thick windAngle x y cumAngle style scale w Hm.
  apply (renderBranch_bare root (currentMood w)); [|reflexivity].
  eapply Forall_impl; [|exact I].
  intros n ((Hlo & _) & _).
  rewrite <- bloomFactorOf_clamp.
  pose proof (bloomFactorOf_low w 0.05 ltac:(lra) Hm). lra.
Qed.

(** X15. On a tree grown by [buildTreeSkeleton], once the smoothed mood
    has reached 0.95 every near-terminal branch that is drawn gets its
    foliage. *)
Theorem built_tree_full_when_high (maxDepth seed : Z) (w0 : World) :
  exists root w0',
    buildTreeSkeleton maxDepth seed w0 = Some (root, w0') /\
    forall b len thick windAngle x y cumAngle style scale w,
      In b (nodes root) ->
      nearTerminal (currentSceneMode w) b = true ->
      0.95 <= currentMood w ->
      isAttachedIn
        (fst (walk b len thick windAngle x y cumAngle style scale w))
      = true.
Proof.
  destruct (buildTreeSkeleton_nodes maxDepth seed w0)
    as (root & w0' & B & _ & _ & I & _ & _).
  exists root, w0'. split; [exact B|].
  intros b len thick windAngle x y cumAngle style scale w Hb Hn Hm.
  rewrite renderBranch_isAttachedIn, Hn. cbn [andb].
  apply Qgtb_gt.
  rewrite Forall_forall in I. destruct (I b Hb) as ((_ & Hhi) & _).
  pose proof (bloomFactorOf_high w 0.95 ltac:(lra) Hm). lra.
Qed.

End Walk.

Lemma renderBranch_calm_witness :
  snd (renderBranch flatNoise zeroSin oneCos 0 sampleTree
         100 10 0.1 400 600 0 peach 1 (frameAt 0.1))
  = frameAt 0.1.
Proof.
  apply (renderBranch_calm flatNoise zeroSin oneCos 0 sampleTree
           100 10 0.1 400 600 0 peach 1 (frameAt 0.1)).
  cbn. lra.
Defined.

(** ** More on the particle system *)

Lemma trimmed_incl (ps : list Particle) : incl (trimmed ps) ps.
Proof.
  intros p Hp. rewrite (trimmed_suffix ps). apply in_or_app. now right.
Qed.

Section Falling.

Variable noise : Q -> Q -> Q -> Q.
Variable Math_sin Math_cos : Q -> Q.

(** X16. A particle that is not moving upward keeps falling: after one
    update its vertical speed is strictly positive and, if it was at most
    3.5 (the fastest a particle is spawned with), still at most 3.5; and
    its vertical position has strictly increased, by no more than 3.5. *)
Theorem advance_keeps_falling (frameCount windForce : Q) (part : Particle) :
  0 <= vy (vel part) -> vy (vel part) <= 3.5 ->
  vy (vel (advance noise Math_sin frameCount windForce part))
  == (vy (vel part) + 0.1) * 0.94 /\
  0 < vy (vel (advance noise Math_sin frameCount windForce part)) /\
  vy (vel (advance noise Math_sin frameCount windForce part)) <= 3.5 /\
  vy (pos part)
  < vy (pos (advance noise Math_sin frameCount windForce part)) /\
  vy (pos (advance noise Math_sin frameCount windForce part))
  <= vy (pos part) + 3.5.
Proof.
  intros H0 H1. unfold advance, Vector_add, Vector_mult.
  cbn [vel pos vx vy].
  split; [reflexivity|]. repeat split; lra.
Qed.

Variable style : FlowerStyle.
Variable frameCountAt : nat -> Q.
Variable windAt : nat -> Q.

(** [n] ticks of the particle system in a row, with no spawn in between;
    [frameCountAt k] and [windAt k] are the frame count and the wind of the
    tick of index [k]. *)
Fixpoint afterTicks (n : nat) (w : World) : World :=
  match n with
  | O => w
  | S k =>
      snd (updateParticles noise Math_sin Math_cos (frameCountAt k)
             (windAt k) style (afterTicks k w))
  end.

Lemma updateParticles_life (frameCount windForce : Q) (w : World) (L : Q) :
  Forall (fun part => life part <= L) (particles w) ->
  Forall (fun part => 0 < life part /\ life part <= L - 2)
         (particles
            (snd (updateParticles noise Math_sin Math_cos frameCount
                    windForce style w))).
Proof.
  intro H. rewrite updateParticles_particles.
  rewrite Forall_forall in *. intros p Hp.
  apply filter_In in Hp. destruct Hp as [Hp Hs].
  apply in_map_iff in Hp. destruct Hp as (q & <- & Hq).
  apply stays_spec in Hs.
  specialize (H q (trimmed_incl _ _ Hq)).
  rewrite advance_life in *. split; [|lra].
  apply Qnot_le_lt. intro Hle. apply Hs. now left.
Qed.

Lemma afterTicks_life (n : nat) (w : World) (L : Q) :
  Forall (fun part => life part <= L) (particles w) ->
  Forall (fun part =>
            0 < life part /\
            life part <= L - 2 * inject_Z (Z.of_nat (S n)))
         (particles (afterTicks (S n) w)).
Proof.
  intro H. induction n as [|n IH].
  - cbn [afterTicks].
    eapply Forall_impl; [|apply updateParticles_life; exact H].
    cbn beta. intros p [H1 H2]. split; [exact H1|].
    change (inject_Z (Z.of_nat 1)) with 1. lra.
  - change (afterTicks (S (S n)) w)
      with (snd (updateParticles noise Math_sin Math_cos
                   (frameCountAt (S n)) (windAt (S n)) style
                   (afterTicks (S n) w))).
    eapply Forall_impl;
      [|apply (updateParticles_life _ _ _
                 (L - 2 * inject_Z (Z.of_nat (S n))))].
    + cbn beta. intros p [H1 H2]. split; [exact H1|].
      rewrite (Nat2Z.inj_succ (S n)), <- Z.add_1_r, inject_Z_plus.
      change (inject_Z 1) with 1. lra.
    + eapply Forall_impl; [|exact IH]. cbn beta. intros p [_ H2]. exact H2.
Qed.

(** X17. Particles do not outlive their life: when every particle has a
    life of at most [L], then after [n >= 1] ticks with [2 n >= L] (128
    ticks for the full life of 255) and no spawn in between, none of them
    is left. *)
Theorem particles_expire (n : nat) (w : World) (L : Q) :
  (0 < n)%nat ->
  L <= 2 * inject_Z (Z.of_nat n) ->
  Forall (fun part => life part <= L) (particles w) ->
  particles (afterTicks n w) = [].
Proof.
  intros Hn HL H. destruct n as [|n]; [lia|].
  pose proof (afterTicks_life n w L H) as Hl.
  destruct (particles (afterTicks (S n) w)) as [|p ps]; [reflexivity|].
  inversion Hl as [|? ? [H1 H2] _]; subst. lra.
Qed.

(** The commands of the loop: one drawing per particle kept, in the order
    the loop visits them, from the last index down. *)
Lemma particleLoop_cmds (frameCount windForce : Q) (h : Q) (n : nat) :
  forall ps,
    (n <= length ps)%nat ->
    fst (particleLoop noise Math_sin Math_cos frameCount windForce style h
           n ps)
    = flat_map (drawParticle Math_cos style)
        (rev (filter (stays h)
                (List.map (advance noise Math_sin frameCount windForce)
                          (firstn n ps)))).
Proof.
  induction n as [|i IH]; intros ps Hn.
  - reflexivity.
  - cbn [particleLoop].
    destruct (nth_error ps i) as [part|] eqn:E.
    2:{ apply nth_error_None in E. lia. }
    destruct (nth_error_split_at _ _ _ E) as [Hsplit Hlen].
    assert (Hfirst : firstn (S i) ps = firstn i ps ++ [part]).
    { rewrite Hsplit at 1.
      replace (S i) with (length (firstn i ps) + 1)%nat by lia.
      rewrite firstn_app_2. reflexivity. }
    rewrite Hfirst, List.map_app, filter_app, rev_app_distr.
    cbn [List.map filter]. unfold stays at 1.
    destruct (expired h (advance noise Math_sin frameCount windForce part))
      eqn:Ex; cbn [negb rev app].
    + rewrite IH.
      * unfold splice. rewrite (firstn_prefix i) by exact Hlen.
        reflexivity.
      * unfold splice. rewrite length_app. lia.
    + specialize (IH (store ps i
                        (advance noise Math_sin frameCount windForce part))).
      destruct (particleLoop _ _ _ _ _ _ _ i _) as [cmds ps'].
      cbn [fst flat_map] in *. rewrite IH.
      * unfold store. rewrite (firstn_prefix i) by exact Hlen.
        reflexivity.
      * unfold store. rewrite length_app. lia.
Qed.

(** X18. [updateParticles] draws exactly the particles it keeps, each
    once, the newest first: its commands are the drawings of the particles
    left in the collection, taken from the end of the collection to its
    start.  A particle removed in the tick is not drawn. *)
Theorem updateParticles_draws_survivors (frameCount windForce : Q)
    (w : World) :
  fst (updateParticles noise Math_sin Math_cos frameCount windForce style w)
  = flat_map (drawParticle Math_cos style)
      (rev (particles
              (snd (updateParticles noise Math_sin Math_cos frameCount
                      windForce style w)))).
Proof.
  rewrite updateParticles_particles. unfold updateParticles.
  assert (E : (if (MAX_PARTICLES <? length (particles w))%nat
               then splice (particles w) 0
                      (length (particles w) - MAX_PARTICLES)
               else particles w) = trimmed (particles w)).
  { unfold trimmed, splice. now destruct (_ <? _)%nat. }
  rewrite E.
  pose proof (particleLoop_cmds frameCount windForce (height w)
                (length (trimmed (particles w))) (trimmed (particles w))
                (Nat.le_refl _)) as H.
  destruct (particleLoop _ _ _ _ _ _ _ _ _) as [cmds ps].
  cbn [fst] in *. now rewrite H, firstn_all.
Qed.

End Falling.

Lemma advance_keeps_falling_witness :
  vy (vel (advance flatNoise zeroSin 0 0 (freshParticle 0)))
  == (vy (vel (freshParticle 0)) + 0.1) * 0.94 /\
  0 < vy (vel (advance flatNoise zeroSin 0 0 (freshParticle 0))) /\
  vy (vel (advance flatNoise zeroSin 0 0 (freshParticle 0))) <= 3.5 /\
  vy (pos (freshParticle 0))
  < vy (pos (advance flatNoise zeroSin 0 0 (freshParticle 0))) /\
  vy (pos (advance flatNoise zeroSin 0 0 (freshParticle 0)))
  <= vy (pos (freshParticle 0)) + 3.5.
Proof.
  apply (advance_keeps_falling flatNoise zeroSin 0 0 (freshParticle 0)).
  - unfold freshParticle. cbn [vel vy]. lra.
  - unfold freshParticle. cbn [vel vy]. lra.
Defined.

Lemma particles_expire_witness :
  particles
    (afterTicks flatNoise zeroSin oneCos peach (fun _ => 0) (fun _ => 0)
       128 crowded)
  = [].
Proof.
  apply (particles_expire flatNoise zeroSin oneCos peach (fun _ => 0)
           (fun _ => 0) 128 crowded 255).
  - lia.
  - change (inject_Z (Z.of_nat 128)) with 128. lra.
  - apply Forall_forall. intros p Hp.
    apply in_map_iff in Hp. destruct Hp as (k & <- & _).
    unfold freshParticle. cbn [life]. lra.
Defined.

(** ** Frames in a row *)

From Stdlib Require Import Qpower.

Lemma drawParticle_balanced (Math_cos : Q -> Q) (style : FlowerStyle)
    (part : Particle) :
  balanced (drawParticle Math_cos style part).
Proof.
  unfold drawParticle. destruct (type part); intro d; reflexivity.
Qed.

Lemma flat_map_balanced {A : Type} (f : A -> list Cmd) (l : list A) :
  (forall x, balanced (f x)) -> balanced (flat_map f l).
Proof.
  intro H. induction l as [|x l IH]; [apply balanced_nil|].
  cbn [flat_map]. apply balanced_app; [apply H | exact IH].
Qed.

Section Frames.

Variable noise : Q -> Q -> Q -> Q.
Variable Math_sin Math_cos : Q -> Q.
Variable Math_pow : Q -> Q -> Q.

Lemma drawForest_balanced (millis : Q) (trees : list TreeInstance)
    (angle : Q) (style : FlowerStyle) :
  forall w,
    balanced
      (fst (drawForest noise Math_sin Math_cos millis trees angle style w)).
Proof.
  induction trees as [|tree trees IH]; intro w; cbn [drawForest].
  - apply balanced_nil.
  - pose proof (renderBranch_balanced noise Math_sin Math_cos millis
                  (branch tree) (len (branch tree) * scale tree)
                  (thick (branch tree) * scale tree) angle
                  (width w * xRatio tree) (height w) 0 style (scale tree) w)
      as H1.
    destruct (renderBranch _ _ _ _ _ _ _ _ _ _ _ _ _ _) as [drawn w1].
    specialize (IH w1).
    destruct (drawForest _ _ _ _ _ _ _ _) as [rest w2].
    cbn [fst] in *. intro d.
    cbn [app stackAfter]. rewrite stackAfter_app, H1.
    cbn [app stackAfter]. apply IH.
Qed.

(** The steps of [p.draw], one after the other. *)
Lemma draw_steps (millis frameCount : Q) (host : Host) (w : World) :
  exists w0 angle trees w3 parts w',
    sceneFor host w = Some w0 /\
    drawForest noise Math_sin Math_cos millis
      (forest w0) angle (getFlowerStyle host)
      (smoothWind (windForce (getTreeState host))
         (smoothMood (mood (getTreeState host)) w0))
    = (trees, w3) /\
    updateParticles noise Math_sin Math_cos frameCount (currentWind w3)
      (getFlowerStyle host) w3
    = (parts, w') /\
    forest w3 = forest w0 /\ forest w' = forest w0 /\
    exists tint,
      draw noise Math_sin Math_cos Math_pow millis frameCount host w
      = Some (([Clear; Push; NoStroke] ++ [tint]
               ++ [Rect 0 0 (width w0) (height w0); Pop])
              ++ trees ++ parts, w') /\
      tint <> Push /\ tint <> Pop.
Proof.
  destruct (sceneFor_total host w) as (w0 & H0 & _ & _).
  exists w0. unfold draw. unfold sceneFor in H0. rewrite H0.
  set (w2 := smoothWind (windForce (getTreeState host))
               (smoothMood (mood (getTreeState host)) w0)).
  assert (F2 : forest w2 = forest w0).
  { subst w2. unfold smoothWind, smoothMood.
    now destruct (Qgeb _ _). }
  assert (W2 : width w2 = width w0 /\ height w2 = height w0).
  { subst w2. unfold smoothWind, smoothMood.
    now destruct (Qgeb _ _). }
  destruct W2 as [W2 H2]. rewrite F2.
  match goal with
  | |- context [drawForest _ _ _ _ _ ?a _ _] => exists a; set (angle := a)
  end.
  pose proof (drawForest_sameScene noise Math_sin Math_cos millis
                (forest w0) angle (getFlowerStyle host) w2)
    as (_ & _ & F3).
  destruct (drawForest _ _ _ _ _ _ _ _) as [trees w3] eqn:Et.
  pose proof (updateParticles_sameScene noise Math_sin Math_cos frameCount
                (currentWind w3) (getFlowerStyle host) w3)
    as ((_ & _ & F4) & _).
  destruct (updateParticles _ _ _ _ _ _ _) as [parts w4] eqn:Eu.
  cbn [snd] in *.
  exists trees, w3, parts, w4.
  split; [unfold sceneFor; exact H0|].
  split; [reflexivity|]. split; [exact Eu|].
  split; [congruence|]. split; [congruence|].
  rewrite W2, H2.
  destruct (Qgtb (currentMood w2) 0); eexists;
    (split; [reflexivity|]); split; discriminate.
Qed.

(** X19. A frame keeps the forest while the scene mode is the one it
    was built for, and replaces it by the forest [rebuildForest] lays out
    as soon as the host reports another mode; drawing and the particle
    system never touch it. *)
Theorem draw_rebuilds_on_mode_change (millis frameCount : Q) (host : Host)
    (w : World) :
  exists cmds w',
    draw noise Math_sin Math_cos Math_pow millis frameCount host w
    = Some (cmds, w') /\
    (getSceneMode host = currentSceneMode w -> forest w' = forest w) /\
    (getSceneMode host <> currentSceneMode w ->
     exists w0, rebuildForest host w = Some w0 /\ forest w' = forest w0).
Proof.
  destruct (draw_steps millis frameCount host w)
    as (w0 & angle & trees & w3 & parts & w' & H0 & _ & _ & _ & F
        & tint & Hd & _).
  eexists _, w'. split; [exact Hd|].
  unfold sceneFor in H0. split; intro Hm.
  - apply Z.eqb_eq in Hm. rewrite Hm in H0. cbn [negb] in H0.
    injection H0 as <-. exact F.
  - apply Z.eqb_neq in Hm. rewrite Hm in H0. cbn [negb] in H0.
    exists w0. split; [exact H0 | exact F].
Qed.

(** X20. A whole frame leaves the stack of saved transforms as it found
    it: in the commands of [p.draw] (background, trees, particles) every
    [Pop] closes a [Push] made before it and none is left open. *)
Theorem draw_balanced (millis frameCount : Q) (host : Host) (w : World) :
  exists cmds w',
    draw noise Math_sin Math_cos Math_pow millis frameCount host w
    = Some (cmds, w') /\
    forall d, stackAfter cmds d = Some d.
Proof.
  destruct (draw_steps millis frameCount host w)
    as (w0 & angle & trees & w3 & parts & w' & _ & Ht & Hp & _ & _
        & tint & Hd & T1 & T2).
  eexists _, w'. split; [exact Hd|].
  change (balanced
            (([Clear; Push; NoStroke] ++ [tint]
              ++ [Rect 0 0 (width w0) (height w0); Pop])
             ++ trees ++ parts)).
  apply balanced_app; [|apply balanced_app].
  - intro d. destruct tint; try congruence; reflexivity.
  - replace trees with (fst (trees, w3)) by reflexivity. rewrite <- Ht.
    apply drawForest_balanced.
  - replace parts with (fst (parts, w')) by reflexivity. rewrite <- Hp.
    rewrite updateParticles_draws_survivors.
    apply flat_map_balanced. intro p. apply drawParticle_balanced.
Qed.

Variable millisAt frameCountAt : nat -> Q.
Variable hostAt : nat -> Host.

(** [n] frames in a row; [hostAt k], [millisAt k] and [frameCountAt k]
    are what the host reports and the clock and frame count read during
    the frame of index [k]. *)
Fixpoint runFrames (n : nat) (w : World) : option World :=
  match n with
  | O => Some w
  | S k =>
      match runFrames k w with
      | None => None
      | Some w1 =>
          match draw noise Math_sin Math_cos Math_pow (millisAt k)
                     (frameCountAt k) (hostAt k) w1 with
          | None => None
          | Some (_, w2) => Some w2
          end
      end
  end.

(** X21. Over any number of frames the smoothed signals stay within the
    range of what they are fed: if every raw mood lies in [lo, hi] and the
    smoothed mood starts in [lo, hi], it is in [lo, hi] after every frame
    (in [-1, 1] for a host that keeps to [-1, 1]); likewise the wind. *)
Theorem runFrames_stays_in_range (n : nat) (w : World) (lo hi l h : Q) :
  (forall k, lo <= mood (getTreeState (hostAt k))
             /\ mood (getTreeState (hostAt k)) <= hi) ->
  (forall k, l <= windForce (getTreeState (hostAt k))
             /\ windForce (getTreeState (hostAt k)) <= h) ->
  lo <= currentMood w -> currentMood w <= hi ->
  l <= currentWind w -> currentWind w <= h ->
  exists w',
    runFrames n w = Some w' /\
    (lo <= currentMood w' /\ currentMood w' <= hi) /\
    (l <= currentWind w' /\ currentWind w' <= h).
Proof.
  intros Hm Hw M1 M2 W1 W2. induction n as [|n IH].
  - exists w. repeat split; assumption.
  - destruct IH as (w1 & R & [A1 A2] & [B1 B2]).
    cbn [runFrames]. rewrite R.
    destruct (draw_spec noise Math_sin Math_cos Math_pow (millisAt n)
                (frameCountAt n) (hostAt n) w1)
      as (cmds & w2 & Hd & Em & Ew & _).
    rewrite Hd. exists w2. split; [reflexivity|].
    destruct (Hm n) as [Hm1 Hm2]. destruct (Hw n) as [Hw1 Hw2].
    split.
    + rewrite Em, smoothMood_currentMood.
      destruct (Qgeb _ _); apply lerp_between; (assumption || lra).
    + rewrite Ew. apply lerp_between; (assumption || lra).
Qed.

(** X22. With the raw wind held at [raw], the distance of the smoothed
    wind to it shrinks by the factor 0.88 in every frame, on either side:
    after [n] frames it is the initial distance times [0.88 ^ n]. *)
Theorem runFrames_wind_converges (n : nat) (w : World) (raw : Q) :
  (forall k, windForce (getTreeState (hostAt k)) = raw) ->
  exists w',
    runFrames n w = Some w' /\
    currentWind w' - raw == (currentWind w - raw) * 0.88 ^ Z.of_nat n.
Proof.
  intro Hraw. induction n as [|n IH].
  - exists w. split; [reflexivity|]. cbn. ring.
  - destruct IH as (w1 & R & E).
    cbn [runFrames]. rewrite R.
    destruct (draw_spec noise Math_sin Math_cos Math_pow (millisAt n)
                (frameCountAt n) (hostAt n) w1)
      as (cmds & w2 & Hd & _ & Ew & _).
    rewrite Hd. exists w2. split; [reflexivity|].
    rewrite Ew, Hraw. unfold P5.lerp.
    rewrite Nat2Z.inj_succ, <- Z.add_1_r.
    rewrite Qpower_plus by discriminate.
    change (0.88 ^ 1) with 0.88.
    setoid_replace (0.12 * (raw - currentWind w1) + currentWind w1 - raw)
      with ((currentWind w1 - raw) * 0.88) by ring.
    rewrite E. ring.
Qed.

(** X23. With the raw mood held at [raw], the smoothed mood approaches
    it from the side it started on, without ever crossing it: from below
    the gap shrinks by the factor 0.9 in every frame, from above by the
    factor 0.97 (blooming is faster than withering). *)
Theorem runFrames_mood_converges (n : nat) (w : World) (raw : Q) :
  (forall k, mood (getTreeState (hostAt k)) = raw) ->
  exists w',
    runFrames n w = Some w' /\
    (currentMood w <= raw ->
     currentMood w' <= raw /\
     raw - currentMood w' == (raw - currentMood w) * 0.9 ^ Z.of_nat n) /\
    (raw < currentMood w ->
     raw < currentMood w' /\
     currentMood w' - raw == (currentMood w - raw) * 0.97 ^ Z.of_nat n).
Proof.
  intro Hraw. induction n as [|n IH].
  - exists w. split; [reflexivity|].
    split; intro H; (split; [exact H|]); cbn; ring.
  - destruct IH as (w1 & R & Hup & Hdown).
    cbn [runFrames]. rewrite R.
    destruct (draw_spec noise Math_sin Math_cos Math_pow (millisAt n)
                (frameCountAt n) (hostAt n) w1)
      as (cmds & w2 & Hd & Em & _).
    rewrite Hd. exists w2. split; [reflexivity|].
    rewrite smoothMood_currentMood, Hraw in Em. unfold Qgeb in Em.
    rewrite Nat2Z.inj_succ, <- Z.add_1_r.
    rewrite !Qpower_plus by discriminate.
    change (0.9 ^ 1) with 0.9. change (0.97 ^ 1) with 0.97.
    split; intro H.
    + destruct (Hup H) as [Hle E].
      apply Qle_bool_iff in Hle. rewrite Hle in Em.
      apply Qle_bool_iff in Hle.
      rewrite Em. unfold P5.lerp. split; [lra|].
      setoid_replace (raw - (0.1 * (raw - currentMood w1) + currentMood w1))
        with ((raw - currentMood w1) * 0.9) by ring.
      rewrite E. ring.
    + destruct (Hdown H) as [Hlt E].
      apply Qle_bool_gt in Hlt. rewrite Hlt in Em.
      apply Qle_bool_gt in Hlt.
      rewrite Em. unfold P5.lerp. split; [lra|].
      setoid_replace (0.03 * (raw - currentMood w1) + currentMood w1 - raw)
        with ((currentMood w1 - raw) * 0.97) by ring.
      rewrite E. ring.
Qed.

End Frames.

Lemma runFrames_stays_in_range_witness :
  exists w',
    runFrames flatNoise zeroSin oneCos (fun x _ => x) (fun _ => 0)
              (fun _ => 0) (fun _ => mkHost (mkTreeState 0.5 0.2) peach 1)
              3 initialWorld = Some w' /\
    (-1 <= currentMood w' /\ currentMood w' <= 1) /\
    (-1 <= currentWind w' /\ currentWind w' <= 1).
Proof.
  apply (runFrames_stays_in_range flatNoise zeroSin oneCos (fun x _ => x)
           (fun _ => 0) (fun _ => 0)
           (fun _ => mkHost (mkTreeState 0.5 0.2) peach 1)
           3 initialWorld (-1) 1 (-1) 1).
  - intro k. cbn. lra.
  - intro k. cbn. lra.
  - cbn. lra.
  - cbn. lra.
  - cbn. lra.
  - cbn. lra.
Defined.

Lemma runFrames_wind_converges_witness :
  exists w',
    runFrames flatNoise zeroSin oneCos (fun x _ => x) (fun _ => 0)
              (fun _ => 0) (fun _ => mkHost (mkTreeState 0.5 0.8) peach 1)
              3 initialWorld = Some w' /\
    currentWind w' - 0.8
    == (currentWind initialWorld - 0.8) * 0.88 ^ Z.of_nat 3.
Proof.
  apply (runFrames_wind_converges flatNoise zeroSin oneCos (fun x _ => x)
           (fun _ => 0) (fun _ => 0)
           (fun _ => mkHost (mkTreeState 0.5 0.8) peach 1)
           3 initialWorld 0.8).
  intro k. reflexivity.
Defined.

Lemma runFrames_mood_converges_witness :
  exists w',
    runFrames flatNoise zeroSin oneCos (fun x _ => x) (fun _ => 0)
              (fun _ => 0) (fun _ => mkHost (mkTreeState 0.5 0.8) peach 1)
              3 initialWorld = Some w' /\
    (currentMood initialWorld <= 0.5 ->
     currentMood w' <= 0.5 /\
     0.5 - currentMood w'
     == (0.5 - currentMood initialWorld) * 0.9 ^ Z.of_nat 3) /\
    (0.5 < currentMood initialWorld ->
     0.5 < currentMood w' /\
     currentMood w' - 0.5
     == (currentMood initialWorld - 0.5) * 0.97 ^ Z.of_nat 3).
Proof.
  apply (runFrames_mood_converges flatNoise zeroSin oneCos (fun x _ => x)
           (fun _ => 0) (fun _ => 0)
           (fun _ => mkHost (mkTreeState 0.5 0.8) peach 1)
           3 initialWorld 0.5).
  intro k. reflexivity.
Defined.

(** ** The flower shapes *)

(** The canvas calls of the shape helpers [drawFlowerShape] and
    [drawFlowerShapeWithAlpha], which the rest of the development records
    as single commands. *)
Inductive Prim : Type :=
  | P_noStroke | P_push | P_pop
  | P_rotate (a : Q)
  | P_fillColor (c : Color)
  | P_fill (r g b : Q) (alpha : option Q)
  | P_beginShape
  | P_vertex (x y : Q)
  | P_quadraticVertex (cx cy x y : Q)
  | P_bezierVertex (x2 y2 x3 y3 x4 y4 : Q)
  | P_endShapeClose
  | P_circle (x y d : Q)
  | P_ellipse (x y w h : Q).

(** The components of the palette colours, as [setup] creates them. *)
Definition red (c : Color) : Q :=
  match c with
  | COL_TRUNK_DORMANT => 35 | COL_TRUNK_THRIVE => 100
  | COL_LEAF_TENDER => 120 | COL_FLOWER_PINK => 255
  end.

Definition green (c : Color) : Q :=
  match c with
  | COL_TRUNK_DORMANT => 30 | COL_TRUNK_THRIVE => 70
  | COL_LEAF_TENDER => 210 | COL_FLOWER_PINK => 140
  end.

Definition blue (c : Color) : Q :=
  match c with
  | COL_TRUNK_DORMANT => 30 | COL_TRUNK_THRIVE => 50
  | COL_LEAF_TENDER => 100 | COL_FLOWER_PINK => 170
  end.

(** The loop [for (let i = 0; i < 5; i++)] around [body]. *)
Definition fiveTimes (body : Z -> list Prim) : list Prim :=
  flat_map body [0; 1; 2; 3; 4]%Z.

(** [drawFlowerShape(style, size)] *)
Definition drawFlowerShape (style : FlowerStyle) (size : Q) : list Prim :=
  P_noStroke ::
  match style with
  | sakura =>
      [P_fillColor COL_FLOWER_PINK]
      ++ fiveTimes
           (fun i =>
              let pLen := size * 0.85 in
              let pWidth := size * 0.45 in
              [P_push; P_rotate (TWO_PI / 5 * inject_Z i);
               P_beginShape; P_vertex 0 0;
               P_quadraticVertex (- pWidth) (- pLen * 0.5) 0 (- pLen);
               P_quadraticVertex pWidth (- pLen * 0.5) 0 0;
               P_endShapeClose; P_pop])
      ++ [P_fill 255 255 255 (Some 220); P_circle 0 0 (size * 0.2)]
  | delonix =>
      [P_fillColor COL_FLOWER_PINK]
      ++ fiveTimes
           (fun i =>
              let totalLen := size * 0.95 in
              let headWidth := size * 0.35 in
              let headHeight := size * 0.4 in
              let stemLen := totalLen - headHeight * 0.8 in
              let stemHalfWidth := size * 0.04 in
              [P_push; P_rotate (TWO_PI / 5 * inject_Z i);
               P_beginShape; P_vertex 0 0;
               P_vertex (- stemHalfWidth) (- stemLen);
               P_bezierVertex (- headWidth) (- stemLen - headHeight * 0.2)
                              (- headWidth) (- totalLen) 0 (- totalLen);
               P_bezierVertex headWidth (- totalLen)
                              headWidth (- stemLen - headHeight * 0.2)
                              stemHalfWidth (- stemLen);
               P_vertex 0 0;
               P_endShapeClose; P_pop])
      ++ [P_fill 255 200 100 (Some 150); P_circle 0 0 (size * 0.15)]
  | peach =>
      [P_fillColor COL_FLOWER_PINK]
      ++ fiveTimes
           (fun i =>
              [P_rotate (TWO_PI / 5);
               P_ellipse 0 (size * 0.4) (size * 0.5) (size * 0.6)])
      ++ [P_fill 255 220 100 None; P_circle 0 0 (size * 0.3)]
  end.

(** [drawFlowerShapeWithAlpha(style, size, alpha)] *)
Definition drawFlowerShapeWithAlpha (style : FlowerStyle) (size alpha : Q)
    : list Prim :=
  [P_noStroke;
   P_fill (red COL_FLOWER_PINK) (green COL_FLOWER_PINK)
          (blue COL_FLOWER_PINK) (Some alpha)]
  ++ match style with
     | sakura =>
         fiveTimes
           (fun i =>
              let pLen := size * 0.85 in
              let pWidth := size * 0.45 in
              [P_push; P_rotate (TWO_PI / 5 * inject_Z i);
               P_beginShape; P_vertex 0 0;
               P_quadraticVertex (- pWidth) (- pLen * 0.5) 0 (- pLen);
               P_quadraticVertex pWidth (- pLen * 0.5) 0 0;
               P_endShapeClose; P_pop])
         ++ [P_fill 255 255 255 (Some alpha); P_circle 0 0 (size * 0.2)]
     | delonix =>
         fiveTimes
           (fun i =>
              let totalLen := size * 0.95 in
              let headWidth := size * 0.35 in
              let headHeight := size * 0.4 in
              let stemLen := totalLen - headHeight * 0.8 in
              let stemHalfWidth := size * 0.04 in
              [P_push; P_rotate (TWO_PI / 5 * inject_Z i);
               P_beginShape; P_vertex 0 0;
               P_vertex (- stemHalfWidth) (- stemLen);
               P_bezierVertex (- headWidth) (- stemLen - headHeight * 0.2)
                              (- headWidth) (- totalLen) 0 (- totalLen);
               P_bezierVertex headWidth (- totalLen)
                              headWidth (- stemLen - headHeight * 0.2)
                              stemHalfWidth (- stemLen);
               P_vertex 0 0;
               P_endShapeClose; P_pop])
         ++ [P_fill 255 200 100 (Some (alpha * 0.6));
             P_circle 0 0 (size * 0.15)]
     | peach =>
         fiveTimes
           (fun i =>
              [P_rotate (TWO_PI / 5);
               P_ellipse 0 (size * 0.4) (size * 0.5) (size * 0.6)])
         ++ [P_fill 255 220 100 (Some alpha); P_circle 0 0 (size * 0.3)]
     end.

Definition isFillPrim (p : Prim) : bool :=
  match p with
  | P_fillColor _ | P_fill _ _ _ _ => true
  | _ => false
  end.

(** What is drawn, the choice of fill colours left out. *)
Definition geometry (prims : list Prim) : list Prim :=
  filter (fun p => negb (isFillPrim p)) prims.

(** The sum of the rotations made outside any [push] ... [pop] pair: the
    rotation the calls leave behind them. *)
Fixpoint rotationLeft (prims : list Prim) (d : nat) : Q :=
  match prims with
  | [] => 0
  | P_push :: rest => rotationLeft rest (S d)
  | P_pop :: rest => rotationLeft rest (Nat.pred d)
  | P_rotate a :: rest =>
      match d with
      | O => a + rotationLeft rest d
      | S _ => rotationLeft rest d
      end
  | _ :: rest => rotationLeft rest d
  end.

Definition isPetalShape (p : Prim) : bool :=
  match p with
  | P_endShapeClose | P_ellipse _ _ _ _ => true
  | _ => false
  end.

(** X24. A falling flower has the shape of an attached one: for every
    style, size and alpha, [drawFlowerShapeWithAlpha] issues the same
    drawing calls as [drawFlowerShape], fills apart, namely five petals
    and a centre disc.  The sakura and delonix petals are each drawn inside
    their own push and pop; the peach petals are turned in place, five
    turns of [TWO_PI / 5] that add up to one full turn left behind. *)
Theorem flower_shapes_agree (style : FlowerStyle) (size alpha : Q) :
  geometry (drawFlowerShapeWithAlpha style size alpha)
  = geometry (drawFlowerShape style size) /\
  length (filter isPetalShape (drawFlowerShape style size)) = 5%nat /\
  rotationLeft (drawFlowerShape style size) 0
  == match style with
     | peach => TWO_PI
     | _ => 0
     end.
Proof.
  split; [|split].
  - destruct style;
      cbv [geometry drawFlowerShapeWithAlpha drawFlowerShape fiveTimes
           flat_map app filter isFillPrim negb];
      reflexivity.
  - destruct style;
      cbv [drawFlowerShape fiveTimes flat_map app filter isPetalShape
           length];
      reflexivity.
  - destruct style;
      cbv [drawFlowerShape fiveTimes flat_map app rotationLeft Nat.pred];
      [field | reflexivity | reflexivity].
Qed.

(** ** The host of the sketch: the vision service and the main loop *)

From Stdlib Require Import String.

(** One blendshape category of a face result. *)
Record Category : Type := mkCategory { categoryName : string; score : Q }.

(** What [faceLandmarker.detectForVideo] did on the frame: it threw, or
    it returned a result whose [faceBlendshapes] may be missing and whose
    entries may lack their [categories]. *)
Inductive FaceOutcome : Type :=
  | FaceThrows
  | FaceResult (faceBlendshapes : option (list (option (list Category)))).

(** What [gestureRecognizer.recognizeForVideo] did: it threw, or it
    returned a result whose [landmarks], when present, lists for every
    hand the [x] coordinates of its landmarks, the wrist first. *)
Inductive GestureOutcome : Type :=
  | GestureThrows
  | GestureResult (landmarks : option (list (list Q))).

Record Video : Type := mkVideo {
  currentTime : Q;
  videoWidth : Z;
  videoHeight : Z
}.

Record VisionData : Type := mkVisionData {
  moodScore : Q;
  movementScore : Q
}.

(** The module-level variables of the vision service: whether each model
    is loaded, the time of the last frame analysed and the last wrist
    position. *)
Record VisionState : Type := mkVisionState {
  faceLandmarker : bool;
  gestureRecognizer : bool;
  lastVideoTime : Q;
  lastHandX : Q
}.

(** [shapes.find((s) => s.categoryName === name)?.score || 0] *)
Definition scoreOf (shapes : list Category) (name : string) : Q :=
  match find (fun s => String.eqb (categoryName s) name) shapes with
  | Some s => score s
  | None => 0
  end.

Definition smileAvgOf (shapes : list Category) : Q :=
  (scoreOf shapes "mouthSmileLeft" + scoreOf shapes "mouthSmileRight") / 2.

Definition frownAvgOf (shapes : list Category) : Q :=
  (scoreOf shapes "mouthFrownLeft" + scoreOf shapes "mouthFrownRight") / 2.

(** The face part of [analyzeFrame]: the mood score it leaves. *)
Definition faceAnalysis (face : FaceOutcome) : Q :=
  let moodScore := 0 in
  match face with
  | FaceThrows => moodScore
  | FaceResult (Some (Some shapes :: _)) =>
      let smileAvg := smileAvgOf shapes in
      let frownAvg := frownAvgOf shapes in
      let THRESHOLD := 0.005 in
      if Qgtb smileAvg THRESHOLD
      then Math_min ((smileAvg - THRESHOLD) * 40.0) 1
      else if Qgtb frownAvg THRESHOLD
      then - Math_min ((frownAvg - THRESHOLD) * 40.0) 1
      else 0
  | FaceResult _ => moodScore
  end.

(** The hand part of [analyzeFrame]: the movement score and the wrist
    position it leaves.  Reading [x] of a missing wrist throws; the
    [catch] leaves both as they were. *)
Definition gestureAnalysis (gesture : GestureOutcome) (lastHandX : Q)
    : Q * Q :=
  let movementScore := 0 in
  match gesture with
  | GestureThrows => (movementScore, lastHandX)
  | GestureResult (Some (hand :: _)) =>
      match hand with
      | [] => (movementScore, lastHandX)
      | currentX :: _ =>
          let deltaX := currentX - lastHandX in
          let speed := Qabs deltaX in
          let movementScore :=
            if Qgtb speed 0.0005
            then Math_max (-1) (Math_min (deltaX * 150) 1)
            else movementScore in
          (movementScore, currentX)
      end
  | GestureResult _ => (0, lastHandX)
  end.

(** [analyzeFrame(video)], given what the two models do on the frame. *)
Definition analyzeFrame (video : Video) (face : FaceOutcome)
    (gesture : GestureOutcome) (st : VisionState)
    : VisionData * VisionState :=
  if negb (faceLandmarker st)
     || negb (gestureRecognizer st)
     || Qeq_bool (currentTime video) (lastVideoTime st)
     || (videoWidth video =? 0)%Z
     || (videoHeight video =? 0)%Z
  then (mkVisionData 0 0, st)
  else
    let moodScore := faceAnalysis face in
    let '(movementScore, handX) := gestureAnalysis gesture (lastHandX st) in
    (mkVisionData moodScore movementScore,
     mkVisionState (faceLandmarker st) (gestureRecognizer st)
                   (currentTime video) handX).

Inductive InteractionMode : Type := click | smile | forever.

(** The state of [App] that the main loop reads and writes. *)
Record App : Type := mkApp {
  interactionMode : InteractionMode;
  isLooping : bool;
  clickMood : Q;
  treeState : TreeState
}.

(** [mainLoop]: one turn.  [now] is [performance.now()]; [cameraLive]
    says whether the video is playing from a live stream. *)
Definition mainLoop (Math_sin : Q -> Q) (now : Q) (cameraLive : bool)
    (video : Video) (face : FaceOutcome) (gesture : GestureOutcome)
    (app : App) (vs : VisionState) : App * VisionState :=
  if negb (isLooping app) then (app, vs)
  else
    match interactionMode app with
    | forever =>
        let time := now * 0.001 in
        let oscillation := Math_sin (time * 0.8) in
        let targetMood := 0.6 + (0.4 * (oscillation + 1) / 2) in
        let gentleWind := 0.15 * Math_sin (time * 0.3) in
        (mkApp (interactionMode app) (isLooping app) (clickMood app)
               (mkTreeState targetMood gentleWind), vs)
    | smile =>
        if cameraLive then
          let '(data, vs') := analyzeFrame video face gesture vs in
          (mkApp (interactionMode app) (isLooping app) (clickMood app)
                 (mkTreeState (moodScore data) (movementScore data)), vs')
        else
          (mkApp (interactionMode app) (isLooping app) (clickMood app)
                 (mkTreeState (-0.5) 0), vs)
    | click =>
        let DECAY_RATE := 0.0015 in
        let m := clickMood app in
        let m := if Qgtb m (-1) then m - DECAY_RATE else m in
        let m := if Qltb m (-1) then -1 else m in
        (mkApp (interactionMode app) (isLooping app) m (mkTreeState m 0), vs)
    end.

(** [handleScreenClick] *)
Definition handleScreenClick (app : App) : App :=
  match interactionMode app with
  | click =>
      let BOOST := 0.7 in
      mkApp (interactionMode app) (isLooping app)
            (Math_min (clickMood app + BOOST) 1.0) (treeState app)
  | _ => app
  end.

Lemma faceAnalysis_range (face : FaceOutcome) :
  -1 <= faceAnalysis face /\ faceAnalysis face <= 1.
Proof.
  unfold faceAnalysis.
  destruct face as [|[[|[shapes|] rest]|]]; try (split; lra).
  set (s := smileAvgOf shapes). set (f := frownAvgOf shapes).
  destruct (Qgtb s 0.005) eqn:Es.
  - apply Qgtb_gt in Es.
    destruct (Math_min_spec ((s - 0.005) * 40.0) 1) as [[H E]|[H E]];
      rewrite E; split; lra.
  - destruct (Qgtb f 0.005) eqn:Ef; [|split; lra].
    apply Qgtb_gt in Ef.
    destruct (Math_min_spec ((f - 0.005) * 40.0) 1) as [[H E]|[H E]];
      rewrite E; split; lra.
Qed.

Lemma clamp_unit (x : Q) :
  -1 <= Math_max (-1) (Math_min x 1) /\ Math_max (-1) (Math_min x 1) <= 1.
Proof.
  destruct (Math_min_spec x 1) as [[H1 E1]|[H1 E1]];
    destruct (Math_max_spec (-1) (Math_min x 1)) as [[H2 E2]|[H2 E2]];
    rewrite E2; try rewrite E1 in H2; try rewrite E1; split; lra.
Qed.

Lemma gestureAnalysis_range (gesture : GestureOutcome) (x0 : Q) :
  -1 <= fst (gestureAnalysis gesture x0)
  /\ fst (gestureAnalysis gesture x0) <= 1.
Proof.
  unfold gestureAnalysis.
  destruct gesture as [|[[|[|x hand] rest]|]]; cbn [fst]; try (split; lra).
  destruct (Qgtb _ _); [apply clamp_unit | split; lra].
Qed.

Lemma analyzeFrame_range (video : Video) (face : FaceOutcome)
    (gesture : GestureOutcome) (st : VisionState) :
  (-1 <= moodScore (fst (analyzeFrame video face gesture st)) /\
   moodScore (fst (analyzeFrame video face gesture st)) <= 1) /\
  (-1 <= movementScore (fst (analyzeFrame video face gesture st)) /\
   movementScore (fst (analyzeFrame video face gesture st)) <= 1).
Proof.
  unfold analyzeFrame.
  destruct (_ || _); [cbn; split; split; lra|].
  pose proof (faceAnalysis_range face) as Hf.
  pose proof (gestureAnalysis_range gesture (lastHandX st)) as Hg.
  destruct (gestureAnalysis gesture (lastHandX st)) as [mv hx].
  cbn [fst moodScore movementScore] in *. split; assumption.
Qed.

(** X25. Whatever the two models return or throw on a frame, and
    whatever frames came before, [analyzeFrame] yields a mood score and a
    movement score that both lie in [-1, 1]. *)
Theorem analyzeFrame_scores_in_range (video : Video) (face : FaceOutcome)
    (gesture : GestureOutcome) (st : VisionState) :
  let data := fst (analyzeFrame video face gesture st) in
  -1 <= moodScore data <= 1 /\ -1 <= movementScore data <= 1.
Proof.
  cbv zeta. exact (analyzeFrame_range video face gesture st).
Qed.

(** X26. [analyzeFrame] answers {0, 0} and leaves its own state alone
    when a model is not loaded, when the video has no size, or when the
    frame has the time of the last one analysed; so a second call on the
    same frame always answers {0, 0}, whatever the first call did. *)
Theorem analyzeFrame_skips_repeats (video : Video)
    (face face' : FaceOutcome) (gesture gesture' : GestureOutcome)
    (st : VisionState) :
  (faceLandmarker st = false \/ gestureRecognizer st = false
   \/ currentTime video == lastVideoTime st
   \/ videoWidth video = 0%Z \/ videoHeight video = 0%Z ->
   analyzeFrame video face gesture st = (mkVisionData 0 0, st)) /\
  analyzeFrame video face' gesture'
    (snd (analyzeFrame video face gesture st))
  = (mkVisionData 0 0, snd (analyzeFrame video face gesture st)).
Proof.
  assert (G : forall f g s,
             negb (faceLandmarker s) || negb (gestureRecognizer s)
             || Qeq_bool (currentTime video) (lastVideoTime s)
             || (videoWidth video =? 0)%Z || (videoHeight video =? 0)%Z
             = true ->
             analyzeFrame video f g s = (mkVisionData 0 0, s)).
  { intros f g s H. unfold analyzeFrame. now rewrite H. }
  split.
  - intro H. apply G.
    destruct H as [H|[H|[H|[H|H]]]].
    + rewrite H. reflexivity.
    + rewrite H. cbn [negb]. now rewrite orb_true_r.
    + apply Qeq_bool_iff in H. rewrite H. now rewrite !orb_true_r.
    + rewrite H. cbn [Z.eqb]. now rewrite !orb_true_r.
    + rewrite H. cbn [Z.eqb]. now rewrite !orb_true_r.
  - apply G. unfold analyzeFrame.
    destruct (negb (faceLandmarker st) || negb (gestureRecognizer st)
              || Qeq_bool (currentTime video) (lastVideoTime st)
              || (videoWidth video =? 0)%Z || (videoHeight video =? 0)%Z)
      eqn:E.
    + exact E.
    + destruct (gestureAnalysis gesture (lastHandX st)) as [mv hx].
      cbn [snd faceLandmarker gestureRecognizer lastVideoTime].
      rewrite !orb_false_iff in E.
      destruct E as ((((E1 & E2) & _) & E4) & E5).
      rewrite E1, E2, E4, E5.
      assert (E3 : Qeq_bool (currentTime video) (currentTime video) = true)
        by (apply Qeq_bool_iff; reflexivity).
      rewrite E3. reflexivity.
Qed.

(** X27. The face decides the mood by its smile first: a smile above
    the threshold gives a positive mood whatever the frown is, a frown
    counts only under a smile at or below the threshold and then gives a
    negative mood, and either saturates at an average of 0.03. *)
Theorem smile_outweighs_frown (shapes : list Category)
    (rest : list (option (list Category))) :
  let m := faceAnalysis (FaceResult (Some (Some shapes :: rest))) in
  (0.005 < smileAvgOf shapes -> 0 < m) /\
  (0.03 <= smileAvgOf shapes -> m == 1) /\
  (smileAvgOf shapes <= 0.005 -> 0.005 < frownAvgOf shapes -> m < 0) /\
  (smileAvgOf shapes <= 0.005 -> 0.03 <= frownAvgOf shapes -> m == -1) /\
  (smileAvgOf shapes <= 0.005 -> frownAvgOf shapes <= 0.005 -> m == 0).
Proof.
  cbv zeta. unfold faceAnalysis.
  set (s := smileAvgOf shapes). set (f := frownAvgOf shapes).
  assert (Hs : forall b, Qgtb s 0.005 = b ->
                         if b then 0.005 < s else s <= 0.005).
  { intros [|] E; [now apply Qgtb_gt|].
    apply Qnot_lt_le. intro H. apply Qgtb_gt in H. congruence. }
  assert (Hf : forall b, Qgtb f 0.005 = b ->
                         if b then 0.005 < f else f <= 0.005).
  { intros [|] E; [now apply Qgtb_gt|].
    apply Qnot_lt_le. intro H. apply Qgtb_gt in H. congruence. }
  specialize (Hs _ eq_refl). specialize (Hf _ eq_refl).
  destruct (Qgtb s 0.005); [|destruct (Qgtb f 0.005)].
  - destruct (Math_min_spec ((s - 0.005) * 40.0) 1) as [[H E]|[H E]];
      rewrite E; repeat split; intros; lra.
  - destruct (Math_min_spec ((f - 0.005) * 40.0) 1) as [[H E]|[H E]];
      rewrite E; repeat split; intros; lra.
  - repeat split; intros; lra.
Qed.

(** X28. The wrist is followed frame by frame: a step of at most 0.0005
    gives no movement, a larger step gives a movement of its own sign
    that saturates at a step of 1/150, and in every case the new wrist
    position replaces the old one, so that steps never add up. *)
Theorem wrist_step_decides_wind (currentX : Q) (hand : list Q)
    (rest : list (list Q)) (x0 : Q) :
  let r := gestureAnalysis
             (GestureResult (Some ((currentX :: hand) :: rest))) x0 in
  snd r = currentX /\
  (Qabs (currentX - x0) <= 0.0005 -> fst r == 0) /\
  (0.0005 < currentX - x0 -> 0 < fst r) /\
  (currentX - x0 < - 0.0005 -> fst r < 0) /\
  (1 # 150 <= currentX - x0 -> fst r == 1) /\
  (currentX - x0 <= - (1 # 150) -> fst r == -1).
Proof.
  cbv zeta. unfold gestureAnalysis. cbn [fst snd].
  split; [reflexivity|].
  set (d := currentX - x0).
  assert (Hd : forall b, Qgtb (Qabs d) 0.0005 = b ->
                         if b then 0.0005 < Qabs d else Qabs d <= 0.0005).
  { intros [|] E; [now apply Qgtb_gt|].
    apply Qnot_lt_le. intro H. apply Qgtb_gt in H. congruence. }
  specialize (Hd _ eq_refl).
  assert (Ha : (0 <= d /\ Qabs d == d) \/ (d < 0 /\ Qabs d == - d)).
  { destruct (Qlt_le_dec d 0) as [H|H].
    - right. split; [exact H|]. apply Qabs_neg. lra.
    - left. split; [exact H|]. now apply Qabs_pos. }
  destruct (Qgtb (Qabs d) 0.0005).
  - destruct (Math_min_spec (d * 150) 1) as [[H1 E1]|[H1 E1]];
      destruct (Math_max_spec (-1) (Math_min (d * 150) 1))
        as [[H2 E2]|[H2 E2]];
      rewrite E2; try rewrite E1 in H2; try rewrite E1;
      destruct Ha as [[Ha1 Ha2]|[Ha1 Ha2]]; rewrite Ha2 in Hd;
      repeat split; intros; try rewrite Ha2 in *; lra.
  - destruct Ha as [[Ha1 Ha2]|[Ha1 Ha2]]; rewrite Ha2 in Hd;
      repeat split; intros; try rewrite Ha2 in *; lra.
Qed.

(** What the page does to the host: an animation frame runs [mainLoop]
    with what it reads on that turn, a click on the screen runs
    [handleScreenClick]. *)
Inductive HostEvent : Type :=
  | AnimationFrame (now : Q) (cameraLive : bool) (video : Video)
                   (face : FaceOutcome) (gesture : GestureOutcome)
  | ScreenClick.

Definition hostStep (Math_sin : Q -> Q) (s : App * VisionState)
    (e : HostEvent) : App * VisionState :=
  match e with
  | AnimationFrame now cameraLive video face gesture =>
      mainLoop Math_sin now cameraLive video face gesture (fst s) (snd s)
  | ScreenClick => (handleScreenClick (fst s), snd s)
  end.

Definition hostRun (Math_sin : Q -> Q) (events : list HostEvent)
    (s : App * VisionState) : App * VisionState :=
  fold_left (hostStep Math_sin) events s.

(** The values [App] starts with. *)
Definition initialApp : App :=
  mkApp click true (-1) (mkTreeState (-1) 0).

Definition initialVision : VisionState := mkVisionState false false (-1) 0.

Definition inUnit (x : Q) : Prop := -1 <= x /\ x <= 1.

Definition appInRange (app : App) : Prop :=
  inUnit (clickMood app)
  /\ inUnit (mood (treeState app))
  /\ inUnit (windForce (treeState app)).

Lemma mainLoop_inRange (Math_sin : Q -> Q) now cameraLive video face
    gesture app vs :
  (forall x, -1 <= Math_sin x /\ Math_sin x <= 1) ->
  appInRange app ->
  appInRange
    (fst (mainLoop Math_sin now cameraLive video face gesture app vs)).
Proof.
  intros Hsin (Hc & Hm & Hw). unfold mainLoop.
  destruct (isLooping app); cbn [negb];
    [|cbn [fst]; unfold appInRange; tauto].
  destruct (interactionMode app).
  - cbn [fst]. unfold appInRange, inUnit in *.
    cbn [clickMood treeState mood windForce].
    set (m := clickMood app) in *.
    destruct (Qgtb m (-1)) eqn:E1.
    + apply Qgtb_gt in E1.
      destruct (Qltb (m - 0.0015) (-1)) eqn:E2.
      * repeat split; lra.
      * assert (-1 <= m - 0.0015).
        { apply Qnot_lt_le. intro H. apply Qgtb_gt in H.
          unfold Qgtb in H. congruence. }
        repeat split; lra.
    + destruct (Qltb m (-1)) eqn:E2; repeat split; lra.
  - destruct cameraLive.
    + pose proof (analyzeFrame_range video face gesture vs) as Hr.
      destruct (analyzeFrame video face gesture vs) as [data vs'].
      cbn [fst] in *. unfold appInRange, inUnit.
      cbn [clickMood treeState mood windForce].
      destruct Hr as [[Hr1 Hr2] [Hr3 Hr4]].
      destruct Hc as [Hc1 Hc2]. repeat split; assumption.
    + cbn [fst]. unfold appInRange, inUnit in *.
      cbn [clickMood treeState mood windForce]. repeat split; lra.
  - cbn [fst]. unfold appInRange, inUnit in *.
    cbn [clickMood treeState mood windForce].
    pose proof (Hsin (now * 0.001 * 0.8)) as [H1 H2].
    pose proof (Hsin (now * 0.001 * 0.3)) as [H3 H4].
    set (a := Math_sin (now * 0.001 * 0.8)) in *.
    set (b := Math_sin (now * 0.001 * 0.3)) in *.
    assert (E : 0.6 + 0.4 * (a + 1) / 2 == 0.8 + 0.2 * a) by field.
    rewrite E. repeat split; lra.
Qed.

Lemma handleScreenClick_inRange (app : App) :
  appInRange app -> appInRange (handleScreenClick app).
Proof.
  intros (Hc & Hm & Hw). unfold handleScreenClick.
  destruct (interactionMode app); try (unfold appInRange; tauto).
  unfold appInRange, inUnit in *. cbn [clickMood treeState].
  destruct (Math_min_spec (clickMood app + 0.7) 1.0) as [[H E]|[H E]];
    rewrite E; repeat split; lra.
Qed.

(** X29. Whatever the page does, the host keeps its signals in range:
    from the values [App] starts with, after any sequence of animation
    frames and clicks, in any mode, the click mood and the mood and wind
    handed to the sketch lie in [-1, 1], as long as the sine does. *)
Theorem host_keeps_signals_in_range (Math_sin : Q -> Q)
    (events : list HostEvent) (app : App) (vs : VisionState)
    (Hsin : forall x, -1 <= Math_sin x /\ Math_sin x <= 1)
    (Hstart : appInRange app) :
  appInRange initialApp /\
  appInRange (fst (hostRun Math_sin events (app, vs))).
Proof.
  split.
  - unfold appInRange, inUnit, initialApp.
    cbn [clickMood treeState mood windForce]. repeat split; lra.
  - unfold hostRun. revert app vs Hstart.
    induction events as [|e events IH]; intros app vs Hstart.
    + exact Hstart.
    + cbn [fold_left].
      destruct (hostStep Math_sin (app, vs) e) as [app' vs'] eqn:E.
      apply IH.
      destruct e as [now cameraLive video face gesture|];
        cbn [hostStep fst snd] in E.
      * pose proof (mainLoop_inRange Math_sin now cameraLive video face
                      gesture app vs Hsin Hstart) as H.
        now rewrite E in H.
      * injection E as <- <-. now apply handleScreenClick_inRange.
Qed.

Definition isAnimationFrame (e : HostEvent) : bool :=
  match e with AnimationFrame _ _ _ _ _ => true | ScreenClick => false end.

Lemma mainLoop_click (Math_sin : Q -> Q) now cameraLive video face
    gesture app vs :
  interactionMode app = click -> isLooping app = true ->
  -1 <= clickMood app ->
  let app' :=
    fst (mainLoop Math_sin now cameraLive video face gesture app vs) in
  interactionMode app' = click /\ isLooping app' = true
  /\ clickMood app' == Math_max (clickMood app - 0.0015) (-1)
  /\ mood (treeState app') = clickMood app'
  /\ windForce (treeState app') = 0.
Proof.
  intros Hm Hl Hc. cbv zeta. unfold mainLoop. rewrite Hl, Hm.
  cbn [negb fst interactionMode isLooping clickMood treeState mood windForce].
  split; [reflexivity|]. split; [reflexivity|].
  split; [|split; reflexivity].
  set (m := clickMood app) in *.
  destruct (Math_max_spec (m - 0.0015) (-1)) as [[H E]|[H E]]; rewrite E.
  - destruct (Qgtb m (-1)) eqn:E1.
    + destruct (Qltb (m - 0.0015) (-1)) eqn:E2; [reflexivity|].
      assert (-1 <= m - 0.0015); [|lra].
      apply Qnot_lt_le. intro H'. apply Qgtb_gt in H'.
      unfold Qgtb in H'. congruence.
    + assert (m <= -1).
      { apply Qnot_lt_le. intro H'. apply Qgtb_gt in H'. congruence. }
      destruct (Qltb m (-1)); lra.
  - destruct (Qgtb m (-1)) eqn:E1.
    + destruct (Qltb (m - 0.0015) (-1)) eqn:E2; [|reflexivity].
      apply Qgtb_gt in E2. lra.
    + assert (m <= -1).
      { apply Qnot_lt_le. intro H'. apply Qgtb_gt in H'. congruence. }
      lra.
Qed.

(** X30. In click mode the mood falls by 0.0015 on every animation frame
    down to -1 and no further: after n frames without a click it is
    max(m - 0.0015 n, -1), the same value is handed to the sketch with no
    wind, and once n reaches (m + 1) / 0.0015 the mood is back at -1. *)
Theorem click_mood_decays (Math_sin : Q -> Q) (events : list HostEvent)
    (app : App) (vs : VisionState)
    (Hmode : interactionMode app = click)
    (Hloop : isLooping app = true)
    (Hlow : -1 <= clickMood app)
    (Hframes : forallb isAnimationFrame events = true) :
  let n := inject_Z (Z.of_nat (List.length events)) in
  let app' := fst (hostRun Math_sin events (app, vs)) in
  clickMood app' == Math_max (clickMood app - 0.0015 * n) (-1) /\
  (events <> [] -> mood (treeState app') = clickMood app'
                   /\ windForce (treeState app') = 0) /\
  (clickMood app + 1 <= 0.0015 * n -> clickMood app' == -1).
Proof.
  cbv zeta.
  assert (M : forall x, -1 <= x -> Math_max x (-1) == x).
  { intros x Hx. destruct (Math_max_spec x (-1)) as [[H E]|[H E]];
      rewrite E; lra. }
  assert (Main :
    clickMood (fst (hostRun Math_sin events (app, vs)))
    == Math_max
         (clickMood app - 0.0015 * inject_Z (Z.of_nat (List.length events)))
         (-1) /\
    (events <> [] ->
     mood (treeState (fst (hostRun Math_sin events (app, vs))))
     = clickMood (fst (hostRun Math_sin events (app, vs)))
     /\ windForce (treeState (fst (hostRun Math_sin events (app, vs))))
        = 0)).
  { unfold hostRun. revert app vs Hmode Hloop Hlow Hframes.
    induction events as [|e events IH]; intros app vs Hmode Hloop Hlow Hframes.
    - cbn [fold_left fst List.length Z.of_nat]. split; [|congruence].
      rewrite M; [|change (inject_Z 0) with 0; lra].
      change (inject_Z 0) with 0. lra.
    - cbn [forallb] in Hframes. apply andb_true_iff in Hframes.
      destruct Hframes as [He Hframes].
      destruct e as [now cameraLive video face gesture|];
        [|discriminate He].
      cbn [fold_left hostStep fst snd].
      pose proof (mainLoop_click Math_sin now cameraLive video face gesture
                    app vs Hmode Hloop Hlow) as Hstep.
      cbv zeta in Hstep.
      destruct (mainLoop Math_sin now cameraLive video face gesture app vs)
        as [app1 vs1].
      cbn [fst] in Hstep. destruct Hstep as (Hm1 & Hl1 & Hc1 & Ht1 & Hw1).
      assert (Hlow1 : -1 <= clickMood app1).
      { rewrite Hc1.
        destruct (Math_max_spec (clickMood app - 0.0015) (-1))
          as [[H E]|[H E]]; rewrite E; lra. }
      destruct (IH app1 vs1 Hm1 Hl1 Hlow1 Hframes) as [IH1 IH2].
      split.
      + rewrite IH1. cbn [List.length]. rewrite Nat2Z.inj_succ.
        unfold Z.succ. rewrite inject_Z_plus.
        change (inject_Z 1) with 1.
        assert (Hn : 0 <= inject_Z (Z.of_nat (List.length events))).
        { change 0 with (inject_Z 0). rewrite <- Zle_Qle. lia. }
        set (k := inject_Z (Z.of_nat (List.length events))) in *.
        set (m := clickMood app) in *. set (m1 := clickMood app1) in *.
        destruct (Math_max_spec (m - 0.0015) (-1)) as [[H E]|[H E]];
          rewrite E in Hc1;
          destruct (Math_max_spec (m1 - 0.0015 * k) (-1))
            as [[H1 E1]|[H1 E1]]; rewrite E1;
          destruct (Math_max_spec (m - 0.0015 * (k + 1)) (-1))
            as [[H2 E2]|[H2 E2]]; rewrite E2; nra.
      + intros _. destruct events as [|e' events'].
        * cbn [fold_left fst]. split; assumption.
        * apply IH2. discriminate. }
  destruct Main as [Main1 Main2].
  split; [exact Main1|]. split; [exact Main2|].
  intro H. rewrite Main1.
  destruct (Math_max_spec
              (clickMood app
               - 0.0015 * inject_Z (Z.of_nat (List.length events))) (-1))
    as [[H1 E1]|[H1 E1]]; rewrite E1; lra.
Qed.

(** Sample input of the host: a frame of a 640 by 480 video on which both
    models throw, and a short history of the page. *)
Definition plainFrame (now : Q) : HostEvent :=
  AnimationFrame now true (mkVideo now 640 480) FaceThrows GestureThrows.

Definition clickThenWait : list HostEvent :=
  [ScreenClick; plainFrame 16; ScreenClick; plainFrame 33].

Definition twoFrames : list HostEvent := [plainFrame 16; plainFrame 33].

Lemma host_keeps_signals_in_range_witness :
  appInRange initialApp /\
  appInRange
    (fst (hostRun zeroSin clickThenWait (initialApp, initialVision))).
Proof.
  apply (host_keeps_signals_in_range zeroSin clickThenWait initialApp
           initialVision).
  - intro x. unfold zeroSin. lra.
  - unfold appInRange, inUnit, initialApp.
    cbn [clickMood treeState mood windForce]. repeat split; lra.
Defined.

Lemma click_mood_decays_witness :
  clickMood
    (fst (hostRun zeroSin twoFrames
            (handleScreenClick initialApp, initialVision)))
  == Math_max
       (clickMood (handleScreenClick initialApp)
        - 0.0015 * inject_Z (Z.of_nat (List.length twoFrames)))
       (-1).
Proof.
  apply (click_mood_decays zeroSin twoFrames (handleScreenClick initialApp)
           initialVision).
  - reflexivity.
  - reflexivity.
  - vm_compute. discriminate.
  - reflexivity.
Defined.
